(** * ai-code-reviewer: a shallow embedding of the review pipeline

    The development follows the TypeScript sources of the repository:
    the JavaScript values the code manipulates (strings, numbers, arrays,
    insertion-ordered maps) are modelled first, then each source function
    is transcribed, and the properties of the specification are stated and
    proved at the end of the file.

    Conventions of the number model.  A JavaScript [number] that the code
    uses as a count, a line number or a length is an integer of [Z].  A
    [number] that carries a fraction (confidences, weights, scores) is the
    rational of [Q] it denotes, with exact arithmetic; [Math.round] is
    rounding half up. *)

From Stdlib Require Import String Ascii DecimalString.
From Stdlib Require Import ZArith NArith QArith Qround Qminmax Lia Bool.
From Stdlib Require Import List Permutation Sorted Lqa.
Import ListNotations.
Close Scope Q_scope.

(* ================================================================== *)
(** * JavaScript strings *)
(* ================================================================== *)

Module JS.

(** A JavaScript string is a sequence of UTF-16 code units; [length] of
    the list is the [.length] of the string. *)
Definition code_unit := N.
Definition jsstring := list code_unit.

(** An ASCII literal of the source. *)
Definition lit (s : string) : jsstring :=
  map N_of_ascii (list_ascii_of_string s).

Definition unit_eqb (a b : code_unit) : bool := N.eqb a b.

Fixpoint str_eqb (a b : jsstring) : bool :=
  match a, b with
  | [], [] => true
  | x :: a', y :: b' => unit_eqb x y && str_eqb a' b'
  | _, _ => false
  end.

(** [s.length] and [xs.length] as numbers. *)
Definition len (s : jsstring) : Z := Z.of_nat (length s).
Definition len_of {A : Type} (xs : list A) : Z := Z.of_nat (length xs).

(** [xs.slice(start, end)] on an array or a string, for integral
    arguments: negative indices count from the end, and both are clamped
    to the length. *)
Definition clamp_index (n i : Z) : Z :=
  if (i <? 0)%Z then Z.max (n + i) 0 else Z.min i n.

Definition slice {A : Type} (xs : list A) (start stop : Z) : list A :=
  let n := Z.of_nat (length xs) in
  let from := clamp_index n start in
  let to := clamp_index n stop in
  firstn (Z.to_nat (to - from)) (skipn (Z.to_nat from) xs).

(** [xs.slice(start)]. *)
Definition slice_from {A : Type} (xs : list A) (start : Z) : list A :=
  skipn (Z.to_nat (clamp_index (Z.of_nat (length xs)) start)) xs.

(** [parts.join(sep)]. *)
Fixpoint join (sep : jsstring) (parts : list jsstring) : jsstring :=
  match parts with
  | [] => []
  | [p] => p
  | p :: rest => p ++ sep ++ join sep rest
  end.

(** [String(n)] for an integral number below 10^21 in magnitude: the
    decimal digits, with a minus sign for a negative number. *)
Definition of_Z (n : Z) : jsstring :=
  lit (NilZero.string_of_int (Z.to_int n)).

(** [s.startsWith(p)]. *)
Fixpoint startsWith (s p : jsstring) : bool :=
  match p, s with
  | [], _ => true
  | x :: p', y :: s' => unit_eqb x y && startsWith s' p'
  | _ :: _, [] => false
  end.

(** [s.includes(p)]. *)
Fixpoint includes (s p : jsstring) : bool :=
  startsWith s p ||
  match s with
  | [] => false
  | _ :: s' => includes s' p
  end.

(** [s.toUpperCase()], on the ASCII letters (the code applies it to the
    names of the severity levels only). *)
Definition upper_unit (u : code_unit) : code_unit :=
  if ((97 <=? u) && (u <=? 122))%N then (u - 32)%N else u.

Definition toUpperCase (s : jsstring) : jsstring := map upper_unit s.

Definition lower_unit (u : code_unit) : code_unit :=
  if ((65 <=? u) && (u <=? 90))%N then (u + 32)%N else u.

Definition toLowerCase_ascii (s : jsstring) : jsstring := map lower_unit s.

(** [s.split(sep)] for a separator of one code unit. *)
Fixpoint split_on (sep : code_unit) (s : jsstring) : list jsstring :=
  match s with
  | [] => [[]]
  | u :: s' =>
      if unit_eqb u sep then [] :: split_on sep s'
      else match split_on sep s' with
           | [] => [[u]]
           | p :: ps => (u :: p) :: ps
           end
  end.

End JS.

Import JS.

(* ================================================================== *)
(** * schemas/issue.ts *)
(* ================================================================== *)

Inductive IssueCategory :=
  | security | correctness | performance | maintainability | style | dependency.

Inductive IssueSeverity := low | medium | high | critical.

Definition category_eqb (a b : IssueCategory) : bool :=
  match a, b with
  | security, security | correctness, correctness
  | performance, performance | maintainability, maintainability
  | style, style | dependency, dependency => true
  | _, _ => false
  end.

Definition severity_eqb (a b : IssueSeverity) : bool :=
  match a, b with
  | low, low | medium, medium | high, high | critical, critical => true
  | _, _ => false
  end.

(** The string value of each enum member. *)
Definition category_name (c : IssueCategory) : jsstring :=
  match c with
  | security => lit "security"
  | correctness => lit "correctness"
  | performance => lit "performance"
  | maintainability => lit "maintainability"
  | style => lit "style"
  | dependency => lit "dependency"
  end.

Definition severity_name (s : IssueSeverity) : jsstring :=
  match s with
  | low => lit "low"
  | medium => lit "medium"
  | high => lit "high"
  | critical => lit "critical"
  end.

Record Issue := mkIssue {
  id : jsstring;
  category : IssueCategory;
  subtype : jsstring;
  severity : IssueSeverity;
  confidence : Q;
  file_path : jsstring;
  line_start : Z;
  line_end : Z;
  message : jsstring;
  evidence : jsstring;
  suggested_fix : option jsstring;
  patch : option jsstring;
  owasp_tag : option jsstring;
  cwe : option jsstring;
  source_tool : option jsstring;
  is_llm_generated : bool
}.

(* ================================================================== *)
(** * comment-formatter.ts *)
(* ================================================================== *)

Module Formatter.

Record CommentFormatConfig := {
  maxInlineChars : Z;
  maxSummaryChars : Z;
  includeEvidence : bool;
  includeFixes : bool
}.

(** [Partial<CommentFormatConfig>]: an absent key is [None]. *)
Record PartialCommentFormatConfig := {
  p_maxInlineChars : option Z;
  p_maxSummaryChars : option Z;
  p_includeEvidence : option bool;
  p_includeFixes : option bool
}.

Definition DEFAULT_COMMENT_CONFIG : CommentFormatConfig :=
  {| maxInlineChars := 900;
     maxSummaryChars := 4000;
     includeEvidence := true;
     includeFixes := true |}.

Definition no_overrides : PartialCommentFormatConfig :=
  {| p_maxInlineChars := None; p_maxSummaryChars := None;
     p_includeEvidence := None; p_includeFixes := None |}.

Definition override {A : Type} (d : A) (o : option A) : A :=
  match o with Some v => v | None => d end.

(** [{ ...DEFAULT_COMMENT_CONFIG, ...config }]. *)
Definition merge_config (c : PartialCommentFormatConfig) : CommentFormatConfig :=
  {| maxInlineChars := override (maxInlineChars DEFAULT_COMMENT_CONFIG) (p_maxInlineChars c);
     maxSummaryChars := override (maxSummaryChars DEFAULT_COMMENT_CONFIG) (p_maxSummaryChars c);
     includeEvidence := override (includeEvidence DEFAULT_COMMENT_CONFIG) (p_includeEvidence c);
     includeFixes := override (includeFixes DEFAULT_COMMENT_CONFIG) (p_includeFixes c) |}.

Definition SEVERITY_BADGES (s : IssueSeverity) : jsstring :=
  match s with
  | critical => [0xD83D; 0xDD34]
  | high => [0xD83D; 0xDFE0]
  | medium => [0xD83D; 0xDFE1]
  | low => [0xD83D; 0xDFE2]
  end%N.

Definition CATEGORY_BADGES (c : IssueCategory) : jsstring :=
  match c with
  | security => [0xD83D; 0xDD12]
  | correctness => [0xD83D; 0xDC1B]
  | performance => [0x26A1]
  | maintainability => [0xD83D; 0xDD27]
  | style => [0x2728]
  | dependency => [0xD83D; 0xDCE6]
  end%N.

Definition default_indicator : jsstring := lit "...".

Definition truncateText_with (text : jsstring) (maxLength : Z) (indicator : jsstring)
  : jsstring :=
  if (len text <=? maxLength)%Z then text
  else slice text 0 (maxLength - len indicator) ++ indicator.

Definition truncateText (text : jsstring) (maxLength : Z) : jsstring :=
  truncateText_with text maxLength default_indicator.

Definition header_line (issue : Issue) : jsstring :=
  SEVERITY_BADGES (severity issue) ++ lit " **"
    ++ toUpperCase (severity_name (severity issue)) ++ lit "** "
    ++ CATEGORY_BADGES (category issue) ++ lit " "
    ++ category_name (category issue) ++ lit "/" ++ subtype issue.

Definition evidence_parts (cfg : CommentFormatConfig) (issue : Issue) : list jsstring :=
  if includeEvidence cfg && (0 <? len (evidence issue))%Z then
    [ []; lit "**Evidence:**"; lit "```";
      truncateText (evidence issue) 200; lit "```" ]
  else [].

Definition fix_parts (cfg : CommentFormatConfig) (issue : Issue) : list jsstring :=
  match suggested_fix issue with
  | Some sfix =>
      if includeFixes cfg && (0 <? len sfix)%Z then
        [ []; [0xD83D; 0xDCA1]%N ++ lit " **Suggested fix:** " ++ sfix ]
      else []
  | None => []
  end.

Definition tags_of (issue : Issue) : list jsstring :=
  (match cwe issue with Some c => [c] | None => [] end)
  ++ (match owasp_tag issue with Some t => [lit "OWASP: " ++ t] | None => [] end).

Definition tag_parts (issue : Issue) : list jsstring :=
  let tags := tags_of issue in
  if (0 <? Z.of_nat (length tags))%Z then
    [ []; [0xD83C; 0xDFF7; 0xFE0F]%N ++ lit " " ++ join (lit " | ") tags ]
  else [].

Definition formatInlineComment (issue : Issue) (config : PartialCommentFormatConfig)
  : jsstring :=
  let cfg := merge_config config in
  let parts :=
    [ header_line issue; []; message issue ]
    ++ evidence_parts cfg issue
    ++ fix_parts cfg issue
    ++ tag_parts issue in
  let fullComment := join (lit (String "010" EmptyString)) parts in
  truncateText fullComment (maxInlineChars cfg).

End Formatter.

(* ================================================================== *)
(** * diff-parser.ts *)
(* ================================================================== *)

(** What a call does: it returns a value or it throws. *)
Inductive Error := MalformedDiff | RangeError.

Inductive Outcome (A : Type) :=
  | Returns (a : A)
  | Throws (e : Error).
Arguments Returns {A} a.
Arguments Throws {A} e.

Module DiffParser.

Record LineRef := {
  lineNumber : Z;
  line_content : jsstring
}.

Record DiffHunk := {
  oldStart : Z;
  oldCount : Z;
  newStart : Z;
  newCount : Z;
  content : jsstring;
  addedLines : list LineRef;
  removedLines : list LineRef
}.

Inductive ChangeType := add | delete | modify | rename.

Definition type_name (t : ChangeType) : jsstring :=
  match t with
  | add => lit "add"
  | delete => lit "delete"
  | modify => lit "modify"
  | rename => lit "rename"
  end.

Record ModeChange := { mode_old : jsstring; mode_new : jsstring }.

Record DiffFile := {
  oldPath : option jsstring;
  newPath : option jsstring;
  type : ChangeType;
  isBinary : bool;
  modeChange : option ModeChange;
  similarity : option Z;
  hunks : list DiffHunk;
  linesAdded : Z;
  linesRemoved : Z
}.

Record ParsedDiff := {
  files : list DiffFile;
  totalLinesAdded : Z;
  totalLinesRemoved : Z;
  totalFilesChanged : Z
}.

(** ** The line patterns

    Each regular expression of the source is a function from the line to
    its capture groups.  No pattern has a flag: [.] matches any code unit
    but a line terminator, [\d] is [0-9], [^] and [$] are the two ends of
    the line. *)

Definition is_line_terminator (u : code_unit) : bool :=
  (N.eqb u 10 || N.eqb u 13 || N.eqb u 0x2028 || N.eqb u 0x2029)%N.

Definition dot (u : code_unit) : bool := negb (is_line_terminator u).

Definition is_digit (u : code_unit) : bool := ((48 <=? u) && (u <=? 57))%N.

(** [(.+)$]: the rest of the line, not empty, without line terminators. *)
Definition dot_plus_end (s : jsstring) : bool :=
  match s with
  | [] => false
  | _ => forallb dot s
  end.

(** [(\d+)$]. *)
Definition digits_end (s : jsstring) : bool :=
  match s with
  | [] => false
  | _ => forallb is_digit s
  end.

Fixpoint strip_prefix (p s : jsstring) : option jsstring :=
  match p, s with
  | [], _ => Some s
  | x :: p', y :: s' => if unit_eqb x y then strip_prefix p' s' else None
  | _ :: _, [] => None
  end.

(** The longest run of digits at the start, and what follows. *)
Fixpoint span_digits (s : jsstring) : jsstring * jsstring :=
  match s with
  | u :: s' =>
      if is_digit u then let '(d, r) := span_digits s' in (u :: d, r)
      else ([], s)
  | [] => ([], [])
  end.

(** [(\d+)] followed by something that is not a digit. *)
Definition digits_plus (s : jsstring) : option (jsstring * jsstring) :=
  match span_digits s with
  | ([], _) => None
  | (d, r) => Some (d, r)
  end.

(** The split of [r] at the last occurrence of [sep] that leaves something
    after it. *)
Fixpoint last_occurrence (sep r : jsstring) : option (jsstring * jsstring) :=
  match r with
  | [] => None
  | u :: r' =>
      match last_occurrence sep r' with
      | Some (x, y) => Some (u :: x, y)
      | None =>
          match strip_prefix sep r with
          | Some (v :: y) => Some ([], v :: y)
          | _ => None
          end
      end
  end.

(** [/^diff --git a\/(.+) b\/(.+)$/]: the first group is greedy, so the
    split is at the last [" b/"] that leaves both groups non-empty. *)
Definition DIFF_HEADER_REGEX (line : jsstring) : option (jsstring * jsstring) :=
  match strip_prefix (lit "diff --git a/") line with
  | Some (u :: r') =>
      if forallb dot (u :: r') then
        match last_occurrence (lit " b/") r' with
        | Some (x, y) => Some (u :: x, y)
        | None => None
        end
      else None
  | _ => None
  end.

(** [/^<marker> (?:<side>\/)?(.+)$/] for [---] with [a] and [+++] with
    [b]: the optional prefix is taken when something remains after it. *)
Definition file_line_regex (marker side : jsstring) (line : jsstring) : option jsstring :=
  match strip_prefix marker line with
  | Some r =>
      if dot_plus_end r then
        match strip_prefix side r with
        | Some (v :: p) => Some (v :: p)
        | _ => Some r
        end
      else None
  | None => None
  end.

Definition OLD_FILE_REGEX : jsstring -> option jsstring :=
  file_line_regex (lit "--- ") (lit "a/").

Definition NEW_FILE_REGEX : jsstring -> option jsstring :=
  file_line_regex (lit "+++ ") (lit "b/").

(** [(\d+)(?:,(\d+))?] and what follows. *)
Definition range_regex (s : jsstring) : option (jsstring * option jsstring * jsstring) :=
  match digits_plus s with
  | Some (start, r) =>
      match strip_prefix (lit ",") r with
      | Some r1 =>
          match digits_plus r1 with
          | Some (cnt, r2) => Some (start, Some cnt, r2)
          | None => Some (start, None, r)
          end
      | None => Some (start, None, r)
      end
  | None => None
  end.

(** [/^@@ -(\d+)(?:,(\d+))? \+(\d+)(?:,(\d+))? @@/], groups 1 to 4. *)
Definition HUNK_HEADER_REGEX (line : jsstring)
  : option (jsstring * option jsstring * jsstring * option jsstring) :=
  match strip_prefix (lit "@@ -") line with
  | Some r =>
      match range_regex r with
      | Some (g1, g2, r1) =>
          match strip_prefix (lit " +") r1 with
          | Some r2 =>
              match range_regex r2 with
              | Some (g3, g4, r3) =>
                  match strip_prefix (lit " @@") r3 with
                  | Some _ => Some (g1, g2, g3, g4)
                  | None => None
                  end
              | None => None
              end
          | None => None
          end
      | None => None
      end
  | None => None
  end.

(** [/^<prefix>(.+)$/]. *)
Definition prefix_dot_regex (prefix line : jsstring) : option jsstring :=
  match strip_prefix prefix line with
  | Some r => if dot_plus_end r then Some r else None
  | None => None
  end.

(** [/^<prefix>(\d+)$/]. *)
Definition prefix_digits_regex (prefix line : jsstring) : option jsstring :=
  match strip_prefix prefix line with
  | Some r => if digits_end r then Some r else None
  | None => None
  end.

Definition RENAME_FROM_REGEX := prefix_dot_regex (lit "rename from ").
Definition RENAME_TO_REGEX := prefix_dot_regex (lit "rename to ").
Definition MODE_OLD_REGEX := prefix_digits_regex (lit "old mode ").
Definition MODE_NEW_REGEX := prefix_digits_regex (lit "new mode ").
Definition NEW_FILE_MODE_REGEX := prefix_digits_regex (lit "new file mode ").
Definition DELETED_FILE_MODE_REGEX := prefix_digits_regex (lit "deleted file mode ").

(** [/^similarity index (\d+)%$/]. *)
Definition SIMILARITY_REGEX (line : jsstring) : option jsstring :=
  match strip_prefix (lit "similarity index ") line with
  | Some r =>
      match digits_plus r with
      | Some (d, rest) => if str_eqb rest (lit "%") then Some d else None
      | None => None
      end
  | None => None
  end.

(** [/^Binary files .+ differ$/]. *)
Definition BINARY_REGEX (line : jsstring) : bool :=
  match strip_prefix (lit "Binary files ") line with
  | Some r =>
      let n := length r in
      forallb dot r && (7 <? n)%nat
        && str_eqb (skipn (n - 7) r) (lit " differ")
  | None => false
  end.

Definition is_some {A : Type} (o : option A) : bool :=
  match o with Some _ => true | None => false end.

Definition nullish_str (o : option jsstring) (d : jsstring) : jsstring :=
  match o with Some v => v | None => d end.

(** [parseInt(d, 10)] on a string of decimal digits; the value is kept
    exact, where the source rounds it to a double beyond 2^53. *)
Definition parseInt (d : jsstring) : Z :=
  fold_left (fun acc u => (acc * 10 + (Z.of_N u - 48))%Z) d 0%Z.


(** ** The parsing loop

    The loop of [parseDiff] mutates the file and the hunk under
    construction; here each assignment rebuilds the record. *)

Definition with_oldPath (f : DiffFile) (v : option jsstring) : DiffFile :=
  {| oldPath := v; newPath := newPath f; type := type f; isBinary := isBinary f;
     modeChange := modeChange f; similarity := similarity f; hunks := hunks f;
     linesAdded := linesAdded f; linesRemoved := linesRemoved f |}.

Definition with_newPath (f : DiffFile) (v : option jsstring) : DiffFile :=
  {| oldPath := oldPath f; newPath := v; type := type f; isBinary := isBinary f;
     modeChange := modeChange f; similarity := similarity f; hunks := hunks f;
     linesAdded := linesAdded f; linesRemoved := linesRemoved f |}.

Definition with_type (f : DiffFile) (v : ChangeType) : DiffFile :=
  {| oldPath := oldPath f; newPath := newPath f; type := v; isBinary := isBinary f;
     modeChange := modeChange f; similarity := similarity f; hunks := hunks f;
     linesAdded := linesAdded f; linesRemoved := linesRemoved f |}.

Definition with_isBinary (f : DiffFile) (v : bool) : DiffFile :=
  {| oldPath := oldPath f; newPath := newPath f; type := type f; isBinary := v;
     modeChange := modeChange f; similarity := similarity f; hunks := hunks f;
     linesAdded := linesAdded f; linesRemoved := linesRemoved f |}.

Definition with_modeChange (f : DiffFile) (v : option ModeChange) : DiffFile :=
  {| oldPath := oldPath f; newPath := newPath f; type := type f; isBinary := isBinary f;
     modeChange := v; similarity := similarity f; hunks := hunks f;
     linesAdded := linesAdded f; linesRemoved := linesRemoved f |}.

Definition with_similarity (f : DiffFile) (v : option Z) : DiffFile :=
  {| oldPath := oldPath f; newPath := newPath f; type := type f; isBinary := isBinary f;
     modeChange := modeChange f; similarity := v; hunks := hunks f;
     linesAdded := linesAdded f; linesRemoved := linesRemoved f |}.

Definition with_hunks (f : DiffFile) (v : list DiffHunk) : DiffFile :=
  {| oldPath := oldPath f; newPath := newPath f; type := type f; isBinary := isBinary f;
     modeChange := modeChange f; similarity := similarity f; hunks := v;
     linesAdded := linesAdded f; linesRemoved := linesRemoved f |}.

Definition with_linesAdded (f : DiffFile) (v : Z) : DiffFile :=
  {| oldPath := oldPath f; newPath := newPath f; type := type f; isBinary := isBinary f;
     modeChange := modeChange f; similarity := similarity f; hunks := hunks f;
     linesAdded := v; linesRemoved := linesRemoved f |}.

Definition with_linesRemoved (f : DiffFile) (v : Z) : DiffFile :=
  {| oldPath := oldPath f; newPath := newPath f; type := type f; isBinary := isBinary f;
     modeChange := modeChange f; similarity := similarity f; hunks := hunks f;
     linesAdded := linesAdded f; linesRemoved := v |}.

Definition with_content (h : DiffHunk) (v : jsstring) : DiffHunk :=
  {| oldStart := oldStart h; oldCount := oldCount h; newStart := newStart h;
     newCount := newCount h; content := v; addedLines := addedLines h;
     removedLines := removedLines h |}.

Definition with_addedLines (h : DiffHunk) (v : list LineRef) : DiffHunk :=
  {| oldStart := oldStart h; oldCount := oldCount h; newStart := newStart h;
     newCount := newCount h; content := content h; addedLines := v;
     removedLines := removedLines h |}.

Definition with_removedLines (h : DiffHunk) (v : list LineRef) : DiffHunk :=
  {| oldStart := oldStart h; oldCount := oldCount h; newStart := newStart h;
     newCount := newCount h; content := content h; addedLines := addedLines h;
     removedLines := v |}.

(** The local variables of [parseDiff]. *)
Record State := {
  st_files : list DiffFile;
  currentFile : option DiffFile;
  currentHunk : option DiffHunk;
  oldLineNum : Z;
  newLineNum : Z;
  hunkContent : list jsstring
}.

Definition initial : State :=
  {| st_files := []; currentFile := None; currentHunk := None;
     oldLineNum := 0; newLineNum := 0; hunkContent := [] |}.

Definition newline : jsstring := [10%N].

Definition finalizeHunk (st : State) : State :=
  {| st_files := st_files st;
     currentFile :=
       match currentHunk st, currentFile st with
       | Some h, Some f =>
           Some (with_hunks f
                   (hunks f ++ [with_content h (join newline (hunkContent st))]))
       | _, _ => currentFile st
       end;
     currentHunk := None;
     oldLineNum := oldLineNum st;
     newLineNum := newLineNum st;
     hunkContent := [] |}.

Definition finalizeFile (st : State) : State :=
  let st1 := finalizeHunk st in
  {| st_files :=
       match currentFile st1 with
       | Some f => st_files st1 ++ [f]
       | None => st_files st1
       end;
     currentFile := None;
     currentHunk := currentHunk st1;
     oldLineNum := oldLineNum st1;
     newLineNum := newLineNum st1;
     hunkContent := hunkContent st1 |}.

Definition set_file (st : State) (f : DiffFile) : State :=
  {| st_files := st_files st; currentFile := Some f; currentHunk := currentHunk st;
     oldLineNum := oldLineNum st; newLineNum := newLineNum st;
     hunkContent := hunkContent st |}.

Definition dev_null : jsstring := lit "/dev/null".

(** A line of hunk content, with a hunk open: the last block of the loop
    body. *)
Definition hunk_line (st : State) (f : DiffFile) (h : DiffHunk) (line : jsstring)
  : State :=
  let content' := hunkContent st ++ [line] in
  if startsWith line (lit "+") && negb (startsWith line (lit "+++")) then
    {| st_files := st_files st;
       currentFile := Some (with_linesAdded f (linesAdded f + 1));
       currentHunk :=
         Some (with_addedLines h
                 (addedLines h ++ [ {| lineNumber := newLineNum st;
                                       line_content := slice_from line 1 |} ]));
       oldLineNum := oldLineNum st;
       newLineNum := newLineNum st + 1;
       hunkContent := content' |}
  else if startsWith line (lit "-") && negb (startsWith line (lit "---")) then
    {| st_files := st_files st;
       currentFile := Some (with_linesRemoved f (linesRemoved f + 1));
       currentHunk :=
         Some (with_removedLines h
                 (removedLines h ++ [ {| lineNumber := oldLineNum st;
                                         line_content := slice_from line 1 |} ]));
       oldLineNum := oldLineNum st + 1;
       newLineNum := newLineNum st;
       hunkContent := content' |}
  else if startsWith line (lit " ") || str_eqb line [] then
    {| st_files := st_files st; currentFile := Some f; currentHunk := Some h;
       oldLineNum := oldLineNum st + 1;
       newLineNum := newLineNum st + 1;
       hunkContent := content' |}
  else
    {| st_files := st_files st; currentFile := Some f; currentHunk := Some h;
       oldLineNum := oldLineNum st; newLineNum := newLineNum st;
       hunkContent := content' |}.

(** The loop body once a file is open: the checks after
    [if (currentFile === null) continue], in source order. *)
Definition file_line (st : State) (f : DiffFile) (line : jsstring) : State :=
  match RENAME_FROM_REGEX line with
  | Some g => set_file st (with_type (with_oldPath f (Some g)) rename)
  | None =>
  match RENAME_TO_REGEX line with
  | Some g => set_file st (with_type (with_newPath f (Some g)) rename)
  | None =>
  match SIMILARITY_REGEX line with
  | Some g => set_file st (with_similarity f (Some (parseInt g)))
  | None =>
  if BINARY_REGEX line then set_file st (with_isBinary f true) else
  match MODE_OLD_REGEX line with
  | Some g => set_file st (with_modeChange f (Some {| mode_old := g; mode_new := [] |}))
  | None =>
  match MODE_NEW_REGEX line with
  | Some g =>
      match modeChange f with
      | Some mc =>
          set_file st (with_modeChange f
                         (Some {| mode_old := mode_old mc; mode_new := g |}))
      | None => st
      end
  | None =>
  if is_some (NEW_FILE_MODE_REGEX line) then
    set_file st (with_oldPath (with_type f add) None) else
  if is_some (DELETED_FILE_MODE_REGEX line) then
    set_file st (with_newPath (with_type f delete) None) else
  match OLD_FILE_REGEX line with
  | Some path =>
      if str_eqb path dev_null
      then set_file st (with_type (with_oldPath f None) add)
      else set_file st (with_oldPath f (Some path))
  | None =>
  match NEW_FILE_REGEX line with
  | Some path =>
      if str_eqb path dev_null
      then set_file st (with_type (with_newPath f None) delete)
      else set_file st (with_newPath f (Some path))
  | None =>
  match HUNK_HEADER_REGEX line with
  | Some (g1, g2, g3, g4) =>
      let st1 := finalizeHunk st in
      let oldNum := parseInt g1 in
      let newNum := parseInt g3 in
      {| st_files := st_files st1;
         currentFile := currentFile st1;
         currentHunk :=
           Some {| oldStart := oldNum;
                   oldCount := parseInt (nullish_str g2 (lit "1"));
                   newStart := newNum;
                   newCount := parseInt (nullish_str g4 (lit "1"));
                   content := [];
                   addedLines := [];
                   removedLines := [] |};
         oldLineNum := oldNum;
         newLineNum := newNum;
         hunkContent := hunkContent st1 ++ [line] |}
  | None =>
  match currentHunk st with
  | Some h => hunk_line st f h line
  | None => st
  end
  end end end end end end end end.

(** One iteration of the loop. *)
Definition step (st : State) (line : jsstring) : State :=
  match DIFF_HEADER_REGEX line with
  | Some (g1, g2) =>
      set_file (finalizeFile st)
        {| oldPath := Some g1; newPath := Some g2; type := modify;
           isBinary := false; modeChange := None; similarity := None;
           hunks := []; linesAdded := 0; linesRemoved := 0 |}
  | None =>
      match currentFile st with
      | None => st
      | Some f => file_line st f line
      end
  end.

Definition sum_by (f : DiffFile -> Z) (fs : list DiffFile) : Z :=
  fold_left (fun sum x => (sum + f x)%Z) fs 0%Z.

(** The loop over the lines, then the code after it. *)
Definition parse_lines (lines : list jsstring) : Outcome ParsedDiff :=
  let st := finalizeFile (fold_left step lines initial) in
  let files := st_files st in
  Returns {| files := files;
             totalLinesAdded := sum_by linesAdded files;
             totalLinesRemoved := sum_by linesRemoved files;
             totalFilesChanged := len_of files |}.

Definition parseDiff (diffContent : jsstring) : Outcome ParsedDiff :=
  parse_lines (split_on 10%N diffContent).

Definition getFilePath (file : DiffFile) : jsstring :=
  match newPath file with
  | Some p => p
  | None => match oldPath file with
            | Some p => p
            | None => []
            end
  end.

End DiffParser.

(* ================================================================== *)
(** * chunker.ts *)
(* ================================================================== *)

Module Chunker.

Import DiffParser.

Record ChunkConfig := {
  maxTokens : Z;
  overlapTokens : Z;
  maxFilesPerChunk : Z;
  keepFilesTogether : bool
}.

(** [Partial<ChunkConfig>]. *)
Record PartialChunkConfig := {
  p_maxTokens : option Z;
  p_overlapTokens : option Z;
  p_maxFilesPerChunk : option Z;
  p_keepFilesTogether : option bool
}.

Definition DEFAULT_CHUNK_CONFIG : ChunkConfig :=
  {| maxTokens := 4000;
     overlapTokens := 200;
     maxFilesPerChunk := 5;
     keepFilesTogether := true |}.

Definition no_overrides : PartialChunkConfig :=
  {| p_maxTokens := None; p_overlapTokens := None;
     p_maxFilesPerChunk := None; p_keepFilesTogether := None |}.

Definition or_default {A : Type} (o : option A) (d : A) : A :=
  match o with Some v => v | None => d end.

(** [{ ...DEFAULT_CHUNK_CONFIG, ...config }]. *)
Definition merge_config (c : PartialChunkConfig) : ChunkConfig :=
  {| maxTokens := or_default (p_maxTokens c) (maxTokens DEFAULT_CHUNK_CONFIG);
     overlapTokens := or_default (p_overlapTokens c) (overlapTokens DEFAULT_CHUNK_CONFIG);
     maxFilesPerChunk :=
       or_default (p_maxFilesPerChunk c) (maxFilesPerChunk DEFAULT_CHUNK_CONFIG);
     keepFilesTogether :=
       or_default (p_keepFilesTogether c) (keepFilesTogether DEFAULT_CHUNK_CONFIG) |}.

Record DiffChunk := {
  index : Z;
  totalChunks : Z;
  chunk_files : list DiffFile;
  filePaths : list jsstring;
  chunk_content : jsstring;
  estimatedTokens : Z;
  languages : list jsstring
}.

(** [Math.ceil(text.length / 4)]; the length is a non-negative integer. *)
Definition estimateTokens (text : jsstring) : Z := ((len text + 3) / 4)%Z.

Definition formatDiffFileForLLM (file : DiffFile) : jsstring :=
  let path := getFilePath file in
  let lines0 :=
    [ lit "## File: " ++ path;
      lit "Type: " ++ type_name (type file) ++ lit " | +" ++ of_Z (linesAdded file)
        ++ lit " -" ++ of_Z (linesRemoved file) ] in
  if isBinary file then join newline (lines0 ++ [lit "(Binary file)"])
  else
    let lines1 :=
      match type file, similarity file with
      | rename, Some sim =>
          lines0 ++
          [ lit "Renamed from: " ++ nullish_str (oldPath file) (lit "unknown")
              ++ lit " (" ++ of_Z sim ++ lit "% similar)" ]
      | _, _ => lines0
      end in
    join newline (lines1 ++ [lit "```diff"] ++ map content (hunks file) ++ [lit "```"]).

(** The [langMap] table of [detectLanguage]. *)
Definition langMap : list (string * string) :=
  [ ("ts", "typescript"); ("tsx", "typescript"); ("js", "javascript");
    ("jsx", "javascript"); ("py", "python"); ("go", "go"); ("rs", "rust");
    ("java", "java"); ("rb", "ruby"); ("php", "php"); ("cs", "csharp");
    ("cpp", "cpp"); ("c", "c"); ("swift", "swift"); ("kt", "kotlin") ]%string.

Fixpoint lookup (table : list (string * string)) (key : jsstring) : option jsstring :=
  match table with
  | [] => None
  | (k, v) :: rest => if str_eqb (lit k) key then Some (lit v) else lookup rest key
  end.

(** [filePath.split('.').pop()?.toLowerCase()] looked up in the table.
    The lower-casing is that of the ASCII letters. *)
Definition detectLanguage (filePath : jsstring) : option jsstring :=
  let ext := toLowerCase_ascii (last (split_on 46%N filePath) []) in
  lookup langMap ext.

(** [languages.add(lang)] on a [Set]. *)
Definition set_add (langs : list jsstring) (lang : jsstring) : list jsstring :=
  if existsb (str_eqb lang) langs then langs else langs ++ [lang].

(** The local variables of [chunkDiff]. *)
Record State := {
  chunks : list DiffChunk;
  currentFiles : list DiffFile;
  currentContent : list jsstring;
  currentTokens : Z
}.

Definition initial : State :=
  {| chunks := []; currentFiles := []; currentContent := []; currentTokens := 0 |}.

Definition paragraph_break : jsstring := [10%N; 10%N].

Definition createChunk (st : State) : State :=
  match currentFiles st with
  | [] => st
  | _ =>
      let content := join paragraph_break (currentContent st) in
      let languages :=
        fold_left
          (fun langs file =>
             match detectLanguage (getFilePath file) with
             | Some lang => set_add langs lang
             | None => langs
             end)
          (currentFiles st) [] in
      {| chunks :=
           chunks st ++
           [ {| index := len_of (chunks st);
                totalChunks := 0;
                chunk_files := currentFiles st;
                filePaths := map getFilePath (currentFiles st);
                chunk_content := content;
                estimatedTokens := estimateTokens content;
                languages := languages |} ];
         currentFiles := [];
         currentContent := [];
         currentTokens := 0 |}
  end.

(** The body of the loop over [diff.files]. *)
Definition step (cfg : ChunkConfig) (st : State) (file : DiffFile) : State :=
  let fileContent := formatDiffFileForLLM file in
  let fileTokens := estimateTokens fileContent in
  let st1 :=
    if (fileTokens >? maxTokens cfg)%Z && (len_of (currentFiles st) >? 0)%Z
    then createChunk st else st in
  let wouldExceedTokens := (currentTokens st1 + fileTokens >? maxTokens cfg)%Z in
  let wouldExceedFiles := (len_of (currentFiles st1) >=? maxFilesPerChunk cfg)%Z in
  let st2 := if wouldExceedTokens || wouldExceedFiles then createChunk st1 else st1 in
  {| chunks := chunks st2;
     currentFiles := currentFiles st2 ++ [file];
     currentContent := currentContent st2 ++ [fileContent];
     currentTokens := (currentTokens st2 + fileTokens)%Z |}.

Definition with_totalChunks (n : Z) (c : DiffChunk) : DiffChunk :=
  {| index := index c; totalChunks := n; chunk_files := chunk_files c;
     filePaths := filePaths c; chunk_content := chunk_content c;
     estimatedTokens := estimatedTokens c; languages := languages c |}.

Definition chunkDiff (diff : ParsedDiff) (config : PartialChunkConfig)
  : list DiffChunk :=
  let cfg := merge_config config in
  if (len_of (files diff) =? 0)%Z then []
  else
    let st := createChunk (fold_left (step cfg) (files diff) initial) in
    map (with_totalChunks (len_of (chunks st))) (chunks st).

End Chunker.

(* ================================================================== *)
(** * Insertion-ordered maps *)
(* ================================================================== *)

(** A JavaScript [Map] iterates in the order in which its keys were first
    inserted, and [set] on a key that is present replaces the value in
    place.  The model is an association list without repeated keys. *)
Module OMap.
Section Ops.
Context {K V : Type}.
Variable eqb : K -> K -> bool.

Definition t := list (K * V).

Definition empty : t := [].

Fixpoint get (k : K) (m : t) : option V :=
  match m with
  | [] => None
  | (k', v) :: m' => if eqb k' k then Some v else get k m'
  end.

Fixpoint set (k : K) (v : V) (m : t) : t :=
  match m with
  | [] => [(k, v)]
  | (k', v') :: m' =>
      if eqb k' k then (k', v) :: m' else (k', v') :: set k v m'
  end.

Definition keys (m : t) : list K := map fst m.
Definition values (m : t) : list V := map snd m.
End Ops.
End OMap.

(* ================================================================== *)
(** * risk-scorer.ts *)
(* ================================================================== *)

Module RiskScorer.

Local Open Scope Q_scope.

Definition Qltb (x y : Q) : bool := negb (Qle_bool y x).
Definition Qgeb (x y : Q) : bool := Qle_bool y x.
Definition Qgtb (x y : Q) : bool := negb (Qle_bool x y).

(** [Math.round]: the nearest integer, halves rounded up. *)
Definition Math_round (x : Q) : Q := inject_Z (Qfloor (x + (1 # 2))).

Definition Math_min (x y : Q) : Q := Qmin x y.

Definition SEVERITY_WEIGHTS (s : IssueSeverity) : Q :=
  match s with
  | low => 1
  | medium => 3
  | high => 7
  | critical => 15
  end.

Definition CATEGORY_WEIGHTS (c : IssueCategory) : Q :=
  match c with
  | security => 4
  | correctness => 3
  | dependency => 5 # 2
  | performance => 2
  | maintainability => 3 # 2
  | style => 1
  end.

Inductive RiskLevel := risk_low | risk_medium | risk_high | risk_critical.

Definition RISK_THRESHOLDS (l : RiskLevel) : Q :=
  match l with
  | risk_critical => 85
  | risk_high => 60
  | risk_medium => 30
  | risk_low => 0
  end.

(** [CategoryBreakdown] of schemas/review-output.ts: [category] and
    [max_severity] are strings there. *)
Record CategoryBreakdown := {
  b_category : jsstring;
  count : Z;
  max_severity : jsstring;
  score_contribution : Q
}.

Record RiskScoreResult := {
  score : Q;
  level : RiskLevel;
  breakdown : list CategoryBreakdown;
  rawScore : Q;
  maxPossibleScore : Q
}.

(** [Partial<ScoreConfig>]; the weight tables are partial records. *)
Record PartialScoreConfig := {
  maxExpectedIssues : option Q;
  severityWeights : option (IssueSeverity -> option Q);
  categoryWeights : option (IssueCategory -> option Q)
}.

Definition no_config : PartialScoreConfig :=
  {| maxExpectedIssues := None; severityWeights := None; categoryWeights := None |}.

Definition DEFAULT_maxExpectedIssues : Q := 20.

(** [{ ...defaults, ...custom }] on a weight table. *)
Definition spread {A : Type} (defaults : A -> Q) (custom : option (A -> option Q))
  (k : A) : option Q :=
  match custom with
  | Some f => match f k with Some w => Some w | None => Some (defaults k) end
  | None => Some (defaults k)
  end.

Definition nullish {A : Type} (o : option A) (d : A) : A :=
  match o with Some v => v | None => d end.

(** The first loop: group the issues by category. *)
Definition group_push (groups : OMap.t (K:=IssueCategory) (V:=list Issue)) (issue : Issue)
  : OMap.t :=
  let existing := nullish (OMap.get category_eqb (category issue) groups) [] in
  OMap.set category_eqb (category issue) (existing ++ [issue]) groups.

Definition group_by_category (issues : list Issue) : OMap.t :=
  fold_left group_push issues OMap.empty.

(** The body of the inner loop over the issues of one category. *)
Definition issue_step (sevWeights : IssueSeverity -> option Q)
  (catWeights : IssueCategory -> option Q) (cat : IssueCategory)
  (acc : Q * IssueSeverity) (issue : Issue) : Q * IssueSeverity :=
  let '(categoryScore, maxSeverity) := acc in
  let severityWeight := nullish (sevWeights (severity issue)) 1 in
  let categoryWeight := nullish (catWeights cat) 1 in
  let issueScore := severityWeight * confidence issue * categoryWeight in
  (categoryScore + issueScore,
   if Qgtb (SEVERITY_WEIGHTS (severity issue)) (SEVERITY_WEIGHTS maxSeverity)
   then severity issue else maxSeverity).

(** The body of the outer loop over the groups. *)
Definition category_step (sevWeights : IssueSeverity -> option Q)
  (catWeights : IssueCategory -> option Q)
  (acc : list CategoryBreakdown * Q) (group : IssueCategory * list Issue)
  : list CategoryBreakdown * Q :=
  let '(breakdown, totalRawScore) := acc in
  let '(cat, categoryIssues) := group in
  let '(categoryScore, maxSeverity) :=
    fold_left (issue_step sevWeights catWeights cat) categoryIssues (0, low) in
  (breakdown ++
     [ {| b_category := category_name cat;
          count := Z.of_nat (length categoryIssues);
          max_severity := severity_name maxSeverity;
          score_contribution := Math_round (categoryScore * 10) / 10 |} ],
   totalRawScore + categoryScore).

(** [xs.sort(cmp)] is stable: elements that compare equal keep their
    order.  Insertion from the right gives that order for a comparator
    that is a difference of keys. *)
Fixpoint insert_by {A : Type} (cmp : A -> A -> Q) (x : A) (l : list A) : list A :=
  match l with
  | [] => [x]
  | y :: l' => if Qle_bool (cmp x y) 0 then x :: l else y :: insert_by cmp x l'
  end.

Definition sort_by {A : Type} (cmp : A -> A -> Q) (l : list A) : list A :=
  fold_right (insert_by cmp) [] l.

Definition level_of (finalScore : Q) : RiskLevel :=
  if Qgeb finalScore (RISK_THRESHOLDS risk_critical) then risk_critical
  else if Qgeb finalScore (RISK_THRESHOLDS risk_high) then risk_high
  else if Qgeb finalScore (RISK_THRESHOLDS risk_medium) then risk_medium
  else risk_low.

Definition calculateRiskScore (issues : list Issue) (config : PartialScoreConfig)
  : RiskScoreResult :=
  let cfg_maxExpectedIssues := nullish (maxExpectedIssues config) DEFAULT_maxExpectedIssues in
  let sevWeights := spread SEVERITY_WEIGHTS (severityWeights config) in
  let catWeights := spread CATEGORY_WEIGHTS (categoryWeights config) in
  let categoryGroups := group_by_category issues in
  let '(breakdown0, totalRawScore) :=
    fold_left (category_step sevWeights catWeights) categoryGroups ([], 0) in
  let breakdown :=
    sort_by (fun a b => score_contribution b - score_contribution a) breakdown0 in
  let maxPossibleScore :=
    cfg_maxExpectedIssues * SEVERITY_WEIGHTS critical * CATEGORY_WEIGHTS security in
  let normalizedScore := Math_min 100 ((totalRawScore / maxPossibleScore) * 100) in
  let finalScore := Math_round (Math_min 100 (normalizedScore * (11 # 10))) in
  {| score := Math_min 100 finalScore;
     level := level_of finalScore;
     breakdown := breakdown;
     rawScore := totalRawScore;
     maxPossibleScore := maxPossibleScore |}.

(** [shouldFailCheck(result, threshold = 85, failOnCriticalSecurity = true)];
    an omitted argument is [None]. *)
Definition shouldFailCheck (result : RiskScoreResult) (threshold : option Q)
  (failOnCriticalSecurity : option bool) : bool :=
  let threshold := nullish threshold (RISK_THRESHOLDS risk_critical) in
  let failOnCriticalSecurity := nullish failOnCriticalSecurity true in
  if Qgeb (score result) threshold then true
  else if failOnCriticalSecurity then
    match find (fun b => str_eqb (b_category b) (lit "security")) (breakdown result) with
    | Some securityBreakdown => str_eqb (max_severity securityBreakdown) (lit "critical")
    | None => false
    end
  else false.

Definition getIssueScore (issue : Issue) : Q :=
  SEVERITY_WEIGHTS (severity issue) * confidence issue * CATEGORY_WEIGHTS (category issue).

Definition sortIssuesByPriority (issues : list Issue) : list Issue :=
  sort_by (fun a b => getIssueScore b - getIssueScore a) issues.

End RiskScorer.

(* ================================================================== *)
(** * aggregator.ts *)
(* ================================================================== *)

(** The fields of the worker configuration that the modelled code reads. *)
Record WorkerConfig := {
  maxInlineComments : Z;
  confidenceThreshold : Q;
  enableOsvScan : bool
}.

Module Aggregator.

Import RiskScorer.

Record Stats := {
  totalFound : Z;
  afterDedup : Z;
  afterFiltering : Z;
  selected : Z
}.

Record AggregationResult := {
  inlineComments : list Issue;
  allIssues : list Issue;
  riskScore : RiskScoreResult;
  stats : Stats
}.

Definition createDedupeKey (issue : Issue) : jsstring :=
  file_path issue ++ lit ":" ++ of_Z (line_start issue) ++ lit "-"
    ++ of_Z (line_end issue) ++ lit ":" ++ category_name (category issue)
    ++ lit ":" ++ slice (subtype issue) 0 20.

Definition severityOrder (s : IssueSeverity) : Z :=
  match s with
  | critical => 4
  | high => 3
  | medium => 2
  | low => 1
  end.

Definition shouldReplace (existing newIssue : Issue) : bool :=
  let existingSev := severityOrder (severity existing) in
  let newSev := severityOrder (severity newIssue) in
  if (newSev >? existingSev)%Z then true
  else if (newSev <? existingSev)%Z then false
  else Qgtb (confidence newIssue) (confidence existing).

Definition dedupe_step (seen : OMap.t (K:=jsstring) (V:=Issue)) (issue : Issue) : OMap.t :=
  let key := createDedupeKey issue in
  match OMap.get str_eqb key seen with
  | None => OMap.set str_eqb key issue seen
  | Some existing =>
      if shouldReplace existing issue then OMap.set str_eqb key issue seen
      else seen
  end.

Definition deduplicateIssues (issues : list Issue) : list Issue :=
  OMap.values (fold_left dedupe_step issues OMap.empty).

Definition aggregateIssues (issues : list Issue) (config : WorkerConfig)
  : AggregationResult :=
  let totalFound := len_of issues in
  let deduplicated := deduplicateIssues issues in
  let afterDedup := len_of deduplicated in
  let filtered :=
    filter (fun issue => Qgeb (confidence issue) (confidenceThreshold config))
      deduplicated in
  let afterFiltering := len_of filtered in
  let sorted := sortIssuesByPriority filtered in
  let selected := slice sorted 0 (maxInlineComments config) in
  let riskScore := calculateRiskScore filtered no_config in
  {| inlineComments := selected;
     allIssues := filtered;
     riskScore := riskScore;
     stats := {| totalFound := totalFound;
                 afterDedup := afterDedup;
                 afterFiltering := afterFiltering;
                 selected := len_of selected |} |}.

End Aggregator.

(* ================================================================== *)
(** * middleware/signature.ts *)
(* ================================================================== *)

Module Webhook.

Definition byte := N.

Definition is_high_surrogate (u : code_unit) : bool :=
  ((0xD800 <=? u) && (u <=? 0xDBFF))%N.

Definition is_low_surrogate (u : code_unit) : bool :=
  ((0xDC00 <=? u) && (u <=? 0xDFFF))%N.

Definition replacement : list byte := [0xEF; 0xBF; 0xBD]%N.

(** [Buffer.from(s)]: the UTF-8 encoding of the string.  A surrogate pair
    is one code point of four bytes; a surrogate on its own is encoded as
    U+FFFD. *)
Fixpoint Buffer_from (s : jsstring) : list byte :=
  match s with
  | [] => []
  | u :: rest =>
      if (u <? 0x80)%N then u :: Buffer_from rest
      else if (u <? 0x800)%N then
        [0xC0 + u / 64; 0x80 + u mod 64]%N ++ Buffer_from rest
      else if is_high_surrogate u then
        match rest with
        | l :: rest' =>
            if is_low_surrogate l then
              let cp := (0x10000 + (u - 0xD800) * 0x400 + (l - 0xDC00))%N in
              [0xF0 + cp / 262144; 0x80 + (cp / 4096) mod 64;
               0x80 + (cp / 64) mod 64; 0x80 + cp mod 64]%N
              ++ Buffer_from rest'
            else replacement ++ Buffer_from rest
        | [] => replacement
        end
      else if is_low_surrogate u then replacement ++ Buffer_from rest
      else
        [0xE0 + u / 4096; 0x80 + (u / 64) mod 64; 0x80 + u mod 64]%N
        ++ Buffer_from rest
  end.

Fixpoint bytes_eqb (a b : list byte) : bool :=
  match a, b with
  | [], [] => true
  | x :: a', y :: b' => N.eqb x y && bytes_eqb a' b'
  | _, _ => false
  end.

(** [crypto.timingSafeEqual(a, b)] throws a [RangeError] when the two
    buffers differ in byte length. *)
Definition timingSafeEqual (a b : list byte) : Outcome bool :=
  if Nat.eqb (length a) (length b) then Returns (bytes_eqb a b)
  else Throws RangeError.

Definition hex_digit (d : N) : code_unit :=
  if (d <? 10)%N then (48 + d)%N else (97 + (d - 10))%N.

(** [digest('hex')]: two lowercase hexadecimal digits per byte. *)
Definition hex_byte (b : byte) : jsstring :=
  [hex_digit ((b mod 256) / 16); hex_digit (b mod 16)]%N.

Definition digest_hex (digest : list byte) : jsstring := flat_map hex_byte digest.

(** The response of the middleware: a status with an error body, or the
    call of [next()].  Logging is not modelled. *)
Inductive Handled :=
  | Respond (status : Z) (error : jsstring)
  | Next.

(** [req.headers[name]] is absent, a string, or an array of strings. *)
Inductive HeaderValue :=
  | Undefined
  | Single (v : jsstring)
  | Multiple (vs : list jsstring).

Record Request := {
  x_hub_signature_256 : HeaderValue;
  x_request_id : HeaderValue;
  rawBody : option jsstring
}.

Section WithHmac.
(** [crypto.createHmac('sha256', secret).update(payload).digest()]: the
    HMAC-SHA256 primitive of the platform, as bytes. *)
Variable hmac_sha256 : jsstring -> jsstring -> list byte.

Definition expectedSignature (payload secret : jsstring) : jsstring :=
  lit "sha256=" ++ digest_hex (hmac_sha256 secret payload).

Definition verifySignature (payload signature secret : jsstring) : bool :=
  match timingSafeEqual (Buffer_from signature)
                        (Buffer_from (expectedSignature payload secret)) with
  | Returns b => b
  | Throws _ => false
  end.

Definition signatureMiddleware (webhookSecret : jsstring) (req : Request) : Handled :=
  match x_hub_signature_256 req with
  | Single signature =>
      match rawBody req with
      | Some body =>
          if negb (verifySignature body signature webhookSecret)
          then Respond 401 (lit "Invalid signature")
          else Next
      | None => Respond 500 (lit "Internal server error")
      end
  | _ => Respond 401 (lit "Missing signature header")
  end.
End WithHmac.

End Webhook.

(* ================================================================== *)
(** * tools/osv-scanner.ts *)
(* ================================================================== *)

Module Osv.

Record OsvSeverity := {
  severity_type : jsstring;
  severity_score : jsstring
}.

(** The fields of an OSV vulnerability that the scanner reads. *)
Record OsvVulnerability := {
  vuln_id : jsstring;
  summary : jsstring;
  details : jsstring;
  vuln_severity : option (list OsvSeverity)
}.

Inductive Ecosystem := npm | PyPI | Go.

Record PackageDependency := {
  name : jsstring;
  version : jsstring;
  ecosystem : Ecosystem
}.

(** The value of [parseFloat]. *)
Inductive Number :=
  | NaN
  | Finite (q : Q)
  | PlusInfinity
  | MinusInfinity.

(** [x >= c] for a finite constant [c]. *)
Definition ge_const (x : Number) (c : Q) : bool :=
  match x with
  | NaN => false
  | Finite q => Qle_bool c q
  | PlusInfinity => true
  | MinusInfinity => false
  end.

(** What the [fetch] of one query comes to. *)
Inductive FetchResult :=
  | NetworkError
  | NotOk
  | Json (vulns : option (list OsvVulnerability)).

Section WithServices.
(** The platform and the network, as parameters: [parseFloat], the k-th
    call of [crypto.randomUUID], and the answer to the k-th query. *)
Variable parseFloat : jsstring -> Number.
Variable randomUUID : nat -> jsstring.
Variable fetch_query : nat -> PackageDependency -> FetchResult.
(** The three manifest parsers, which rest on [JSON.parse] and on
    regular expressions over the whole file. *)
Variable parsePackageJson : jsstring -> list PackageDependency.
Variable parseRequirements : jsstring -> list PackageDependency.
Variable parseGoMod : jsstring -> list PackageDependency.

Definition queryOsv (k : nat) (pkg : PackageDependency) : list OsvVulnerability :=
  match fetch_query k pkg with
  | NetworkError => []
  | NotOk => []
  | Json vulns => match vulns with Some vs => vs | None => [] end
  end.

Definition mapOsvSeverity (vuln : OsvVulnerability) : IssueSeverity :=
  match vuln_severity vuln with
  | Some (sev :: _) =>
      let score := parseFloat (severity_score sev) in
      if ge_const score 9 then critical
      else if ge_const score 7 then high
      else if ge_const score 4 then medium
      else low
  | _ => medium
  end.

Definition issue_message (vuln : OsvVulnerability) (dep : PackageDependency)
  : jsstring :=
  lit "**" ++ vuln_id vuln ++ lit "**: " ++ summary vuln ++ lit " ("
    ++ name dep ++ lit "@" ++ version dep ++ lit ")".

(** The inner loop: one issue pushed per vulnerability. *)
Definition push_vuln (lockfilePath : jsstring) (dep : PackageDependency)
  (issues : list Issue) (vuln : OsvVulnerability) : list Issue :=
  issues ++
  [ {| id := randomUUID (length issues);
       category := dependency;
       subtype := lit "cve";
       severity := mapOsvSeverity vuln;
       confidence := 95 # 100;
       file_path := lockfilePath;
       line_start := 1;
       line_end := 1;
       message := issue_message vuln dep;
       evidence := slice (details vuln) 0 200;
       suggested_fix := None;
       patch := None;
       owasp_tag := None;
       cwe := None;
       source_tool := Some (lit "osv");
       is_llm_generated := false |} ].

(** The outer loop, over the queried dependencies with their position. *)
Definition scan_dep (lockfilePath : jsstring) (issues : list Issue)
  (kdep : nat * PackageDependency) : list Issue :=
  let '(k, dep) := kdep in
  fold_left (push_vuln lockfilePath dep) (queryOsv k dep) issues.

Definition numbered {A : Type} (l : list A) : list (nat * A) :=
  combine (seq 0 (length l)) l.

Definition select_deps (lockfileContent lockfilePath : jsstring)
  : list PackageDependency :=
  let filename := last (split_on 47%N lockfilePath) [] in
  if str_eqb filename (lit "package.json")
     || includes filename (lit "package-lock")
     || includes filename (lit "pnpm-lock")
  then parsePackageJson lockfileContent
  else if str_eqb filename (lit "requirements.txt")
          || str_eqb filename (lit "pyproject.toml")
  then parseRequirements lockfileContent
  else if str_eqb filename (lit "go.mod")
  then parseGoMod lockfileContent
  else [].

Definition scanDependencies (lockfileContent lockfilePath : jsstring)
  (config : WorkerConfig) : list Issue :=
  if negb (enableOsvScan config) then []
  else
    let deps := select_deps lockfileContent lockfilePath in
    fold_left (scan_dep lockfilePath) (numbered (slice deps 0 50)) [].
End WithServices.

End Osv.

(* ================================================================== *)
(** * schemas/review-output.ts *)
(* ================================================================== *)

Module ReviewOutputSchema.

Import RiskScorer.

Definition getRiskLevel (score : Q) : RiskLevel :=
  if Qgeb score 85 then risk_critical
  else if Qgeb score 60 then risk_high
  else if Qgeb score 30 then risk_medium
  else risk_low.

End ReviewOutputSchema.

(* ================================================================== *)
(** * file-filters.ts *)
(* ================================================================== *)

Module FileFilters.

Import DiffParser.

Record FilterConfig := {
  excludePatterns : list jsstring;
  includePatterns : list jsstring;
  skipBinary : bool;
  maxLines : Z;
  allowLockfilesForDeps : bool
}.

(** [Partial<FilterConfig>]. *)
Record PartialFilterConfig := {
  p_excludePatterns : option (list jsstring);
  p_includePatterns : option (list jsstring);
  p_skipBinary : option bool;
  p_maxLines : option Z;
  p_allowLockfilesForDeps : option bool
}.

Definition LOCKFILE_PATTERNS : list jsstring :=
  map lit
    [ "package-lock.json"; "pnpm-lock.yaml"; "yarn.lock"; "poetry.lock";
      "Pipfile.lock"; "go.sum"; "Cargo.lock"; "Gemfile.lock"; "composer.lock" ]%string.

Definition DEFAULT_FILTER_CONFIG : FilterConfig :=
  {| excludePatterns :=
       map lit
         [ "*.generated.*"; "*.gen.*"; "*_generated.*"; "*.pb.go"; "*.pb.ts";
           "dist/**"; "build/**"; "out/**"; ".next/**"; ".nuxt/**";
           "node_modules/**"; "vendor/**"; "third_party/**"; ".vendor/**";
           "package-lock.json"; "pnpm-lock.yaml"; "yarn.lock"; "poetry.lock";
           "Pipfile.lock"; "go.sum"; "Cargo.lock"; "Gemfile.lock"; "composer.lock";
           ".idea/**"; ".vscode/**"; "*.min.js"; "*.min.css"; "*.bundle.js";
           "*.bundle.css";
           "*.svg"; "*.png"; "*.jpg"; "*.jpeg"; "*.gif"; "*.ico"; "*.woff";
           "*.woff2"; "*.ttf"; "*.eot";
           "CHANGELOG.md"; "CHANGELOG" ]%string;
     includePatterns := [];
     skipBinary := true;
     maxLines := 1000;
     allowLockfilesForDeps := true |}.

Definition no_overrides : PartialFilterConfig :=
  {| p_excludePatterns := None; p_includePatterns := None; p_skipBinary := None;
     p_maxLines := None; p_allowLockfilesForDeps := None |}.

Definition or_default {A : Type} (o : option A) (d : A) : A :=
  match o with Some v => v | None => d end.

(** [{ ...DEFAULT_FILTER_CONFIG, ...config }]. *)
Definition merge_config (c : PartialFilterConfig) : FilterConfig :=
  {| excludePatterns :=
       or_default (p_excludePatterns c) (excludePatterns DEFAULT_FILTER_CONFIG);
     includePatterns :=
       or_default (p_includePatterns c) (includePatterns DEFAULT_FILTER_CONFIG);
     skipBinary := or_default (p_skipBinary c) (skipBinary DEFAULT_FILTER_CONFIG);
     maxLines := or_default (p_maxLines c) (maxLines DEFAULT_FILTER_CONFIG);
     allowLockfilesForDeps :=
       or_default (p_allowLockfilesForDeps c)
                  (allowLockfilesForDeps DEFAULT_FILTER_CONFIG) |}.

(** [path.replace(/\\/g, '/')]: every backslash becomes a slash. *)
Definition normalize_separators (path : jsstring) : jsstring :=
  map (fun u => if N.eqb u 92 then 47%N else u) path.

Definition isLockfile (filePath : jsstring) : bool :=
  let normalizedPath := normalize_separators filePath in
  let filename := last (split_on 47%N normalizedPath) [] in
  existsb (str_eqb filename) LOCKFILE_PATTERNS.

Record CategorizedFiles := {
  sourceFiles : list DiffFile;
  lockfiles : list DiffFile;
  excluded : list DiffFile
}.

Section WithMatcher.
(** [matchPattern(path, pattern)], which compiles the pattern into a
    regular expression of the platform and tests the path against it:
    taken as a parameter. *)
Variable matchPattern : jsstring -> jsstring -> bool.

Definition shouldExcludeFile (file : DiffFile) (config : PartialFilterConfig) : bool :=
  let cfg := merge_config config in
  let path := getFilePath file in
  if str_eqb path [] then true
  else if skipBinary cfg && isBinary file then true
  else if (linesAdded file + linesRemoved file >? maxLines cfg)%Z then true
  else if existsb (matchPattern path) (includePatterns cfg) then false
  else if existsb (matchPattern path) (excludePatterns cfg) then true
  else false.

Definition filterDiffFiles (files : list DiffFile) (config : PartialFilterConfig)
  : list DiffFile :=
  filter (fun file => negb (shouldExcludeFile file config)) files.

Definition getLockfiles (files : list DiffFile) : list DiffFile :=
  filter (fun file => isLockfile (getFilePath file)) files.

(** The body of the loop of [categorizeFiles]. *)
Definition categorize_step (config : PartialFilterConfig) (result : CategorizedFiles)
  (file : DiffFile) : CategorizedFiles :=
  let cfg := merge_config config in
  let path := getFilePath file in
  if isLockfile path then
    if allowLockfilesForDeps cfg then
      {| sourceFiles := sourceFiles result;
         lockfiles := lockfiles result ++ [file];
         excluded := excluded result |}
    else
      {| sourceFiles := sourceFiles result;
         lockfiles := lockfiles result;
         excluded := excluded result ++ [file] |}
  else if shouldExcludeFile file config then
    {| sourceFiles := sourceFiles result;
       lockfiles := lockfiles result;
       excluded := excluded result ++ [file] |}
  else
    {| sourceFiles := sourceFiles result ++ [file];
       lockfiles := lockfiles result;
       excluded := excluded result |}.

Definition categorizeFiles (files : list DiffFile) (config : PartialFilterConfig)
  : CategorizedFiles :=
  fold_left (categorize_step config) files
    {| sourceFiles := []; lockfiles := []; excluded := [] |}.
End WithMatcher.

End FileFilters.

(* ================================================================== *)
(** * comment-formatter.ts: the executive summary *)
(* ================================================================== *)

Module ExecutiveSummary.

Import RiskScorer Formatter.

Definition line_feed : jsstring := lit (String "010" EmptyString).

(** The bullet character U+2022. *)
Definition bullet : jsstring := [0x2022]%N.

(** [severityCounts.set(issue.severity, (severityCounts.get(issue.severity) ?? 0) + 1)]. *)
Definition count_step (severityCounts : OMap.t (K:=jsstring) (V:=Z)) (issue : Issue)
  : OMap.t :=
  let key := severity_name (severity issue) in
  OMap.set str_eqb key (nullish (OMap.get str_eqb key severityCounts) 0 + 1)%Z
           severityCounts.

Definition severity_part (entry : jsstring * Z) : list jsstring :=
  let '(sev, cnt) := entry in
  if (cnt >? 0)%Z then [of_Z cnt ++ lit " " ++ sev] else [].

Definition found_bullet (issues : list Issue) : jsstring :=
  let severityCounts := fold_left count_step issues OMap.empty in
  let severityParts := flat_map severity_part severityCounts in
  bullet ++ lit " Found " ++ of_Z (len_of issues) ++ lit " issue(s): "
    ++ join (lit ", ") severityParts.

Definition issue_bullet (issue : Issue) : jsstring :=
  SEVERITY_BADGES (severity issue) ++ lit " " ++ truncateText (message issue) 120.

Definition more_bullet (issues : list Issue) (maxBullets : Z) : jsstring :=
  bullet ++ lit " ...and " ++ of_Z (len_of issues - maxBullets + 1)
    ++ lit " more issue(s)".

(** [createExecutiveSummary(issues, maxBullets = 6)]; an omitted second
    argument is [None]. *)
Definition createExecutiveSummary (issues : list Issue) (maxBullets : option Z)
  : jsstring :=
  let maxBullets := nullish maxBullets 6%Z in
  if (len_of issues =? 0)%Z then
    bullet ++ lit " No significant issues found in this PR."
  else
    let bullets := [found_bullet issues] in
    let topIssues := slice issues 0 (maxBullets - 1) in
    let bullets := bullets ++ map issue_bullet topIssues in
    let bullets :=
      if (len_of issues >? maxBullets)%Z
      then bullets ++ [more_bullet issues maxBullets]
      else bullets in
    join line_feed (slice bullets 0 maxBullets).

End ExecutiveSummary.

(* ================================================================== *)
(** * index.ts of the core package *)
(* ================================================================== *)

(** The package exports the [createExecutiveSummary] that it declares
    itself, which takes the place of the one of comment-formatter.ts for
    the importers of the package. *)
Module CoreIndex.

Import RiskScorer.

Definition line_feed : jsstring := lit (String "010" EmptyString).

Definition bullet : jsstring := [0x2022]%N.

Definition severityEmoji (s : IssueSeverity) : jsstring :=
  match s with
  | critical => [0xD83D; 0xDD34]
  | high => [0xD83D; 0xDFE0]
  | medium => [0xD83D; 0xDFE1]
  | low => [0xD83D; 0xDD35]
  end%N.

(** [bySeverity[issue.severity] = (bySeverity[issue.severity] ?? 0) + 1]
    on an object whose keys are the names of the severities, enumerated
    in the order of their creation. *)
Definition tally_step (bySeverity : OMap.t (K:=jsstring) (V:=Z)) (issue : Issue)
  : OMap.t :=
  let key := severity_name (severity issue) in
  OMap.set str_eqb key (nullish (OMap.get str_eqb key bySeverity) 0 + 1)%Z
           bySeverity.

Definition summary_line (issues : list Issue) : jsstring :=
  let bySeverity := fold_left tally_step issues OMap.empty in
  let counts :=
    join (lit ", ")
         (map (fun entry : jsstring * Z =>
                 let '(sev, cnt) := entry in of_Z cnt ++ lit " " ++ sev)
              bySeverity) in
  bullet ++ lit " Found " ++ of_Z (len_of issues) ++ lit " issue(s): " ++ counts.

Definition issue_line (issue : Issue) : jsstring :=
  let emoji := severityEmoji (severity issue) in
  let path := last (split_on 47%N (file_path issue)) [] in
  emoji ++ lit " " ++ path ++ lit ":" ++ of_Z (line_start issue) ++ lit " - "
    ++ slice (message issue) 0 60 ++ lit "...".

Definition createExecutiveSummary (issues : list Issue) : jsstring :=
  if (len_of issues =? 0)%Z then
    bullet ++ lit " No issues found - all changes look good!"
  else
    let sorted := sortIssuesByPriority issues in
    let parts := [summary_line issues] ++ map issue_line (slice sorted 0 5) in
    join line_feed parts.

End CoreIndex.

(* ================================================================== *)
(** * github/review-poster.ts and the review output of the orchestrator *)
(* ================================================================== *)

Module Poster.

Import RiskScorer Formatter Aggregator.

(** The fields of [ReviewOutput] that the orchestrator computes from the
    parsed diff and the aggregation. *)
Record ReviewOutput := {
  risk_score : Q;
  risk_level : RiskLevel;
  inline_comments : list Issue;
  exec_summary_eli2 : jsstring;
  files_changed : Z;
  issues_found : Z;
  lines_added : Z;
  lines_removed : Z;
  category_breakdown : list CategoryBreakdown
}.

(** Step 9 of [runReview]. *)
Definition build_output (parsedDiff : DiffParser.ParsedDiff)
  (aggregated : AggregationResult) : ReviewOutput :=
  {| risk_score := score (riskScore aggregated);
     risk_level := level (riskScore aggregated);
     inline_comments := inlineComments aggregated;
     exec_summary_eli2 := CoreIndex.createExecutiveSummary (allIssues aggregated);
     files_changed := DiffParser.totalFilesChanged parsedDiff;
     issues_found := len_of (allIssues aggregated);
     lines_added := DiffParser.totalLinesAdded parsedDiff;
     lines_removed := DiffParser.totalLinesRemoved parsedDiff;
     category_breakdown := breakdown (riskScore aggregated) |}.

(** A review comment; its [side] is always ['RIGHT']. *)
Record ReviewComment := {
  path : jsstring;
  line : Z;
  body : jsstring
}.

Definition createReviewComments (issues : list Issue) : list ReviewComment :=
  map (fun issue =>
         {| path := file_path issue;
            line := line_end issue;
            body := formatInlineComment issue no_overrides |})
      issues.

Inductive ReviewEvent := APPROVE | COMMENT | REQUEST_CHANGES.

(** What [postReview] passes to [pulls.createReview] as [event] and as
    [comments]; an [undefined] list of comments is [None]. *)
Record ReviewRequest := {
  event : ReviewEvent;
  comments : option (list ReviewComment)
}.

Definition is_critical (l : RiskLevel) : bool :=
  match l with risk_critical => true | _ => false end.

Definition postReview (review : ReviewOutput) : ReviewRequest :=
  let comments := createReviewComments (inline_comments review) in
  let event :=
    if is_critical (risk_level review) then REQUEST_CHANGES
    else if Qltb (risk_score review) 10
            && (len_of (inline_comments review) =? 0)%Z
    then APPROVE
    else COMMENT in
  {| event := event;
     comments := if (len_of comments >? 0)%Z then Some comments else None |}.

End Poster.


(* ================================================================== *)
(** * routes/webhook.ts *)
(* ================================================================== *)

Module Routes.

Import Webhook.

(** The values of a parsed JSON body, and [undefined].  An object holds
    its own properties, each key once. *)
#[warnings="-register-all"] Inductive Value :=
  | VUndefined
  | VNull
  | VBoolean (b : bool)
  | VNumber (n : Osv.Number)
  | VString (s : jsstring)
  | VArray (items : list Value)
  | VObject (properties : list (jsstring * Value)).

Inductive TypeName := t_undefined | t_object | t_boolean | t_number | t_string.

Definition typeof (v : Value) : TypeName :=
  match v with
  | VUndefined => t_undefined
  | VNull | VArray _ | VObject _ => t_object
  | VBoolean _ => t_boolean
  | VNumber _ => t_number
  | VString _ => t_string
  end.

Definition is_string (v : Value) : bool :=
  match v with VString _ => true | _ => false end.

Definition is_number (v : Value) : bool :=
  match v with VNumber _ => true | _ => false end.

(** [typeof v === 'object' && v !== null]. *)
Definition is_object (v : Value) : bool :=
  match v with VArray _ | VObject _ => true | _ => false end.

Definition is_undefined (v : Value) : bool :=
  match v with VUndefined => true | _ => false end.

Definition is_nullish (v : Value) : bool :=
  match v with VUndefined | VNull => true | _ => false end.

(** The truth value of a condition. *)
Definition truthy (v : Value) : bool :=
  match v with
  | VUndefined | VNull => false
  | VBoolean b => b
  | VNumber Osv.NaN => false
  | VNumber (Osv.Finite q) => negb (Qeq_bool q 0)
  | VNumber _ => true
  | VString s => negb (str_eqb s [])
  | VArray _ | VObject _ => true
  end.

(** [v[key]] on a value that is neither [null] nor [undefined], for the
    keys that the handler reads: none of them is a property of strings,
    of arrays or of a prototype, so that only an object has a value for
    them. *)
Definition prop (v : Value) (key : string) : Value :=
  match v with
  | VObject properties =>
      match OMap.get str_eqb (lit key) properties with
      | Some x => x
      | None => VUndefined
      end
  | _ => VUndefined
  end.

(** A handler completes with a value or throws a [TypeError]. *)
Inductive Completion (A : Type) :=
  | Normal (a : A)
  | TypeError.
Arguments Normal {A} a.
Arguments TypeError {A}.

(** [v.key], which throws on [null] and [undefined]. *)
Definition member (v : Value) (key : string) : Completion Value :=
  if is_nullish v then TypeError else Normal (prop v key).

(** [v?.key]. *)
Definition optional_member (v : Value) (key : string) : Value :=
  if is_nullish v then VUndefined else prop v key.

Definition SUPPORTED_ACTIONS : list jsstring :=
  map lit ["opened"; "synchronize"; "reopened"; "ready_for_review"]%string.

Definition isValidPRPayload (body : Value) : bool :=
  if negb (is_object body) then false
  else
    is_string (prop body "action")
    && is_number (prop body "number")
    && is_object (prop body "pull_request")
    && is_object (prop body "repository").

(** The request as the handler reads it: [requestId] is the field set by
    the request-id middleware, if any. *)
Record RouteRequest := {
  x_github_event : HeaderValue;
  requestId : option jsstring;
  body : Value
}.

Record ReviewJob := {
  job_id : jsstring;
  owner : Value;
  repo : Value;
  prNumber : Value;
  sha : Value;
  installationId : Value;
  action : jsstring;
  createdAt : jsstring;
  job_requestId : jsstring
}.

(** [res.status(status).json(json)]; every property of the bodies sent
    is a string. *)
Record Reply := {
  status : Z;
  json : list (jsstring * jsstring)
}.

Definition ignored (reason : jsstring) : Reply :=
  {| status := 200; json := [(lit "status", lit "ignored"); (lit "reason", reason)] |}.

Definition failed (status : Z) (error : jsstring) : Reply :=
  {| status := status; json := [(lit "error", error)] |}.

Definition getRequestId (req : RouteRequest) : jsstring :=
  match requestId req with Some r => r | None => lit "unknown" end.

(** [payload.action], a string once the payload is validated. *)
Definition action_of (payload : Value) : jsstring :=
  match prop payload "action" with VString a => a | _ => [] end.

Section WithPlatform.
(** [uuidv4()] and [new Date().toISOString()] at the time of the request. *)
Variable uuidv4 : jsstring.
Variable now : jsstring.

(** The handler of [POST /]: the reply it sends and the job that it hands
    to the queue, if any. *)
Definition handler (req : RouteRequest) : Completion (Reply * option ReviewJob) :=
  let requestId := getRequestId req in
  let is_pull_request :=
    match x_github_event req with
    | Single event => str_eqb event (lit "pull_request")
    | _ => false
    end in
  if negb is_pull_request then
    Normal (ignored (lit "not a pull_request event"), None)
  else if negb (isValidPRPayload (body req)) then
    Normal (failed 400 (lit "Invalid payload"), None)
  else
    let payload := body req in
    if negb (existsb (str_eqb (action_of payload)) SUPPORTED_ACTIONS) then
      Normal (ignored (lit "unsupported action: " ++ action_of payload), None)
    else if truthy (prop (prop payload "pull_request") "draft") then
      Normal (ignored (lit "draft PR"), None)
    else if is_undefined (optional_member (prop payload "installation") "id") then
      Normal (failed 400 (lit "Missing installation ID"), None)
    else
      match member (prop (prop payload "repository") "owner") "login" with
      | TypeError => TypeError
      | Normal login =>
          match member (prop (prop payload "pull_request") "head") "sha" with
          | TypeError => TypeError
          | Normal head_sha =>
              let job :=
                {| job_id := uuidv4;
                   owner := login;
                   repo := prop (prop payload "repository") "name";
                   prNumber := prop payload "number";
                   sha := head_sha;
                   installationId := prop (prop payload "installation") "id";
                   action := action_of payload;
                   createdAt := now;
                   job_requestId := requestId |} in
              Normal ({| status := 202;
                         json := [(lit "status", lit "accepted");
                                  (lit "jobId", job_id job);
                                  (lit "message", lit "Review job queued")] |},
                      Some job)
          end
      end.

(** [crypto.createHmac] and [JSON.parse], which throws on a text that is
    no JSON ([None]). *)
Variable hmac_sha256 : jsstring -> jsstring -> list byte.
Variable JSON_parse : jsstring -> option Value.

(** What arrives at the router: the headers that are read, the field of
    the request-id middleware, and the text of the body. *)
Record Incoming := {
  signature_header : HeaderValue;
  request_id_header : HeaderValue;
  event_header : HeaderValue;
  request_id : option jsstring;
  data : jsstring
}.

(** [POST /] through the router: [rawBodyMiddleware], then
    [signatureMiddleware(config.githubWebhookSecret)], then the handler. *)
Definition post (githubWebhookSecret : jsstring) (incoming : Incoming)
  : Completion (Reply * option ReviewJob) :=
  let rawBody := data incoming in
  let body :=
    match JSON_parse (data incoming) with
    | Some v => v
    | None => VObject []
    end in
  match signatureMiddleware hmac_sha256 githubWebhookSecret
          {| x_hub_signature_256 := signature_header incoming;
             x_request_id := request_id_header incoming;
             Webhook.rawBody := Some rawBody |} with
  | Respond status error => Normal (failed status error, None)
  | Next =>
      handler {| x_github_event := event_header incoming;
                 requestId := request_id incoming;
                 body := body |}
  end.
End WithPlatform.

End Routes.


(* ================================================================== *)
(** * rag/context-retriever.ts *)
(* ================================================================== *)

Module Rag.

Record RepoContext := {
  readme : option jsstring;
  contributing : option jsstring;
  lintConfig : option jsstring;
  relevantDocs : list jsstring
}.

Definition LINT_CONFIG_FILES : list jsstring :=
  map lit [".eslintrc.js"; ".eslintrc.json"; "eslint.config.js";
           "pyproject.toml"; "ruff.toml"; ".golangci.yml"]%string.

Definition truncation_mark : jsstring :=
  lit (String "010" "... (truncated)").

Definition truncateContext (content : jsstring) (maxLength : Z) : jsstring :=
  if (len content <=? maxLength)%Z then content
  else slice content 0 maxLength ++ truncation_mark.

(** The outcome of awaiting a promise. *)
Inductive Awaited (A : Type) :=
  | Resolved (a : A)
  | Rejected.
Arguments Resolved {A} a.
Arguments Rejected {A}.

Section WithGitHub.
(** [fetchFileContent(owner, repo, file, ref, installationId, config)] for
    the repository and the commit at hand, by the path of the file: the
    content, [null] when there is none, or a rejection when no client
    could be made. *)
Variable fetchFileContent : jsstring -> Awaited (option jsstring).

(** The loop over candidate files: the first content found is truncated
    and kept. *)
Fixpoint first_found (files : list jsstring) (maxLength : Z)
  : Awaited (option jsstring) :=
  match files with
  | [] => Resolved None
  | file :: rest =>
      match fetchFileContent file with
      | Rejected => Rejected
      | Resolved (Some content) => Resolved (Some (truncateContext content maxLength))
      | Resolved None => first_found rest maxLength
      end
  end.

Definition retrieveRepoContext : Awaited RepoContext :=
  match first_found (map lit ["README.md"; "README"]%string) 2000 with
  | Rejected => Rejected
  | Resolved readme =>
      match first_found (map lit ["CONTRIBUTING.md"; "CONTRIBUTING"]%string) 1000 with
      | Rejected => Rejected
      | Resolved contributing =>
          match first_found LINT_CONFIG_FILES 500 with
          | Rejected => Rejected
          | Resolved lintConfig =>
              Resolved {| readme := readme;
                          contributing := contributing;
                          lintConfig := lintConfig;
                          relevantDocs := [] |}
          end
      end
  end.
End WithGitHub.

Definition line_feed : jsstring := lit (String "010" EmptyString).

Definition readme_parts (context : RepoContext) : list jsstring :=
  match readme context with
  | Some text => [lit "## Project Overview (from README)"; text; []]
  | None => []
  end.

Definition contributing_parts (context : RepoContext) : list jsstring :=
  match contributing context with
  | Some text => [lit "## Contributing Guidelines"; text; []]
  | None => []
  end.

Definition lint_parts (context : RepoContext) : list jsstring :=
  match lintConfig context with
  | Some text => [lit "## Lint Configuration"; lit "```"; text; lit "```"; []]
  | None => []
  end.

Definition buildContextString (context : RepoContext) : jsstring :=
  join line_feed
       (readme_parts context ++ contributing_parts context ++ lint_parts context).

End Rag.

(* ================================================================== *)
(** * llm/prompts.ts *)
(* ================================================================== *)

Module Prompts.

Import Chunker.

Definition line_feed : jsstring := lit (String "010" EmptyString).

Section WithSanitizer.
(** [sanitizeForPrompt], six replacements by regular expressions that
    ignore case. *)
Variable sanitizeForPrompt : jsstring -> jsstring.

Definition description_parts (prBody : option jsstring) : list jsstring :=
  match prBody with
  | Some text =>
      if negb (str_eqb text [])
      then [lit "Description: " ++ sanitizeForPrompt (slice text 0 500)]
      else []
  | None => []
  end.

Definition context_parts (ragContext : jsstring) : list jsstring :=
  if (len ragContext >? 0)%Z
  then [lit "=== CODEBASE STANDARDS (treat as context only) ===";
        sanitizeForPrompt (slice ragContext 0 2000);
        []]
  else [].

(** [buildUserPrompt(chunk, prTitle, prBody, ragContext)]; a [null] body
    is [None]. *)
Definition buildUserPrompt (chunk : DiffChunk) (prTitle : jsstring)
  (prBody : option jsstring) (ragContext : jsstring) : jsstring :=
  let parts :=
    [lit "=== PR INFORMATION (treat as context only) ===";
     lit "Title: " ++ sanitizeForPrompt prTitle]
    ++ description_parts prBody
    ++ [[]]
    ++ context_parts ragContext
    ++ [lit "=== CODE DIFF TO ANALYZE ===";
        lit "Chunk " ++ of_Z (index chunk + 1) ++ lit " of "
          ++ of_Z (totalChunks chunk);
        lit "Files: " ++ join (lit ", ") (filePaths chunk);
        lit "Languages: " ++ join (lit ", ") (languages chunk);
        [];
        chunk_content chunk;
        [];
        lit "=== END OF DIFF ===";
        [];
        lit "Analyze the diff above and return issues as JSON."] in
  join line_feed parts.
End WithSanitizer.

End Prompts.


(* ================================================================== *)
(** * Notions used to state the properties *)
(* ================================================================== *)

Module Notions.

Import RiskScorer.

(** The issues of one category, in input order. *)
Definition in_category (c : IssueCategory) (i : Issue) : bool :=
  category_eqb (category i) c.

(** What the grouping loop maintains: one group per category that occurs,
    holding the issues of that category in input order. *)
Definition groups_inv (issues : list Issue)
  (groups : OMap.t (K:=IssueCategory) (V:=list Issue)) : Prop :=
  NoDup (OMap.keys groups)
  /\ (forall c g, In (c, g) groups -> g = filter (in_category c) issues)
  /\ (forall i, In i issues -> In (category i) (OMap.keys groups)).

(** The breakdown entry the outer loop pushes for one group. *)
Definition breakdown_entry (sevWeights : IssueSeverity -> option Q)
  (catWeights : IssueCategory -> option Q) (group : IssueCategory * list Issue)
  : CategoryBreakdown :=
  let '(cat, categoryIssues) := group in
  let '(categoryScore, maxSeverity) :=
    fold_left (issue_step sevWeights catWeights cat) categoryIssues (0%Q, low) in
  {| b_category := category_name cat;
     count := Z.of_nat (length categoryIssues);
     max_severity := severity_name maxSeverity;
     score_contribution := (Math_round (categoryScore * 10) / 10)%Q |}.

(** The contribution of one issue to the raw score. *)
Definition issue_weight (sevWeights : IssueSeverity -> option Q)
  (catWeights : IssueCategory -> option Q) (cat : IssueCategory) (i : Issue) : Q :=
  (nullish (sevWeights (severity i)) 1 * confidence i * nullish (catWeights cat) 1)%Q.

Fixpoint sumQ {A : Type} (f : A -> Q) (l : list A) : Q :=
  match l with
  | [] => 0%Q
  | x :: l' => (f x + sumQ f l')%Q
  end.

Definition groups_total (sevWeights : IssueSeverity -> option Q)
  (catWeights : IssueCategory -> option Q)
  (groups : OMap.t (K:=IssueCategory) (V:=list Issue)) : Q :=
  sumQ (fun group => sumQ (issue_weight sevWeights catWeights (fst group)) (snd group))
       groups.

(** The final score as a function of the raw score. *)
Definition score_of_raw (maxPossibleScore totalRawScore : Q) : Q :=
  let normalizedScore :=
    Math_min 100 ((totalRawScore / maxPossibleScore) * 100)%Q in
  let finalScore := Math_round (Math_min 100 (normalizedScore * (11 # 10))%Q) in
  Math_min 100 finalScore.

Definition confidence_in_range (i : Issue) : Prop :=
  (0 <= confidence i /\ confidence i <= 1)%Q.

(** What the deduplication loop maintains: distinct keys, each the key of
    the issue stored under it. *)
Definition seen_inv (seen : OMap.t (K:=jsstring) (V:=Issue)) : Prop :=
  NoDup (OMap.keys seen)
  /\ (forall k v, In (k, v) seen -> k = Aggregator.createDedupeKey v).

Definition keyed (i : Issue) : jsstring * Issue := (Aggregator.createDedupeKey i, i).

(** The files the chunker has placed so far: those of the finished
    chunks, then the current batch. *)
Definition placed (st : Chunker.State) : list DiffParser.DiffFile :=
  concat (map Chunker.chunk_files (Chunker.chunks st)) ++ Chunker.currentFiles st.

(** The token estimate of one file, on its own formatted text, as the
    loop of [chunkDiff] computes it. *)
Definition file_tokens (f : DiffParser.DiffFile) : Z :=
  Chunker.estimateTokens (Chunker.formatDiffFileForLLM f).

Fixpoint sum_tokens (fs : list DiffParser.DiffFile) : Z :=
  match fs with
  | [] => 0%Z
  | f :: fs' => (file_tokens f + sum_tokens fs')%Z
  end.

(** What the budget check of the loop guarantees for a batch of files. *)
Definition within_budget (cfg : Chunker.ChunkConfig) (fs : list DiffParser.DiffFile)
  : Prop :=
  (length fs <= 1)%nat \/ (sum_tokens fs <= Chunker.maxTokens cfg)%Z.

Definition chunk_ok (cfg : Chunker.ChunkConfig) (c : Chunker.DiffChunk) : Prop :=
  within_budget cfg (Chunker.chunk_files c)
  /\ Chunker.chunk_files c <> []
  /\ Chunker.chunk_content c
     = join Chunker.paragraph_break
         (map Chunker.formatDiffFileForLLM (Chunker.chunk_files c))
  /\ Chunker.estimatedTokens c = Chunker.estimateTokens (Chunker.chunk_content c).

Definition chunker_inv (cfg : Chunker.ChunkConfig) (st : Chunker.State) : Prop :=
  Forall (chunk_ok cfg) (Chunker.chunks st)
  /\ Chunker.currentContent st
     = map Chunker.formatDiffFileForLLM (Chunker.currentFiles st)
  /\ Chunker.currentTokens st = sum_tokens (Chunker.currentFiles st)
  /\ within_budget cfg (Chunker.currentFiles st).

(** The total length of a list of strings. *)
Fixpoint total_len (parts : list jsstring) : Z :=
  match parts with
  | [] => 0%Z
  | p :: rest => (len p + total_len rest)%Z
  end.

(** Descending order of priority. *)
Definition by_priority (a b : Issue) : Prop :=
  (RiskScorer.getIssueScore b <= RiskScorer.getIssueScore a)%Q.

(** A hunk header occurs on a line before any file header. *)
Fixpoint hunk_before_file_header (lines : list jsstring) : bool :=
  match lines with
  | [] => false
  | line :: rest =>
      if DiffParser.is_some (DiffParser.DIFF_HEADER_REGEX line) then false
      else if DiffParser.is_some (DiffParser.HUNK_HEADER_REGEX line) then true
      else hunk_before_file_header rest
  end.

(** The message format in the words of the specification:
    [<VULN-ID>: <summary> (<name>@<version>)]. *)
Definition spec_issue_message (vuln : Osv.OsvVulnerability)
  (dep : Osv.PackageDependency) : jsstring :=
  Osv.vuln_id vuln ++ lit ": " ++ Osv.summary vuln ++ lit " ("
    ++ Osv.name dep ++ lit "@" ++ Osv.version dep ++ lit ")".

(** A code unit, or a byte, of the ASCII range. *)
Definition is_ascii (u : N) : Prop := (u < 0x80)%N.

(** The failure condition in the words of the specification. *)
Definition fails_exactly_on_early_hunk (diffContent : jsstring) : Prop :=
  DiffParser.parseDiff diffContent = Throws MalformedDiff
  <-> hunk_before_file_header (split_on 10%N diffContent) = true.

(** The dependencies that are queried, each with a vulnerability that the
    service returned for it, in the order of the two loops. *)
Definition queried (fetch_query : nat -> Osv.PackageDependency -> Osv.FetchResult)
  (deps : list Osv.PackageDependency)
  : list (Osv.PackageDependency * Osv.OsvVulnerability) :=
  flat_map (fun kdep => map (pair (snd kdep)) (Osv.queryOsv fetch_query (fst kdep) (snd kdep)))
           (Osv.numbered (firstn 50 deps)).

(** The first CVSS-like score of a vulnerability, when there is one. *)
Definition first_score (vuln : Osv.OsvVulnerability) : option jsstring :=
  match Osv.vuln_severity vuln with
  | Some (sev :: _) => Some (Osv.severity_score sev)
  | _ => None
  end.

(** The severity that belongs to a parsed score. *)
Definition severity_of_score (x : Osv.Number) (s : IssueSeverity) : Prop :=
  match x with
  | Osv.NaN => s = low
  | Osv.MinusInfinity => s = low
  | Osv.PlusInfinity => s = critical
  | Osv.Finite q =>
      ((9 <= q)%Q -> s = critical)
      /\ ((7 <= q)%Q -> (q < 9)%Q -> s = high)
      /\ ((4 <= q)%Q -> (q < 7)%Q -> s = medium)
      /\ ((q < 4)%Q -> s = low)
  end.

(** The issue reported for one vulnerability of one dependency. *)
Definition reports (parseFloat : jsstring -> Osv.Number) (lockfilePath : jsstring)
  (message_of : Osv.OsvVulnerability -> Osv.PackageDependency -> jsstring)
  (issue : Issue) (found : Osv.PackageDependency * Osv.OsvVulnerability) : Prop :=
  let '(dep, vuln) := found in
  category issue = dependency
  /\ confidence issue = (95 # 100)%Q
  /\ line_start issue = 1%Z /\ line_end issue = 1%Z
  /\ file_path issue = lockfilePath
  /\ evidence issue = firstn 200 (Osv.details vuln)
  /\ message issue = message_of vuln dep
  /\ match first_score vuln with
     | Some score => severity_of_score (parseFloat score) (severity issue)
     | None => severity issue = medium
     end.

Definition has_critical_security (issues : list Issue) : Prop :=
  exists i, In i issues /\ category i = security /\ severity i = critical.

(** The distinct elements of a list of keys, in the order of their first
    occurrence. *)
Definition add_key (acc : list jsstring) (k : jsstring) : list jsstring :=
  if existsb (str_eqb k) acc then acc else acc ++ [k].

Definition first_occurrences (keys : list jsstring) : list jsstring :=
  fold_left add_key keys [].

(** What the deduplication loop maintains about the issues it has seen:
    each has an entry under its key, holding an issue it would not
    replace. *)
Definition represented (seen : OMap.t (K:=jsstring) (V:=Issue)) (i : Issue) : Prop :=
  exists o, In (Aggregator.createDedupeKey i, o) seen
            /\ Aggregator.shouldReplace o i = false.

(** The number of issues counted by a breakdown. *)
Fixpoint total_count (bs : list RiskScorer.CategoryBreakdown) : Z :=
  match bs with
  | [] => 0%Z
  | b :: bs' => (RiskScorer.count b + total_count bs')%Z
  end.

Fixpoint groups_size (groups : OMap.t (K:=IssueCategory) (V:=list Issue)) : Z :=
  match groups with
  | [] => 0%Z
  | (_, g) :: groups' => (Z.of_nat (length g) + groups_size groups')%Z
  end.

(** Descending order of score contribution. *)
Definition by_contribution (a b : RiskScorer.CategoryBreakdown) : Prop :=
  (RiskScorer.score_contribution b <= RiskScorer.score_contribution a)%Q.

(** The number of issues of a category. *)
Definition issues_in (c : IssueCategory) (issues : list Issue) : Z :=
  Z.of_nat (length (filter (in_category c) issues)).

(** The positions [0, 1, ..., n-1] as numbers. *)
Definition positions (n : nat) : list Z := map Z.of_nat (seq 0 n).

(** The most files [chunkDiff] puts in one chunk. *)
Definition file_cap (cfg : Chunker.ChunkConfig) : Z :=
  Z.max 1 (Chunker.maxFilesPerChunk cfg).

Definition chunk_shape_ok (cfg : Chunker.ChunkConfig) (c : Chunker.DiffChunk) : Prop :=
  Chunker.filePaths c = map DiffParser.getFilePath (Chunker.chunk_files c)
  /\ (len_of (Chunker.chunk_files c) <= file_cap cfg)%Z.

Definition chunker_shape (cfg : Chunker.ChunkConfig) (st : Chunker.State) : Prop :=
  map Chunker.index (Chunker.chunks st) = positions (length (Chunker.chunks st))
  /\ Forall (chunk_shape_ok cfg) (Chunker.chunks st)
  /\ (len_of (Chunker.currentFiles st) <= file_cap cfg)%Z.

(** The number of lines that the hunks record, taken by [sel]. *)
Fixpoint hunk_total (sel : DiffParser.DiffHunk -> list DiffParser.LineRef)
  (hs : list DiffParser.DiffHunk) : Z :=
  match hs with
  | [] => 0%Z
  | h :: hs' => (len_of (sel h) + hunk_total sel hs')%Z
  end.

(** Line numbers that increase strictly and start at [start] or later. *)
Definition numbered_from (start : Z) (ls : list DiffParser.LineRef) : Prop :=
  StronglySorted Z.lt (map DiffParser.lineNumber ls)
  /\ Forall (fun n => (start <= n)%Z) (map DiffParser.lineNumber ls).

Definition hunk_numbered (h : DiffParser.DiffHunk) : Prop :=
  numbered_from (DiffParser.newStart h) (DiffParser.addedLines h)
  /\ numbered_from (DiffParser.oldStart h) (DiffParser.removedLines h).

Definition file_counted (f : DiffParser.DiffFile) : Prop :=
  DiffParser.linesAdded f = hunk_total DiffParser.addedLines (DiffParser.hunks f)
  /\ DiffParser.linesRemoved f = hunk_total DiffParser.removedLines (DiffParser.hunks f)
  /\ Forall hunk_numbered (DiffParser.hunks f).

(** The hunk under construction: its lines are numbered below the two
    running line numbers. *)
Definition open_hunk (st : DiffParser.State) (h : DiffParser.DiffHunk) : Prop :=
  hunk_numbered h
  /\ Forall (fun n => (n < DiffParser.newLineNum st)%Z)
            (map DiffParser.lineNumber (DiffParser.addedLines h))
  /\ Forall (fun n => (n < DiffParser.oldLineNum st)%Z)
            (map DiffParser.lineNumber (DiffParser.removedLines h))
  /\ (DiffParser.newStart h <= DiffParser.newLineNum st)%Z
  /\ (DiffParser.oldStart h <= DiffParser.oldLineNum st)%Z.

Definition parser_inv (st : DiffParser.State) : Prop :=
  Forall file_counted (DiffParser.st_files st)
  /\ match DiffParser.currentFile st, DiffParser.currentHunk st with
     | None, None => True
     | None, Some _ => False
     | Some f, None => file_counted f
     | Some f, Some h =>
         DiffParser.linesAdded f
         = (hunk_total DiffParser.addedLines (DiffParser.hunks f)
            + len_of (DiffParser.addedLines h))%Z
         /\ DiffParser.linesRemoved f
            = (hunk_total DiffParser.removedLines (DiffParser.hunks f)
               + len_of (DiffParser.removedLines h))%Z
         /\ Forall hunk_numbered (DiffParser.hunks f)
         /\ open_hunk st h
     end.

(** The lines of a diff that start a file. *)
Definition header_lines (lines : list jsstring) : list jsstring :=
  filter (fun line => DiffParser.is_some (DiffParser.DIFF_HEADER_REGEX line)) lines.

(** The files under construction or finished. *)
Definition files_so_far (st : DiffParser.State) : nat :=
  (length (DiffParser.st_files st)
   + match DiffParser.currentFile st with Some _ => 1 | None => 0 end)%nat.

(** The files of the parse of a list of lines. *)
Definition parsed_files (lines : list jsstring) : list DiffParser.DiffFile :=
  match DiffParser.parse_lines lines with
  | Returns d => DiffParser.files d
  | Throws _ => []
  end.

(** A parser state with files placed before its own, and one with other
    running line numbers. *)
Definition with_files (F : list DiffParser.DiffFile) (st : DiffParser.State)
  : DiffParser.State :=
  {| DiffParser.st_files := F ++ DiffParser.st_files st;
     DiffParser.currentFile := DiffParser.currentFile st;
     DiffParser.currentHunk := DiffParser.currentHunk st;
     DiffParser.oldLineNum := DiffParser.oldLineNum st;
     DiffParser.newLineNum := DiffParser.newLineNum st;
     DiffParser.hunkContent := DiffParser.hunkContent st |}.

Definition with_numbers (o n : Z) (st : DiffParser.State) : DiffParser.State :=
  {| DiffParser.st_files := DiffParser.st_files st;
     DiffParser.currentFile := DiffParser.currentFile st;
     DiffParser.currentHunk := DiffParser.currentHunk st;
     DiffParser.oldLineNum := o;
     DiffParser.newLineNum := n;
     DiffParser.hunkContent := DiffParser.hunkContent st |}.

(** The three lists of a categorization, one after the other. *)
Definition all_categorized (r : FileFilters.CategorizedFiles)
  : list DiffParser.DiffFile :=
  FileFilters.sourceFiles r ++ FileFilters.lockfiles r ++ FileFilters.excluded r.

Definition is_lockfile (f : DiffParser.DiffFile) : bool :=
  FileFilters.isLockfile (DiffParser.getFilePath f).

(** The number of issues of a list whose severity has the given name. *)
Definition with_severity (name : jsstring) (issues : list Issue) : Z :=
  len_of (filter (fun i => str_eqb (severity_name (severity i)) name) issues).

(** The names of the severities of a list of issues, each once, in the
    order of their first occurrence. *)
Definition severities_of (issues : list Issue) : list jsstring :=
  first_occurrences (map (fun i => severity_name (severity i)) issues).

(** The checks of the webhook handler that come before the review job is
    built: the event is [pull_request], the payload is valid, its action
    is supported, the pull request is no draft, and the installation has
    an id. *)
Definition passes_checks (req : Routes.RouteRequest) : Prop :=
  Routes.x_github_event req = Webhook.Single (lit "pull_request")
  /\ Routes.isValidPRPayload (Routes.body req) = true
  /\ In (Routes.action_of (Routes.body req)) Routes.SUPPORTED_ACTIONS
  /\ Routes.truthy
       (Routes.prop (Routes.prop (Routes.body req) "pull_request") "draft") = false
  /\ Routes.optional_member (Routes.prop (Routes.body req) "installation") "id"
     <> Routes.VUndefined.

(** [payload.repository.owner] and [payload.pull_request.head]. *)
Definition owner_of (req : Routes.RouteRequest) : Routes.Value :=
  Routes.prop (Routes.prop (Routes.body req) "repository") "owner".

Definition head_of (req : Routes.RouteRequest) : Routes.Value :=
  Routes.prop (Routes.prop (Routes.body req) "pull_request") "head".

End Notions.

(* ================================================================== *)
(** * Concrete inputs *)
(* ================================================================== *)

Module Examples.

Definition line_feed : string := String "010" EmptyString.

(** A diff of two files without hunks. *)
Definition two_headers : jsstring :=
  lit ("diff --git a/ab b/ab" ++ line_feed ++ "diff --git a/cd b/cd")%string.

Definition bare_file (path : string) : DiffParser.DiffFile :=
  {| DiffParser.oldPath := Some (lit path);
     DiffParser.newPath := Some (lit path);
     DiffParser.type := DiffParser.modify;
     DiffParser.isBinary := false;
     DiffParser.modeChange := None;
     DiffParser.similarity := None;
     DiffParser.hunks := [];
     DiffParser.linesAdded := 0;
     DiffParser.linesRemoved := 0 |}.

Definition two_small_files : DiffParser.ParsedDiff :=
  {| DiffParser.files := [bare_file "ab"; bare_file "cd"];
     DiffParser.totalLinesAdded := 0;
     DiffParser.totalLinesRemoved := 0;
     DiffParser.totalFilesChanged := 2 |}.

Definition budget_22 : Chunker.PartialChunkConfig :=
  {| Chunker.p_maxTokens := Some 22%Z;
     Chunker.p_overlapTokens := None;
     Chunker.p_maxFilesPerChunk := None;
     Chunker.p_keepFilesTogether := None |}.

(** [SAMPLE_DIFF] of the parser tests. *)
Definition SAMPLE_DIFF : jsstring :=
  lit ("diff --git a/src/utils.ts b/src/utils.ts" ++ line_feed ++
       "index 1234567..abcdefg 100644" ++ line_feed ++
       "--- a/src/utils.ts" ++ line_feed ++
       "+++ b/src/utils.ts" ++ line_feed ++
       "@@ -10,6 +10,8 @@ export function helper() {" ++ line_feed ++
       "   const a = 1;" ++ line_feed ++
       "   const b = 2;" ++ line_feed ++
       "+  const c = 3;" ++ line_feed ++
       "+  const d = 4;" ++ line_feed ++
       "   return a + b;" ++ line_feed ++
       " }" ++ line_feed ++
       " " ++ line_feed ++
       "@@ -20,4 +22,3 @@ export function another() {" ++ line_feed ++
       "   console.log(" ++ String "034" "hello" ++ String "034" ");" ++ line_feed ++
       "-  console.log(" ++ String "034" "removed" ++ String "034" ");" ++ line_feed ++
       " }" ++ line_feed)%string.

(** What the parser tests read off a parsed diff. *)
Definition file_summary (f : DiffParser.DiffFile) :=
  (DiffParser.type f, DiffParser.oldPath f, DiffParser.newPath f,
   DiffParser.isBinary f, DiffParser.linesAdded f, DiffParser.linesRemoved f,
   map (fun h => (DiffParser.oldStart h, DiffParser.newStart h,
                  map DiffParser.lineNumber (DiffParser.addedLines h),
                  map DiffParser.lineNumber (DiffParser.removedLines h)))
       (DiffParser.hunks f)).

Definition summary_of (o : Outcome DiffParser.ParsedDiff) :=
  match o with
  | Returns d => Some (map file_summary (DiffParser.files d))
  | Throws _ => None
  end.

(** [createTestIssue] of the scorer tests. *)
Definition issue_of (c : IssueCategory) (s : IssueSeverity) (q : Q) : Issue :=
  {| id := lit "6f1c2a9e-0b7d-4c3a-9e55-2f8d1a7b4c10";
     category := c;
     subtype := lit "test";
     severity := s;
     confidence := q;
     file_path := lit "test.ts";
     line_start := 1;
     line_end := 1;
     message := lit "Test issue";
     evidence := lit "test";
     suggested_fix := None;
     patch := None;
     owasp_tag := None;
     cwe := None;
     source_tool := None;
     is_llm_generated := false |}.

Definition worker_defaults : WorkerConfig :=
  {| maxInlineComments := 10; confidenceThreshold := 1 # 2; enableOsvScan := true |}.

(** A stand-in for the HMAC primitive, to run the middleware on. *)
Definition fixed_digest (secret payload : jsstring) : list Webhook.byte :=
  [0xAB; 0x01; 0xF0]%N.

Definition signed_request (signature : jsstring) : Webhook.Request :=
  {| Webhook.x_hub_signature_256 := Webhook.Single signature;
     Webhook.x_request_id := Webhook.Undefined;
     Webhook.rawBody := Some (lit "{}") |}.

Definition unsigned_request : Webhook.Request :=
  {| Webhook.x_hub_signature_256 := Webhook.Undefined;
     Webhook.x_request_id := Webhook.Undefined;
     Webhook.rawBody := Some (lit "{}") |}.

(** One advisory for one dependency. *)
Definition lodash : Osv.PackageDependency :=
  {| Osv.name := lit "lodash"; Osv.version := lit "4.17.11"; Osv.ecosystem := Osv.npm |}.

Definition advisory : Osv.OsvVulnerability :=
  {| Osv.vuln_id := lit "GHSA-jf85-cpcp-j695";
     Osv.summary := lit "Prototype Pollution in lodash";
     Osv.details := lit "Versions of lodash before 4.17.12 are vulnerable.";
     Osv.vuln_severity :=
       Some [ {| Osv.severity_type := lit "CVSS_V3";
                 Osv.severity_score := lit "9.1" |} ] |}.

Definition score_9_1 (s : jsstring) : Osv.Number :=
  if str_eqb s (lit "9.1") then Osv.Finite (91 # 10) else Osv.NaN.

Definition one_advisory (k : nat) (pkg : Osv.PackageDependency) : Osv.FetchResult :=
  Osv.Json (Some [advisory]).

Definition uuid_of (k : nat) : jsstring := lit "00000000-0000-4000-8000-00000000000" ++ of_Z (Z.of_nat k).

Definition only_lodash (content : jsstring) : list Osv.PackageDependency := [lodash].


(** Two findings at the same place, of the same category and subtype. *)
Definition same_place : list Issue :=
  [issue_of security high (9 # 10); issue_of security critical (1 # 2)].

(** Seven issues, more than a summary shows. *)
Definition seven_issues : list Issue :=
  [issue_of security critical 1; issue_of security high (9 # 10);
   issue_of correctness high (8 # 10); issue_of performance medium (7 # 10);
   issue_of style low (6 # 10); issue_of maintainability low (1 # 2);
   issue_of dependency medium (9 # 10)].

(** A matcher that matches no pattern. *)
Definition never_matches (path pattern : jsstring) : bool := false.

(** A repository whose only context file is a short README. *)
Definition readme_only (path : jsstring) : Rag.Awaited (option jsstring) :=
  Rag.Resolved (if str_eqb path (lit "README.md") then Some (lit "# Project") else None).

Definition short_context : Rag.RepoContext :=
  {| Rag.readme := Some (lit "# Project");
     Rag.contributing := None;
     Rag.lintConfig := None;
     Rag.relevantDocs := [] |}.

(** A README kept at its full budget of 2000 code units with the mark of
    truncation. *)
Definition long_readme : jsstring := repeat 97%N 2000 ++ Rag.truncation_mark.

Definition context_of (contributing lintConfig : option jsstring) : Rag.RepoContext :=
  {| Rag.readme := Some long_readme;
     Rag.contributing := contributing;
     Rag.lintConfig := lintConfig;
     Rag.relevantDocs := [] |}.

Definition one_chunk : Chunker.DiffChunk :=
  {| Chunker.index := 0;
     Chunker.totalChunks := 1;
     Chunker.chunk_files := [bare_file "ab"];
     Chunker.filePaths := [lit "ab"];
     Chunker.chunk_content := Chunker.formatDiffFileForLLM (bare_file "ab");
     Chunker.estimatedTokens := 11;
     Chunker.languages := [] |}.

Definition unchanged (text : jsstring) : jsstring := text.


(** The payload of a pull request event, with or without the owner of the
    repository. *)
Definition pr_payload (action : string) (owner : list (jsstring * Routes.Value))
  : Routes.Value :=
  Routes.VObject
    [ (lit "action", Routes.VString (lit action));
      (lit "number", Routes.VNumber (Osv.Finite 7));
      (lit "pull_request",
       Routes.VObject
         [ (lit "head", Routes.VObject [(lit "sha", Routes.VString (lit "3f2a9c1"))]);
           (lit "draft", Routes.VBoolean false) ]);
      (lit "repository", Routes.VObject ((lit "name", Routes.VString (lit "demo")) :: owner));
      (lit "installation", Routes.VObject [(lit "id", Routes.VNumber (Osv.Finite 42))]) ].

Definition with_owner : list (jsstring * Routes.Value) :=
  [(lit "owner", Routes.VObject [(lit "login", Routes.VString (lit "octocat"))])].

Definition pr_request (payload : Routes.Value) : Routes.RouteRequest :=
  {| Routes.x_github_event := Webhook.Single (lit "pull_request");
     Routes.requestId := None;
     Routes.body := payload |}.

Definition job_uuid : jsstring := lit "0b8f6c1e-5d2a-4f7b-9c3e-1a2b3c4d5e6f".
Definition request_time : jsstring := lit "2024-01-01T00:00:00.000Z".

(** A body whose text parses to the payload of an opened pull request. *)
Definition parse_opened (text : jsstring) : option Routes.Value :=
  Some (pr_payload "opened" with_owner).

Definition signed_incoming : Routes.Incoming :=
  {| Routes.signature_header :=
       Webhook.Single (Webhook.expectedSignature fixed_digest (lit "{}") (lit "s3cret"));
     Routes.request_id_header := Webhook.Undefined;
     Routes.event_header := Webhook.Single (lit "pull_request");
     Routes.request_id := None;
     Routes.data := lit "{}" |}.

End Examples.

(* ================================================================== *)
(** * Properties *)
(* ================================================================== *)

Section SliceFacts.
Context {A : Type}.

Lemma slice_prefix_length (xs : list A) (k : Z) :
  (0 <= k <= Z.of_nat (length xs))%Z ->
  length (slice xs 0 k) = Z.to_nat k.
Proof.
  intros Hk. unfold slice, clamp_index.
  replace (0 <? 0)%Z with false by reflexivity.
  destruct (k <? 0)%Z eqn:E; [apply Z.ltb_lt in E; lia|].
  rewrite Z.min_l by lia. rewrite Z.min_l by lia. simpl skipn.
  rewrite Z.sub_0_r, length_firstn. lia.
Qed.
End SliceFacts.

Lemma truncateText_length (text : jsstring) (maxLength : Z) :
  (3 <= maxLength)%Z ->
  (len (Formatter.truncateText text maxLength) <= maxLength)%Z.
Proof.
  intros Hmax. unfold Formatter.truncateText, Formatter.truncateText_with.
  destruct (len text <=? maxLength)%Z eqn:E.
  - now apply Z.leb_le in E.
  - apply Z.leb_gt in E. unfold len in *.
    rewrite length_app, slice_prefix_length.
    + change (length Formatter.default_indicator) with 3%nat. lia.
    + change (Z.of_nat (length Formatter.default_indicator)) with 3%Z. lia.
Qed.

Lemma default_inline_limit (config : Formatter.PartialCommentFormatConfig) :
  Formatter.p_maxInlineChars config = None ->
  Formatter.maxInlineChars (Formatter.merge_config config) = 900%Z.
Proof. intros H. unfold Formatter.merge_config. simpl. now rewrite H. Qed.

(** C10. For every issue and every comment configuration whose effective
    [maxInlineChars] is at least 3, the inline comment is at most
    [maxInlineChars] code units long; with no override the limit is 900. *)
Theorem formatInlineComment_length_bound :
  forall (issue : Issue) (config : Formatter.PartialCommentFormatConfig),
    (3 <= Formatter.maxInlineChars (Formatter.merge_config config))%Z ->
    (len (Formatter.formatInlineComment issue config)
       <= Formatter.maxInlineChars (Formatter.merge_config config))%Z
    /\ (Formatter.p_maxInlineChars config = None ->
        (len (Formatter.formatInlineComment issue config) <= 900)%Z).
Proof.
  intros issue config Hmax.
  assert (B : (len (Formatter.formatInlineComment issue config)
                 <= Formatter.maxInlineChars (Formatter.merge_config config))%Z)
    by (unfold Formatter.formatInlineComment; now apply truncateText_length).
  split; [exact B|].
  intros Hnone. rewrite (default_inline_limit config Hnone) in B. exact B.
Qed.

(* ------------------------------------------------------------------ *)
(** ** Strings and enum names *)
(* ------------------------------------------------------------------ *)

Lemma str_eqb_eq (a b : jsstring) : str_eqb a b = true <-> a = b.
Proof.
  revert b. induction a as [|x a IH]; intros [|y b]; simpl; split;
    try congruence; try reflexivity.
  - intros H. apply andb_true_iff in H. destruct H as [H1 H2].
    apply N.eqb_eq in H1. apply IH in H2. congruence.
  - intros H. injection H as -> ->. apply andb_true_iff. split.
    + apply N.eqb_refl.
    + now apply IH.
Qed.

Lemma category_eqb_eq (a b : IssueCategory) : category_eqb a b = true <-> a = b.
Proof. destruct a, b; simpl; split; congruence. Qed.

Lemma category_name_inj (a b : IssueCategory) :
  category_name a = category_name b -> a = b.
Proof. destruct a, b; intros H; try reflexivity; discriminate H. Qed.

Lemma severity_name_inj (a b : IssueSeverity) :
  severity_name a = severity_name b -> a = b.
Proof. destruct a, b; intros H; try reflexivity; discriminate H. Qed.

(* ------------------------------------------------------------------ *)
(** ** Insertion-ordered maps *)
(* ------------------------------------------------------------------ *)

Section OMapFacts.
Context {K V : Type}.
Variable eqb : K -> K -> bool.
Hypothesis eqb_eq : forall a b, eqb a b = true <-> a = b.

Let omap := OMap.t (K:=K) (V:=V).

Lemma eqb_neq (a b : K) : eqb a b = false <-> a <> b.
Proof.
  split.
  - intros H E. apply eqb_eq in E. congruence.
  - intros H. destruct (eqb a b) eqn:E; [|reflexivity].
    apply eqb_eq in E. contradiction.
Qed.

Lemma get_none (k : K) (m : omap) :
  OMap.get eqb k m = None <-> ~ In k (OMap.keys m).
Proof.
  induction m as [|[k' v'] m IH]; simpl.
  - tauto.
  - destruct (eqb k' k) eqn:E.
    + apply eqb_eq in E. split; [discriminate | intros H; exfalso; auto].
    + apply eqb_neq in E. rewrite IH. tauto.
Qed.

Lemma get_some_in (k : K) (v : V) (m : omap) :
  OMap.get eqb k m = Some v -> In (k, v) m.
Proof.
  induction m as [|[k' v'] m IH]; simpl; [discriminate|].
  destruct (eqb k' k) eqn:E.
  - apply eqb_eq in E. intros H. injection H as ->. left. congruence.
  - intros H. right. auto.
Qed.

Lemma in_get_some (k : K) (v : V) (m : omap) :
  NoDup (OMap.keys m) -> In (k, v) m -> OMap.get eqb k m = Some v.
Proof.
  induction m as [|[k' v'] m IH]; simpl; [tauto|].
  intros ND [H|H].
  - injection H as -> ->.
    replace (eqb k k) with true by (symmetry; now apply eqb_eq). reflexivity.
  - inversion ND as [|? ? Hnotin ND']; subst.
    destruct (eqb k' k) eqn:E.
    + apply eqb_eq in E. subst k'. exfalso. apply Hnotin.
      change k with (fst (k, v)). now apply in_map.
    + now apply IH.
Qed.

Lemma set_absent (k : K) (v : V) (m : omap) :
  ~ In k (OMap.keys m) -> OMap.set eqb k v m = m ++ [(k, v)].
Proof.
  induction m as [|[k' v'] m IH]; simpl; [reflexivity|].
  intros H. destruct (eqb k' k) eqn:E.
  - apply eqb_eq in E. exfalso. auto.
  - f_equal. apply IH. tauto.
Qed.

Lemma keys_set_present (k : K) (v : V) (m : omap) :
  In k (OMap.keys m) -> OMap.keys (OMap.set eqb k v m) = OMap.keys m.
Proof.
  induction m as [|[k' v'] m IH]; simpl; [tauto|].
  intros H. destruct (eqb k' k) eqn:E; simpl; [reflexivity|].
  f_equal. apply IH. apply eqb_neq in E. destruct H; [contradiction|assumption].
Qed.

Lemma in_keys_set (x k : K) (v : V) (m : omap) :
  In x (OMap.keys (OMap.set eqb k v m)) -> x = k \/ In x (OMap.keys m).
Proof.
  induction m as [|[k' v'] m IH]; simpl.
  - intros [H|[]]. now left.
  - destruct (eqb k' k); simpl; intros [H|H]; auto.
    destruct (IH H); auto.
Qed.

Lemma keys_set_nodup (k : K) (v : V) (m : omap) :
  NoDup (OMap.keys m) -> NoDup (OMap.keys (OMap.set eqb k v m)).
Proof.
  induction m as [|[k' v'] m IH]; simpl; intros ND.
  - constructor; [intros []|constructor].
  - inversion ND as [|? ? Hnotin ND']; subst.
    destruct (eqb k' k) eqn:E; simpl.
    + constructor; assumption.
    + constructor; [|now apply IH].
      intros H. apply in_keys_set in H. destruct H as [H|H]; [|contradiction].
      apply eqb_neq in E. congruence.
Qed.

Lemma keys_set_incl (x k : K) (v : V) (m : omap) :
  In x (OMap.keys m) -> In x (OMap.keys (OMap.set eqb k v m)).
Proof.
  induction m as [|[k' v'] m IH]; simpl; [tauto|].
  destruct (eqb k' k); simpl; intros [H|H]; auto.
Qed.

Lemma keys_set_key (k : K) (v : V) (m : omap) :
  In k (OMap.keys (OMap.set eqb k v m)).
Proof.
  induction m as [|[k' v'] m IH]; simpl; [now left|].
  destruct (eqb k' k) eqn:E; simpl; [|now right].
  apply eqb_eq in E. now left.
Qed.

(** With distinct keys, [set] changes the one binding of its key. *)
Lemma in_set (k k' : K) (v v' : V) (m : omap) :
  NoDup (OMap.keys m) ->
  In (k', v') (OMap.set eqb k v m) ->
  (k' = k /\ v' = v) \/ (k' <> k /\ In (k', v') m).
Proof.
  induction m as [|[k0 v0] m IH]; simpl; intros ND.
  - intros [H|[]]. injection H as <- <-. now left.
  - inversion ND as [|? ? Hnotin ND']; subst.
    destruct (eqb k0 k) eqn:E; simpl.
    + apply eqb_eq in E. subst k0. intros [H|H].
      * injection H as <- <-. now left.
      * right. split; [|now right]. intros ->. apply Hnotin.
        change k with (fst (k, v')). now apply in_map.
    + apply eqb_neq in E. intros [H|H].
      * injection H as <- <-. right. split; [assumption|now left].
      * destruct (IH ND' H) as [?|[? ?]]; [now left|right; split; auto].
Qed.
End OMapFacts.

(* ------------------------------------------------------------------ *)
(** ** Risk scorer: grouping and the breakdown *)
(* ------------------------------------------------------------------ *)

Section RiskScorerFacts.
Import RiskScorer Notions.

Lemma filter_snoc {A : Type} (f : A -> bool) (l : list A) (x : A) :
  filter f (l ++ [x]) = filter f l ++ (if f x then [x] else []).
Proof. rewrite filter_app. reflexivity. Qed.

Lemma group_by_category_snoc (issues : list Issue) (i : Issue) :
  group_by_category (issues ++ [i]) = group_push (group_by_category issues) i.
Proof. unfold group_by_category. now rewrite fold_left_app. Qed.

Lemma filter_none {A : Type} (f : A -> bool) (l : list A) :
  (forall x, In x l -> f x = false) -> filter f l = [].
Proof.
  induction l as [|x l IH]; simpl; intros H; [reflexivity|].
  rewrite (H x) by now left. apply IH. intros y Hy. apply H. now right.
Qed.

Lemma group_push_inv (issues : list Issue) (i : Issue) groups :
  groups_inv issues groups -> groups_inv (issues ++ [i]) (group_push groups i).
Proof.
  intros (ND & Hgroups & Hcover). unfold group_push. split; [|split].
  - apply keys_set_nodup; [exact category_eqb_eq|exact ND].
  - intros c g Hin. rewrite filter_snoc.
    apply (in_set category_eqb category_eqb_eq) in Hin; [|assumption].
    destruct Hin as [[-> ->]|[Hne Hin]].
    + unfold in_category at 2. rewrite (proj2 (category_eqb_eq _ _) eq_refl).
      f_equal.
      destruct (OMap.get category_eqb (category i) groups) as [g0|] eqn:G; simpl.
      * apply Hgroups. now apply (get_some_in category_eqb category_eqb_eq).
      * apply (get_none category_eqb category_eqb_eq) in G.
        symmetry. apply filter_none. intros x Hx.
        unfold in_category. destruct (category_eqb (category x) (category i)) eqn:E;
          [|reflexivity].
        apply category_eqb_eq in E. exfalso. apply G. rewrite <- E. now apply Hcover.
    + rewrite (Hgroups c g Hin). unfold in_category at 3.
      destruct (category_eqb (category i) c) eqn:E.
      * apply category_eqb_eq in E. congruence.
      * now rewrite app_nil_r.
  - intros y Hy. apply in_app_or in Hy. destruct Hy as [Hy|[<-|[]]].
    + apply keys_set_incl. now apply Hcover.
    + apply keys_set_key. exact category_eqb_eq.
Qed.

Lemma group_by_category_inv (issues : list Issue) :
  groups_inv issues (group_by_category issues).
Proof.
  induction issues as [|i issues IH] using rev_ind.
  - split; [constructor|]. split; [intros c g []|intros i []].
  - rewrite group_by_category_snoc. now apply group_push_inv.
Qed.

(** The inner loop ends with [critical] exactly when it started with it
    or met a critical issue: no weight exceeds that of [critical]. *)
Lemma pick_critical (s m : IssueSeverity) :
  (if Qgtb (SEVERITY_WEIGHTS s) (SEVERITY_WEIGHTS m) then s else m) = critical
  <-> s = critical \/ m = critical.
Proof.
  destruct s, m; vm_compute; split; intros H;
    try (destruct H as [H|H]); try discriminate; auto.
Qed.

Lemma fold_issue_step_critical sw cw cat (g : list Issue) (a : Q) (m : IssueSeverity) :
  snd (fold_left (issue_step sw cw cat) g (a, m)) = critical
  <-> m = critical \/ exists i, In i g /\ severity i = critical.
Proof.
  revert a m. induction g as [|x g IH]; intros a m; simpl.
  - split; [now left|]. intros [H|(i & [] & _)]. exact H.
  - rewrite IH, pick_critical. split.
    + intros [[H|H]|(i & Hi & Hs)].
      * right. exists x. auto.
      * now left.
      * right. exists i. auto.
    + intros [H|(i & [<-|Hi] & Hs)].
      * left. now right.
      * left. now left.
      * right. exists i. auto.
Qed.

Lemma fold_category_step_fst sw cw groups (b0 : list CategoryBreakdown) (t0 : Q) :
  fst (fold_left (category_step sw cw) groups (b0, t0))
  = b0 ++ map (breakdown_entry sw cw) groups.
Proof.
  revert b0 t0. induction groups as [|[c g] groups IH]; intros b0 t0; simpl.
  - now rewrite app_nil_r.
  - destruct (fold_left (issue_step sw cw c) g (0%Q, low)) as [cs ms] eqn:E.
    rewrite IH, <- app_assoc. reflexivity.
Qed.

Lemma insert_by_perm {A : Type} (cmp : A -> A -> Q) (x : A) (l : list A) :
  Permutation (insert_by cmp x l) (x :: l).
Proof.
  induction l as [|y l IH]; simpl; [reflexivity|].
  destruct (Qle_bool (cmp x y) 0); [reflexivity|].
  rewrite IH. apply perm_swap.
Qed.

Lemma sort_by_perm {A : Type} (cmp : A -> A -> Q) (l : list A) :
  Permutation (sort_by cmp l) l.
Proof.
  induction l as [|x l IH]; simpl; [reflexivity|].
  rewrite insert_by_perm. now constructor.
Qed.

Lemma breakdown_of (issues : list Issue) (config : PartialScoreConfig) :
  Permutation (breakdown (calculateRiskScore issues config))
    (map (breakdown_entry (spread SEVERITY_WEIGHTS (severityWeights config))
                          (spread CATEGORY_WEIGHTS (categoryWeights config)))
         (group_by_category issues)).
Proof.
  unfold calculateRiskScore.
  pose proof (fold_category_step_fst
    (spread SEVERITY_WEIGHTS (severityWeights config))
    (spread CATEGORY_WEIGHTS (categoryWeights config))
    (group_by_category issues) [] 0%Q) as F.
  destruct (fold_left _ (group_by_category issues) ([], 0%Q)) as [b0 total].
  simpl in F. subst b0. simpl. apply sort_by_perm.
Qed.

(** The security entry of the breakdown records [critical] exactly when
    a critical security issue was scored. *)
Lemma security_entry (issues : list Issue) (config : PartialScoreConfig) :
  match find (fun b => str_eqb (b_category b) (lit "security"))
             (breakdown (calculateRiskScore issues config)) with
  | Some b => str_eqb (max_severity b) (lit "critical")
  | None => false
  end = true <-> has_critical_security issues.
Proof.
  pose proof (breakdown_of issues config) as P.
  pose proof (group_by_category_inv issues) as (ND & Hgroups & Hcover).
  set (bs := breakdown (calculateRiskScore issues config)) in *.
  set (entry := breakdown_entry _ _) in *.
  destruct (find _ bs) as [b|] eqn:F.
  - apply find_some in F. destruct F as [Hin Hcat].
    apply str_eqb_eq in Hcat.
    apply (Permutation_in _ P) in Hin. apply in_map_iff in Hin.
    destruct Hin as ([c g] & <- & Hg).
    unfold entry, breakdown_entry in Hcat |- *.
    destruct (fold_left _ g (0%Q, low)) as [cs ms] eqn:E. simpl in Hcat |- *.
    apply (category_name_inj c security) in Hcat. subst c.
    assert (Hms : ms = snd (fold_left
              (issue_step (spread SEVERITY_WEIGHTS (severityWeights config))
                          (spread CATEGORY_WEIGHTS (categoryWeights config)) security)
              g (0%Q, low))) by now rewrite E.
    rewrite str_eqb_eq. split.
    + intros H. apply (severity_name_inj ms critical) in H.
      rewrite Hms in H. apply fold_issue_step_critical in H.
      destruct H as [H|(i & Hi & Hs)]; [discriminate|].
      rewrite (Hgroups _ _ Hg) in Hi. apply filter_In in Hi.
      destruct Hi as [Hi Hc]. exists i. repeat split; auto.
      now apply category_eqb_eq.
    + intros (i & Hi & Hc & Hs).
      assert (Hcrit : ms = critical).
      { rewrite Hms. apply fold_issue_step_critical. right.
        exists i. split; [|assumption].
        rewrite (Hgroups _ _ Hg). apply filter_In. split; [assumption|].
        now apply category_eqb_eq. }
      now rewrite Hcrit.
  - split; [discriminate|]. intros (i & Hi & Hc & Hs). exfalso.
    apply Hcover in Hi. rewrite Hc in Hi. unfold OMap.keys in Hi.
    apply in_map_iff in Hi. destruct Hi as ([c g] & Hk & Hg). simpl in Hk. subst c.
    assert (Hb : In (entry (security, g)) bs).
    { apply (Permutation_in _ (Permutation_sym P)). now apply in_map. }
    apply (find_none _ _ F) in Hb. unfold entry, breakdown_entry in Hb.
    destruct (fold_left _ g (0%Q, low)) as [cs ms]. simpl in Hb. discriminate Hb.
Qed.

(** C7. The check fails exactly when the final score reaches the
    threshold, or critical-security failing is on and a security issue of
    severity critical was scored.  An omitted threshold is 85 and an
    omitted flag is true. *)
Theorem shouldFailCheck_iff :
  forall (issues : list Issue) (config : PartialScoreConfig)
         (threshold : option Q) (failOnCriticalSecurity : option bool),
    shouldFailCheck (calculateRiskScore issues config) threshold failOnCriticalSecurity
      = true
    <-> (nullish threshold 85 <= score (calculateRiskScore issues config))%Q
        \/ (nullish failOnCriticalSecurity true = true
            /\ has_critical_security issues).
Proof.
  intros issues config threshold fail. unfold shouldFailCheck.
  change (RISK_THRESHOLDS risk_critical) with 85%Q.
  unfold Qgeb.
  destruct (Qle_bool (nullish threshold 85%Q)
              (score (calculateRiskScore issues config))) eqn:E.
  - apply Qle_bool_iff in E. split; auto.
  - assert (N : ~ (nullish threshold 85%Q <= score (calculateRiskScore issues config))%Q).
    { intros H. apply Qle_bool_iff in H. congruence. }
    destruct (nullish fail true).
    + rewrite security_entry. split; [auto|]. intros [H|[_ H]]; [contradiction|exact H].
    + split; [discriminate|]. intros [H|[H _]]; [contradiction|discriminate].
Qed.

(** *** The raw score is the sum of the issue contributions *)

Lemma fold_issue_step_fst sw cw cat (g : list Issue) (a : Q) (m : IssueSeverity) :
  (fst (fold_left (issue_step sw cw cat) g (a, m))
   == a + sumQ (issue_weight sw cw cat) g)%Q.
Proof.
  revert a m. induction g as [|x g IH]; intros a m; simpl.
  - ring.
  - rewrite IH. unfold issue_weight. ring.
Qed.

Lemma fold_category_step_snd sw cw groups (b0 : list CategoryBreakdown) (t0 : Q) :
  (snd (fold_left (category_step sw cw) groups (b0, t0))
   == t0 + groups_total sw cw groups)%Q.
Proof.
  revert b0 t0. induction groups as [|[c g] groups IH]; intros b0 t0; simpl.
  - unfold groups_total. simpl. ring.
  - pose proof (fold_issue_step_fst sw cw c g 0 low) as F.
    destruct (fold_left (issue_step sw cw c) g (0%Q, low)) as [cs ms].
    simpl in F. rewrite IH. unfold groups_total. simpl. rewrite F. ring.
Qed.

Lemma sumQ_snoc {A : Type} (f : A -> Q) (l : list A) (x : A) :
  (sumQ f (l ++ [x]) == sumQ f l + f x)%Q.
Proof.
  induction l as [|y l IH]; simpl.
  - ring.
  - rewrite IH. ring.
Qed.

Lemma groups_total_push sw cw groups (i : Issue) :
  (groups_total sw cw (group_push groups i)
   == groups_total sw cw groups + issue_weight sw cw (category i) i)%Q.
Proof.
  unfold group_push, groups_total.
  induction groups as [|[c g] groups IH]; simpl.
  - ring.
  - destruct (category_eqb c (category i)) eqn:E; simpl.
    + apply category_eqb_eq in E. subst c. rewrite sumQ_snoc. ring.
    + rewrite IH. ring.
Qed.

Lemma rawScore_total (issues : list Issue) (config : PartialScoreConfig) :
  (rawScore (calculateRiskScore issues config)
   == groups_total (spread SEVERITY_WEIGHTS (severityWeights config))
                   (spread CATEGORY_WEIGHTS (categoryWeights config))
                   (group_by_category issues))%Q.
Proof.
  unfold calculateRiskScore.
  pose proof (fold_category_step_snd
    (spread SEVERITY_WEIGHTS (severityWeights config))
    (spread CATEGORY_WEIGHTS (categoryWeights config))
    (group_by_category issues) [] 0) as F.
  destruct (fold_left _ (group_by_category issues) ([], 0%Q)) as [b0 total].
  simpl in F |- *. rewrite F. ring.
Qed.

Lemma score_of_rawScore (issues : list Issue) (config : PartialScoreConfig) :
  score (calculateRiskScore issues config)
  = score_of_raw (maxPossibleScore (calculateRiskScore issues config))
                 (rawScore (calculateRiskScore issues config)).
Proof.
  unfold calculateRiskScore.
  destruct (fold_left _ (group_by_category issues) ([], 0%Q)) as [b0 total].
  reflexivity.
Qed.

Lemma maxPossibleScore_default (issues : list Issue) :
  maxPossibleScore (calculateRiskScore issues no_config) = (20 * 15 * 4)%Q.
Proof.
  unfold calculateRiskScore.
  destruct (fold_left _ (group_by_category issues) ([], 0%Q)) as [b0 total].
  reflexivity.
Qed.

(** *** Every stage after the raw score is monotone *)

Lemma Math_round_mono (x y : Q) : (x <= y -> Math_round x <= Math_round y)%Q.
Proof.
  intros H. unfold Math_round. rewrite <- Zle_Qle. apply Qfloor_resp_le.
  now apply Qplus_le_compat; [|apply Qle_refl].
Qed.

Lemma Math_min_mono (c x y : Q) : (x <= y -> Math_min c x <= Math_min c y)%Q.
Proof. intros H. unfold Math_min. now apply Q.min_le_compat_l. Qed.

Lemma score_of_raw_mono (mp r1 r2 : Q) :
  (0 < mp -> r1 <= r2 -> score_of_raw mp r1 <= score_of_raw mp r2)%Q.
Proof.
  intros Hmp H. unfold score_of_raw.
  apply Math_min_mono, Math_round_mono, Math_min_mono.
  apply Qmult_le_compat_r; [|discriminate].
  apply Math_min_mono. apply Qmult_le_compat_r; [|discriminate].
  unfold Qdiv. apply Qmult_le_compat_r; [assumption|].
  apply Qinv_le_0_compat. now apply Qlt_le_weak.
Qed.

Lemma default_weight_nonneg (cat : IssueCategory) (i : Issue) :
  (0 <= confidence i ->
   0 <= issue_weight (spread SEVERITY_WEIGHTS None) (spread CATEGORY_WEIGHTS None) cat i)%Q.
Proof.
  intros H. unfold issue_weight, spread, nullish.
  apply Qmult_le_0_compat; [apply Qmult_le_0_compat|].
  - destruct (severity i); discriminate.
  - assumption.
  - destruct cat; discriminate.
Qed.

(** C6. Appending an issue whose confidence lies in [0,1] to a list of
    such issues never lowers the final score. *)
Theorem calculateRiskScore_monotone :
  forall (X : list Issue) (i : Issue),
    (forall x, In x X -> confidence_in_range x) ->
    confidence_in_range i ->
    (score (calculateRiskScore X no_config)
     <= score (calculateRiskScore (X ++ [i]) no_config))%Q.
Proof.
  intros X i _ [Hi _].
  rewrite !score_of_rawScore, !maxPossibleScore_default.
  apply score_of_raw_mono; [reflexivity|].
  rewrite !rawScore_total, group_by_category_snoc, groups_total_push.
  simpl severityWeights. simpl categoryWeights.
  pose proof (default_weight_nonneg (category i) i Hi) as W.
  set (w := issue_weight _ _ _ i) in *.
  set (t := groups_total _ _ _).
  rewrite <- (Qplus_0_r t) at 1. apply Qplus_le_compat; [apply Qle_refl|exact W].
Qed.
End RiskScorerFacts.

(* ------------------------------------------------------------------ *)
(** ** Aggregator *)
(* ------------------------------------------------------------------ *)

Section AggregatorFacts.
Import RiskScorer Aggregator Notions.

Lemma dedupe_step_inv seen (issue : Issue) :
  seen_inv seen -> seen_inv (dedupe_step seen issue).
Proof.
  intros [ND Hkeys].
  assert (S : seen_inv (OMap.set str_eqb (createDedupeKey issue) issue seen)).
  { split.
    - apply keys_set_nodup; [exact str_eqb_eq|exact ND].
    - intros k v Hin. apply (in_set str_eqb str_eqb_eq) in Hin; [|exact ND].
      destruct Hin as [[-> ->]|[_ Hin]]; [reflexivity|now apply Hkeys]. }
  unfold dedupe_step.
  destruct (OMap.get str_eqb (createDedupeKey issue) seen) as [existing|];
    [destruct (shouldReplace existing issue)|]; try exact S.
  now split.
Qed.

Lemma fold_dedupe_inv (issues : list Issue) seen :
  seen_inv seen -> seen_inv (fold_left dedupe_step issues seen).
Proof.
  revert seen. induction issues as [|x l IH]; intros seen H; simpl; [exact H|].
  apply IH. now apply dedupe_step_inv.
Qed.

Lemma keys_of_values seen :
  seen_inv seen -> map createDedupeKey (OMap.values seen) = OMap.keys seen.
Proof.
  intros [_ Hkeys]. unfold OMap.values, OMap.keys. rewrite map_map.
  apply map_ext_in. intros [k v] Hin. simpl. symmetry. now apply Hkeys.
Qed.

(** Issues with pairwise distinct keys, none of them in the map yet, are
    appended in order. *)
Lemma fold_dedupe_fresh (issues : list Issue) seen :
  NoDup (map createDedupeKey issues) ->
  (forall i, In i issues -> ~ In (createDedupeKey i) (OMap.keys seen)) ->
  fold_left dedupe_step issues seen = seen ++ map keyed issues.
Proof.
  revert seen. induction issues as [|x l IH]; intros seen ND Hfresh; simpl.
  - now rewrite app_nil_r.
  - inversion ND as [|? ? Hx ND']; subst.
    assert (G : OMap.get str_eqb (createDedupeKey x) seen = None).
    { apply (get_none str_eqb str_eqb_eq). apply Hfresh. now left. }
    unfold dedupe_step at 2. rewrite G.
    rewrite (set_absent str_eqb str_eqb_eq) by (apply Hfresh; now left).
    rewrite IH; [now rewrite <- app_assoc|exact ND'|].
    intros i Hi Hin. unfold OMap.keys in Hin. rewrite map_app in Hin.
    apply in_app_or in Hin. destruct Hin as [Hin|[Hin|[]]].
    + apply (Hfresh i); [now right|exact Hin].
    + simpl in Hin. apply Hx. rewrite Hin. now apply in_map.
Qed.

Lemma deduplicateIssues_distinct (issues : list Issue) :
  NoDup (map createDedupeKey issues) -> deduplicateIssues issues = issues.
Proof.
  intros ND. unfold deduplicateIssues.
  rewrite fold_dedupe_fresh; [|exact ND|intros i _ []].
  unfold OMap.values, OMap.empty. simpl. rewrite map_map. simpl. apply map_id.
Qed.

Lemma deduplicateIssues_keys_distinct (issues : list Issue) :
  NoDup (map createDedupeKey (deduplicateIssues issues)).
Proof.
  unfold deduplicateIssues.
  assert (I : seen_inv (fold_left dedupe_step issues OMap.empty)).
  { apply fold_dedupe_inv. split; [constructor|intros k v []]. }
  rewrite keys_of_values by exact I. apply I.
Qed.

Lemma shouldReplace_iff (existing newIssue : Issue) :
  shouldReplace existing newIssue = true
  <-> (severityOrder (severity existing) < severityOrder (severity newIssue))%Z
      \/ (severity newIssue = severity existing
          /\ (confidence existing < confidence newIssue)%Q).
Proof.
  unfold shouldReplace.
  destruct (severityOrder (severity newIssue) >? severityOrder (severity existing))%Z
    eqn:G.
  - apply Z.gtb_lt in G. split; auto.
  - destruct (severityOrder (severity newIssue) <? severityOrder (severity existing))%Z
      eqn:L.
    + apply Z.ltb_lt in L. split; [discriminate|].
      intros [H|[H _]]; [lia|rewrite H in L; lia].
    + assert (E : severity newIssue = severity existing).
      { apply Z.ltb_ge in L.
        assert (G' : ~ (severityOrder (severity existing)
                        < severityOrder (severity newIssue))%Z).
        { intros H. apply Z.gtb_lt in H. congruence. }
        destruct (severity newIssue), (severity existing); simpl in *;
          try reflexivity; lia. }
      unfold Qgtb. rewrite negb_true_iff. split.
      * intros H. right. split; [exact E|].
        apply Qnot_le_lt. intros C. apply Qle_bool_iff in C. congruence.
      * intros [H|[_ H]].
        -- rewrite E in H. lia.
        -- destruct (Qle_bool (confidence newIssue) (confidence existing)) eqn:C;
             [|reflexivity].
           apply Qle_bool_iff in C. exfalso. now apply (Qlt_not_le _ _ H).
Qed.

(** C8. Deduplication is idempotent.  Two issues collide when their keys
    [file_path:line_start-line_end:category:subtype[0:20]] are equal;
    the later one replaces the earlier one exactly when its severity is
    higher, or equal with a higher confidence. *)
Theorem deduplicateIssues_idempotent :
  forall X : list Issue,
    deduplicateIssues (deduplicateIssues X) = deduplicateIssues X
    /\ (forall a b : Issue,
          deduplicateIssues [a; b]
          = if str_eqb (createDedupeKey a) (createDedupeKey b)
            then [if shouldReplace a b then b else a]
            else [a; b])
    /\ (forall a b : Issue,
          shouldReplace a b = true
          <-> (severityOrder (severity a) < severityOrder (severity b))%Z
              \/ (severity b = severity a /\ (confidence a < confidence b)%Q)).
Proof.
  intros X. split; [|split].
  - apply deduplicateIssues_distinct, deduplicateIssues_keys_distinct.
  - intros a b. unfold deduplicateIssues, dedupe_step, OMap.empty.
    cbn [fold_left OMap.get OMap.set].
    destruct (str_eqb (createDedupeKey a) (createDedupeKey b)) eqn:E.
    + destruct (shouldReplace a b); reflexivity.
    + reflexivity.
  - intros a b. apply shouldReplace_iff.
Qed.

(** [slice(0, n)] with a non-negative [n] keeps the first [n] elements. *)
Lemma slice_firstn {A : Type} (l : list A) (n : Z) :
  (0 <= n)%Z -> slice l 0 n = firstn (Z.to_nat n) l.
Proof.
  intros Hn. unfold slice, clamp_index.
  replace (0 <? 0)%Z with false by reflexivity.
  destruct (n <? 0)%Z eqn:E; [apply Z.ltb_lt in E; lia|].
  rewrite (Z.min_l 0) by lia. simpl skipn. rewrite Z.sub_0_r.
  destruct (Z.le_ge_cases n (Z.of_nat (length l))) as [H|H].
  - now rewrite Z.min_l by lia.
  - rewrite Z.min_r by lia. rewrite Nat2Z.id.
    rewrite !firstn_all2; [reflexivity|lia|lia].
Qed.

(** The priority sort orders by descending score. *)
Lemma insert_by_priority_in (x y : Issue) (l : list Issue) :
  In y (insert_by (fun a b => getIssueScore b - getIssueScore a)%Q x l) ->
  y = x \/ In y l.
Proof.
  intros H. apply (Permutation_in _ (insert_by_perm _ x l)) in H.
  destruct H as [H|H]; auto.
Qed.

Lemma insert_by_priority_sorted (x : Issue) (l : list Issue) :
  StronglySorted by_priority l ->
  StronglySorted by_priority
    (insert_by (fun a b => getIssueScore b - getIssueScore a)%Q x l).
Proof.
  induction 1 as [|y l Hl IH Hy]; simpl.
  - constructor; constructor.
  - destruct (Qle_bool (getIssueScore y - getIssueScore x) 0) eqn:E.
    + apply Qle_bool_iff in E.
      assert (Hxy : by_priority x y) by (unfold by_priority; lra).
      constructor; [constructor; assumption|].
      constructor; [exact Hxy|].
      rewrite Forall_forall in Hy |- *. intros z Hz.
      specialize (Hy z Hz). unfold by_priority in *. lra.
    + assert (Hyx : by_priority y x).
      { unfold by_priority. apply Qlt_le_weak.
        assert (N : ~ (getIssueScore y - getIssueScore x <= 0)%Q).
        { intros C. apply Qle_bool_iff in C. congruence. }
        apply Qnot_le_lt in N. lra. }
      constructor; [exact IH|].
      rewrite Forall_forall in Hy |- *. intros z Hz.
      apply insert_by_priority_in in Hz. destruct Hz as [->|Hz]; auto.
Qed.

Lemma sortIssuesByPriority_sorted (issues : list Issue) :
  StronglySorted by_priority (sortIssuesByPriority issues).
Proof.
  unfold sortIssuesByPriority, sort_by.
  induction issues as [|x l IH]; simpl; [constructor|].
  now apply insert_by_priority_sorted.
Qed.

(** C2. The risk score of an aggregation is the score of all the issues
    that survive deduplication and the confidence filter; the inline
    comments are the first [maxInlineComments] issues of their priority
    sort, a rearrangement of those issues by descending priority; and
    [maxInlineComments] has no influence on the score. *)
Theorem aggregateIssues_risk_on_all :
  forall (issues : list Issue) (config : WorkerConfig),
    let r := aggregateIssues issues config in
    allIssues r
      = filter (fun i => Qle_bool (confidenceThreshold config) (confidence i))
               (deduplicateIssues issues)
    /\ riskScore r = calculateRiskScore (allIssues r) no_config
    /\ inlineComments r
       = slice (sortIssuesByPriority (allIssues r)) 0 (maxInlineComments config)
    /\ ((0 <= maxInlineComments config)%Z ->
        inlineComments r
        = firstn (Z.to_nat (maxInlineComments config))
                 (sortIssuesByPriority (allIssues r)))
    /\ Permutation (sortIssuesByPriority (allIssues r)) (allIssues r)
    /\ StronglySorted by_priority (sortIssuesByPriority (allIssues r))
    /\ (forall config' : WorkerConfig,
          confidenceThreshold config' = confidenceThreshold config ->
          riskScore (aggregateIssues issues config') = riskScore r
          /\ allIssues (aggregateIssues issues config') = allIssues r).
Proof.
  intros issues config r. subst r. unfold aggregateIssues.
  cbn [allIssues riskScore inlineComments].
  split; [reflexivity|]. split; [reflexivity|]. split; [reflexivity|].
  split; [intros Hn; now apply slice_firstn|].
  split; [apply sort_by_perm|].
  split; [apply sortIssuesByPriority_sorted|].
  intros config' H. now rewrite H.
Qed.
End AggregatorFacts.

(* ------------------------------------------------------------------ *)
(** ** Chunker *)
(* ------------------------------------------------------------------ *)

Section ChunkerFacts.
Import DiffParser Chunker Notions.

Lemma createChunk_placed (st : State) : placed (createChunk st) = placed st.
Proof.
  unfold createChunk, placed. destruct (currentFiles st) as [|f fs] eqn:E.
  - now rewrite E.
  - simpl chunks. simpl currentFiles.
    rewrite map_app, concat_app. simpl. now rewrite !app_nil_r.
Qed.

Lemma createChunk_flushed (st : State) : currentFiles (createChunk st) = [].
Proof.
  unfold createChunk. destruct (currentFiles st) as [|f fs] eqn:E; [exact E|reflexivity].
Qed.

Lemma push_placed (st : State) (file : DiffFile) (c : list jsstring) (t : Z) :
  placed {| chunks := chunks st; currentFiles := currentFiles st ++ [file];
            currentContent := c; currentTokens := t |}
  = placed st ++ [file].
Proof. unfold placed. simpl. now rewrite app_assoc. Qed.

Lemma step_placed (cfg : ChunkConfig) (st : State) (file : DiffFile) :
  placed (step cfg st file) = placed st ++ [file].
Proof.
  unfold step. cbv zeta.
  destruct ((estimateTokens (formatDiffFileForLLM file) >? maxTokens cfg)%Z
            && (len_of (currentFiles st) >? 0)%Z);
    match goal with |- context [if ?b then _ else _] => destruct b end;
    rewrite push_placed, ?createChunk_placed; reflexivity.
Qed.

Lemma fold_step_placed (cfg : ChunkConfig) (fs : list DiffFile) (st : State) :
  placed (fold_left (step cfg) fs st) = placed st ++ fs.
Proof.
  revert st. induction fs as [|f fs IH]; intros st; simpl.
  - now rewrite app_nil_r.
  - rewrite IH, step_placed, <- app_assoc. reflexivity.
Qed.

(** C5. The chunks partition the files of the diff, in order: their
    [files] arrays, concatenated by chunk index, are [diff.files]. *)
Theorem chunkDiff_partition :
  forall (diff : ParsedDiff) (config : PartialChunkConfig),
    concat (map chunk_files (chunkDiff diff config)) = files diff.
Proof.
  intros diff config. unfold chunkDiff.
  destruct (len_of (files diff) =? 0)%Z eqn:E.
  - apply Z.eqb_eq in E. unfold len_of in E.
    destruct (files diff); [reflexivity|discriminate E].
  - set (st := createChunk _).
    rewrite map_map. simpl.
    assert (P : placed st = files diff).
    { subst st. rewrite createChunk_placed, fold_step_placed. reflexivity. }
    assert (F : currentFiles st = []) by (subst st; apply createChunk_flushed).
    unfold placed in P. rewrite F, app_nil_r in P. exact P.
Qed.

(** *** What the budget check does guarantee *)

Lemma createChunk_inv (cfg : ChunkConfig) (st : State) :
  chunker_inv cfg st -> chunker_inv cfg (createChunk st).
Proof.
  intros (Hchunks & Hcontent & Htokens & Hbudget). unfold createChunk.
  destruct (currentFiles st) as [|f fs] eqn:E.
  - repeat split; rewrite ?E; assumption.
  - repeat split; simpl; try reflexivity.
    + apply Forall_app. split; [exact Hchunks|]. constructor; [|constructor].
      unfold chunk_ok. simpl. repeat split.
      * exact Hbudget.
      * discriminate.
      * now rewrite Hcontent.
    + left. simpl. lia.
Qed.

Lemma sum_tokens_snoc (fs : list DiffFile) (f : DiffFile) :
  sum_tokens (fs ++ [f]) = (sum_tokens fs + file_tokens f)%Z.
Proof. induction fs as [|g fs IH]; simpl; [lia|]. rewrite IH. lia. Qed.

Lemma push_inv (cfg : ChunkConfig) (st : State) (file : DiffFile) :
  chunker_inv cfg st ->
  (currentFiles st = []
   \/ (currentTokens st + file_tokens file <= maxTokens cfg)%Z) ->
  chunker_inv cfg
    {| chunks := chunks st;
       currentFiles := currentFiles st ++ [file];
       currentContent := currentContent st ++ [formatDiffFileForLLM file];
       currentTokens := (currentTokens st + file_tokens file)%Z |}.
Proof.
  intros (Hchunks & Hcontent & Htokens & Hbudget) Hroom.
  repeat split; simpl.
  - exact Hchunks.
  - now rewrite Hcontent, map_app.
  - now rewrite Htokens, sum_tokens_snoc.
  - destruct Hroom as [Hempty|Hroom].
    + left. rewrite Hempty. simpl. lia.
    + right. rewrite sum_tokens_snoc, <- Htokens. exact Hroom.
Qed.

Lemma step_inv (cfg : ChunkConfig) (st : State) (file : DiffFile) :
  chunker_inv cfg st -> chunker_inv cfg (step cfg st file).
Proof.
  intros Hst. unfold step. cbv zeta. fold (file_tokens file).
  set (st1 := if (file_tokens file >? maxTokens cfg)%Z
                 && (len_of (currentFiles st) >? 0)%Z
              then createChunk st else st).
  assert (H1 : chunker_inv cfg st1).
  { subst st1. destruct (_ && _)%bool; [now apply createChunk_inv|exact Hst]. }
  clearbody st1.
  destruct (currentTokens st1 + file_tokens file >? maxTokens cfg)%Z eqn:T; simpl.
  - apply push_inv; [now apply createChunk_inv|]. left. apply createChunk_flushed.
  - destruct (len_of (currentFiles st1) >=? maxFilesPerChunk cfg)%Z.
    + apply push_inv; [now apply createChunk_inv|]. left. apply createChunk_flushed.
    + apply push_inv; [exact H1|]. right. lia.
Qed.

Lemma fold_step_inv (cfg : ChunkConfig) (fs : list DiffFile) (st : State) :
  chunker_inv cfg st -> chunker_inv cfg (fold_left (step cfg) fs st).
Proof.
  revert st. induction fs as [|f fs IH]; intros st H; simpl; [exact H|].
  apply IH. now apply step_inv.
Qed.

Lemma initial_inv (cfg : ChunkConfig) : chunker_inv cfg initial.
Proof.
  split; [constructor|]. split; [reflexivity|]. split; [reflexivity|].
  left. simpl. lia.
Qed.

(** Every chunk holds a single file, or files whose own estimates add up
    to at most [maxTokens]. *)
Lemma chunkDiff_file_budget (diff : ParsedDiff) (config : PartialChunkConfig) :
  Forall (chunk_ok (merge_config config)) (chunkDiff diff config).
Proof.
  unfold chunkDiff. destruct (len_of (files diff) =? 0)%Z; [constructor|].
  set (st := createChunk _).
  assert (H : chunker_inv (merge_config config) st).
  { subst st. apply createChunk_inv, fold_step_inv, initial_inv. }
  destruct H as (Hchunks & _). apply Forall_map.
  eapply Forall_impl; [|exact Hchunks]. intros c Hc. exact Hc.
Qed.

Lemma join_length (sep : jsstring) (p : jsstring) (parts : list jsstring) :
  len (join sep (p :: parts)) = (total_len (p :: parts) + len sep * len_of parts)%Z.
Proof.
  revert p. induction parts as [|q parts IH]; intros p.
  - simpl. unfold len_of. simpl. lia.
  - change (join sep (p :: q :: parts)) with (p ++ sep ++ join sep (q :: parts)).
    unfold len in *. rewrite !length_app, !Nat2Z.inj_add, IH.
    unfold len_of. simpl total_len. simpl length. unfold len. lia.
Qed.

Lemma total_len_tokens (fs : list DiffFile) :
  (total_len (map formatDiffFileForLLM fs) <= 4 * sum_tokens fs)%Z.
Proof.
  induction fs as [|f fs IH]; cbn [map total_len sum_tokens]; [lia|].
  unfold file_tokens, estimateTokens.
  set (n := len (formatDiffFileForLLM f)).
  pose proof (Z.div_mod (n + 3) 4 ltac:(lia)) as D.
  pose proof (Z.mod_pos_bound (n + 3) 4 ltac:(lia)) as M.
  set (q := ((n + 3) / 4)%Z) in *. set (r := ((n + 3) mod 4)%Z) in *.
  lia.
Qed.

(** The estimate recorded in a chunk of [k] files is computed on the
    joined text, separators included: it can exceed the sum of the
    per-file estimates, by at most [k / 2]. *)
Lemma chunkDiff_estimate_slack (diff : ParsedDiff) (config : PartialChunkConfig) :
  Forall (fun c =>
            (exists f, chunk_files c = [f] /\ estimatedTokens c = file_tokens f)
            \/ (estimatedTokens c
                <= maxTokens (merge_config config) + len_of (chunk_files c) / 2)%Z)
         (chunkDiff diff config).
Proof.
  eapply Forall_impl; [|apply chunkDiff_file_budget].
  intros c (Hbudget & Hne & Hcontent & Hest).
  destruct (chunk_files c) as [|f fs] eqn:E; [contradiction|].
  destruct fs as [|g fs].
  - left. exists f. split; [reflexivity|]. rewrite Hest, Hcontent. reflexivity.
  - right. destruct Hbudget as [Hone|Hsum]; [simpl in Hone; lia|].
    rewrite Hest, Hcontent. unfold estimateTokens.
    cbn [map]. rewrite join_length.
    pose proof (total_len_tokens (f :: g :: fs)) as L. cbn [map] in L.
    change (len paragraph_break) with 2%Z.
    unfold len_of in *. cbn [length] in *. rewrite length_map.
    set (n := Z.of_nat (length fs)) in *.
    assert (Hn : (0 <= n)%Z) by (subst n; lia).
    rewrite !Nat2Z.inj_succ. fold n.
    set (T := sum_tokens (f :: g :: fs)) in *.
    set (L0 := total_len _) in *.
    apply Z.lt_succ_r, Z.div_lt_upper_bound; [lia|].
    pose proof (Z.div_mod (Z.succ (Z.succ n)) 2 ltac:(lia)) as D.
    pose proof (Z.mod_pos_bound (Z.succ (Z.succ n)) 2 ltac:(lia)) as M.
    set (h := (Z.succ (Z.succ n) / 2)%Z) in *.
    set (r := (Z.succ (Z.succ n) mod 2)%Z) in *.
    lia.
Qed.
End ChunkerFacts.

(** C4, at a failing input.  Two files of 44 formatted characters are
    11 estimated tokens each, so both fit a budget of 22 tokens and are
    put in one chunk; joined with a blank line between them they are 90
    characters, and the chunk records 23 estimated tokens. *)
Theorem chunkDiff_exceeds_budget :
  DiffParser.parseDiff Examples.two_headers = Returns Examples.two_small_files
  /\ Forall (fun f => Chunker.estimateTokens (Chunker.formatDiffFileForLLM f) = 11%Z)
            (DiffParser.files Examples.two_small_files)
  /\ Chunker.maxTokens (Chunker.merge_config Examples.budget_22) = 22%Z
  /\ exists c,
       Chunker.chunkDiff Examples.two_small_files Examples.budget_22 = [c]
       /\ length (Chunker.chunk_files c) = 2%nat
       /\ Chunker.estimatedTokens c = 23%Z.
Proof.
  split; [vm_compute; reflexivity|].
  split; [repeat constructor|].
  split; [reflexivity|].
  eexists. split; [vm_compute; reflexivity|].
  split; reflexivity.
Qed.

(* ------------------------------------------------------------------ *)
(** ** Webhook signature *)
(* ------------------------------------------------------------------ *)

Section WebhookFacts.
Import Webhook Notions.

Lemma bytes_eqb_eq (a b : list byte) : bytes_eqb a b = true <-> a = b.
Proof.
  revert b. induction a as [|x a IH]; intros [|y b]; simpl; split;
    try congruence; try reflexivity.
  - intros H. apply andb_true_iff in H. destruct H as [H1 H2].
    apply N.eqb_eq in H1. apply IH in H2. congruence.
  - intros H. injection H as -> ->. apply andb_true_iff. split.
    + apply N.eqb_refl.
    + now apply IH.
Qed.

Lemma timingSafeEqual_true (a b : list byte) :
  timingSafeEqual a b = Returns true <-> a = b.
Proof.
  unfold timingSafeEqual. destruct (Nat.eqb (length a) (length b)) eqn:E.
  - split.
    + intros H. injection H as H. now apply bytes_eqb_eq.
    + intros H. f_equal. now apply bytes_eqb_eq.
  - apply Nat.eqb_neq in E. split; [discriminate|]. intros ->. contradiction.
Qed.

(** An ASCII string is its own UTF-8 encoding. *)
Lemma Buffer_from_ascii (s : jsstring) :
  Forall is_ascii s -> Buffer_from s = s.
Proof.
  induction 1 as [|u s Hu _ IH]; simpl; [reflexivity|].
  unfold is_ascii in Hu. apply N.ltb_lt in Hu. rewrite Hu. now rewrite IH.
Qed.

(** Only an ASCII string has an encoding made of ASCII bytes: every
    other code unit starts a sequence whose first byte is 0x80 or more. *)
Lemma Buffer_from_ascii_inv (s : jsstring) :
  Forall is_ascii (Buffer_from s) -> Forall is_ascii s.
Proof.
  induction s as [|u rest IH]; intros H; [constructor|].
  cbn [Buffer_from] in H.
  destruct (u <? 0x80)%N eqn:A.
  - inversion H; subst. constructor; [now apply N.ltb_lt|now apply IH].
  - exfalso.
    assert (Hhead : forall b bs, Forall is_ascii (b :: bs) -> (0x80 <= b)%N -> False).
    { intros b bs F Hb. inversion F as [|? ? Hlt _]; subst. unfold is_ascii in Hlt. lia. }
    assert (Hsum : forall c x : N, (0x80 <= c -> 0x80 <= c + x)%N).
    { intros c x Hc. apply N.le_trans with c; [exact Hc|apply N.le_add_r]. }
    destruct (u <? 0x800)%N;
      [eapply Hhead; [exact H|apply Hsum; discriminate]|].
    destruct (is_high_surrogate u).
    + destruct rest as [|l rest'];
        [eapply Hhead; [exact H|discriminate]|].
      destruct (is_low_surrogate l);
        (eapply Hhead; [exact H|first [discriminate|apply Hsum; discriminate]]).
    + destruct (is_low_surrogate u);
        (eapply Hhead; [exact H|first [discriminate|apply Hsum; discriminate]]).
Qed.

Lemma hex_digit_ascii (d : N) : (d < 16)%N -> is_ascii (hex_digit d).
Proof.
  intros H. unfold hex_digit, is_ascii. destruct (d <? 10)%N eqn:E.
  - apply N.ltb_lt in E. lia.
  - apply N.ltb_ge in E. lia.
Qed.

Lemma digest_hex_ascii (digest : list byte) : Forall is_ascii (digest_hex digest).
Proof.
  induction digest as [|b bs IH]; simpl; [constructor|].
  constructor; [|constructor; [|exact IH]]; apply hex_digit_ascii.
  - apply N.Div0.div_lt_upper_bound. change (16 * 16)%N with 256%N.
    apply N.mod_lt. discriminate.
  - apply N.mod_lt. discriminate.
Qed.

Lemma digest_hex_length (digest : list byte) :
  length (digest_hex digest) = (2 * length digest)%nat.
Proof. induction digest as [|b bs IH]; simpl; [reflexivity|]. rewrite IH. lia. Qed.

Variable hmac_sha256 : jsstring -> jsstring -> list byte.

Lemma expectedSignature_ascii (payload secret : jsstring) :
  Forall is_ascii (expectedSignature hmac_sha256 payload secret).
Proof.
  unfold expectedSignature. apply Forall_app. split.
  - repeat constructor.
  - apply digest_hex_ascii.
Qed.

Lemma verifySignature_iff (payload signature secret : jsstring) :
  verifySignature hmac_sha256 payload signature secret = true
  <-> signature = expectedSignature hmac_sha256 payload secret.
Proof.
  unfold verifySignature.
  pose proof (expectedSignature_ascii payload secret) as A.
  rewrite (Buffer_from_ascii _ A).
  split.
  - intros H.
    assert (E : Buffer_from signature = expectedSignature hmac_sha256 payload secret).
    { apply timingSafeEqual_true.
      destruct (timingSafeEqual _ _) as [b|e]; [now subst b|discriminate]. }
    assert (S : Forall is_ascii signature).
    { apply Buffer_from_ascii_inv. now rewrite E. }
    now rewrite (Buffer_from_ascii _ S) in E.
  - intros ->. rewrite (Buffer_from_ascii _ A).
    now rewrite (proj2 (timingSafeEqual_true _ _) eq_refl).
Qed.

(** C1. [verifySignature] is a total boolean function that is true
    exactly on the string ["sha256="] followed by the lowercase
    hexadecimal HMAC-SHA256 digest of the body under the secret; a
    signature of another length is rejected like any other.  On a
    rejected signature the middleware answers 401 and does not call the
    next handler, on the expected one it calls it, and a header that is
    missing or not a string is answered with 401. *)
Theorem signature_verification :
  (forall payload signature secret : jsstring,
     verifySignature hmac_sha256 payload signature secret = true
     <-> signature = lit "sha256=" ++ digest_hex (hmac_sha256 secret payload))
  /\ (forall payload signature secret : jsstring,
        length signature <> length (expectedSignature hmac_sha256 payload secret) ->
        verifySignature hmac_sha256 payload signature secret = false)
  /\ (forall (secret : jsstring) (req : Request) (signature body : jsstring),
        x_hub_signature_256 req = Single signature ->
        rawBody req = Some body ->
        (signature <> expectedSignature hmac_sha256 body secret ->
         signatureMiddleware hmac_sha256 secret req
         = Respond 401 (lit "Invalid signature"))
        /\ (signature = expectedSignature hmac_sha256 body secret ->
            signatureMiddleware hmac_sha256 secret req = Next))
  /\ (forall (secret : jsstring) (req : Request),
        (forall signature, x_hub_signature_256 req <> Single signature) ->
        signatureMiddleware hmac_sha256 secret req
        = Respond 401 (lit "Missing signature header")).
Proof.
  split; [|split; [|split]].
  - intros payload signature secret. apply verifySignature_iff.
  - intros payload signature secret Hlen.
    destruct (verifySignature hmac_sha256 payload signature secret) eqn:V;
      [|reflexivity].
    apply verifySignature_iff in V. subst signature. contradiction.
  - intros secret req signature body Hsig Hbody.
    unfold signatureMiddleware. rewrite Hsig, Hbody. split; intros H.
    + destruct (verifySignature hmac_sha256 body signature secret) eqn:V;
        [|reflexivity].
      apply verifySignature_iff in V. contradiction.
    + now rewrite (proj2 (verifySignature_iff body signature secret) H).
  - intros secret req Hnot. unfold signatureMiddleware.
    destruct (x_hub_signature_256 req) as [|v|vs]; try reflexivity.
    exfalso. now apply (Hnot v).
Qed.
End WebhookFacts.

(* ------------------------------------------------------------------ *)
(** ** Diff parser *)
(* ------------------------------------------------------------------ *)

Section DiffParserFacts.
Import DiffParser Notions.

(** Before the first file header the loop body changes nothing. *)
Lemma step_before_header (line : jsstring) :
  DIFF_HEADER_REGEX line = None -> step initial line = initial.
Proof. intros H. unfold step. now rewrite H. Qed.

Lemma fold_step_before_header (pre : list jsstring) :
  Forall (fun line => DIFF_HEADER_REGEX line = None) pre ->
  fold_left step pre initial = initial.
Proof.
  induction 1 as [|line pre Hline _ IH]; simpl; [reflexivity|].
  now rewrite step_before_header.
Qed.

(** C3, as the code has it.  [parseDiff] returns a [ParsedDiff] for
    every input and never fails; the lines before the first file header,
    hunk headers among them, are skipped. *)
Theorem parseDiff_lenient :
  (forall diffContent : jsstring,
     exists d : ParsedDiff, parseDiff diffContent = Returns d)
  /\ (forall pre rest : list jsstring,
        Forall (fun line => DIFF_HEADER_REGEX line = None) pre ->
        parse_lines (pre ++ rest) = parse_lines rest).
Proof.
  split.
  - intros diffContent. unfold parseDiff, parse_lines. eexists. reflexivity.
  - intros pre rest Hpre. unfold parse_lines.
    now rewrite fold_left_app, fold_step_before_header.
Qed.

(** C3 as stated fails: a hunk header on the first line, before any file
    header, and the parser returns the empty diff. *)
Lemma parseDiff_early_hunk_returns :
  hunk_before_file_header (split_on 10%N (lit "@@ -1,1 +1,1 @@")) = true
  /\ parseDiff (lit "@@ -1,1 +1,1 @@")
     = Returns {| files := []; totalLinesAdded := 0; totalLinesRemoved := 0;
                  totalFilesChanged := 0 |}
  /\ ~ fails_exactly_on_early_hunk (lit "@@ -1,1 +1,1 @@").
Proof.
  assert (H : hunk_before_file_header (split_on 10%N (lit "@@ -1,1 +1,1 @@")) = true)
    by (vm_compute; reflexivity).
  split; [exact H|]. split; [vm_compute; reflexivity|].
  intros [_ F]. specialize (F H). discriminate F.
Qed.
End DiffParserFacts.

(* ------------------------------------------------------------------ *)
(** ** Vulnerability scanner *)
(* ------------------------------------------------------------------ *)

Section OsvFacts.
Import Osv Notions.

Variable parseFloat : jsstring -> Number.
Variable randomUUID : nat -> jsstring.
Variable fetch_query : nat -> PackageDependency -> FetchResult.
Variable parsePackageJson parseRequirements parseGoMod
  : jsstring -> list PackageDependency.

Lemma ge_const_false_lt (q c : Q) : Qle_bool c q = false -> (q < c)%Q.
Proof.
  intros H. apply Qnot_le_lt. intros C. apply Qle_bool_iff in C. congruence.
Qed.

Lemma mapOsvSeverity_of_score (vuln : OsvVulnerability) :
  match first_score vuln with
  | Some score => severity_of_score (parseFloat score) (mapOsvSeverity parseFloat vuln)
  | None => mapOsvSeverity parseFloat vuln = medium
  end.
Proof.
  unfold first_score, mapOsvSeverity.
  destruct (vuln_severity vuln) as [[|sev sevs]|]; try reflexivity.
  destruct (parseFloat (severity_score sev)) as [|q| |]; simpl; try reflexivity.
  destruct (Qle_bool 9 q) eqn:E9; [|destruct (Qle_bool 7 q) eqn:E7;
    [|destruct (Qle_bool 4 q) eqn:E4]].
  - apply Qle_bool_iff in E9. repeat split; auto; intros.
    + exfalso. now apply (Qlt_not_le q 9).
    + exfalso. apply (Qlt_not_le q 9); [|exact E9].
      apply Qlt_trans with 7%Q; [assumption|reflexivity].
    + exfalso. apply (Qlt_not_le q 9); [|exact E9].
      apply Qlt_trans with 4%Q; [assumption|reflexivity].
  - apply ge_const_false_lt in E9. apply Qle_bool_iff in E7.
    repeat split; auto; intros.
    + exfalso. now apply (Qlt_not_le q 9).
    + exfalso. now apply (Qlt_not_le q 7).
    + exfalso. apply (Qlt_not_le q 7); [|exact E7].
      apply Qlt_trans with 4%Q; [assumption|reflexivity].
  - apply ge_const_false_lt in E7. apply Qle_bool_iff in E4.
    repeat split; auto; intros.
    + exfalso. apply (Qlt_not_le q 7); [exact E7|].
      apply Qle_trans with 9%Q; [discriminate|assumption].
    + exfalso. now apply (Qlt_not_le q 7).
    + exfalso. now apply (Qlt_not_le q 4).
  - apply ge_const_false_lt in E4.
    repeat split; auto; intros; exfalso.
    + apply (Qlt_not_le q 4); [exact E4|].
      apply Qle_trans with 9%Q; [discriminate|assumption].
    + apply (Qlt_not_le q 4); [exact E4|].
      apply Qle_trans with 7%Q; [discriminate|assumption].
    + now apply (Qlt_not_le q 4).
Qed.

Let R (path : jsstring) := reports parseFloat path (fun v d => issue_message v d).

Lemma push_vuln_reports (path : jsstring) (dep : PackageDependency)
  (issues : list Issue) (vuln : OsvVulnerability) found :
  Forall2 (R path) issues found ->
  Forall2 (R path) (push_vuln parseFloat randomUUID path dep issues vuln)
          (found ++ [(dep, vuln)]).
Proof.
  intros H. unfold push_vuln. apply Forall2_app; [exact H|].
  constructor; [|constructor].
  unfold R, reports.
  cbn [category confidence line_start line_end file_path evidence message severity].
  repeat split.
  - apply slice_firstn. discriminate.
  - apply mapOsvSeverity_of_score.
Qed.

Lemma fold_push_vuln_reports (path : jsstring) (dep : PackageDependency)
  (vulns : list OsvVulnerability) (issues : list Issue) found :
  Forall2 (R path) issues found ->
  Forall2 (R path)
          (fold_left (push_vuln parseFloat randomUUID path dep) vulns issues)
          (found ++ map (pair dep) vulns).
Proof.
  revert issues found. induction vulns as [|v vs IH]; intros issues found H; simpl.
  - now rewrite app_nil_r.
  - replace (found ++ (dep, v) :: map (pair dep) vs)
      with ((found ++ [(dep, v)]) ++ map (pair dep) vs)
      by (now rewrite <- app_assoc).
    apply IH. now apply push_vuln_reports.
Qed.

Lemma fold_scan_dep_reports (path : jsstring)
  (kdeps : list (nat * PackageDependency)) (issues : list Issue) found :
  Forall2 (R path) issues found ->
  Forall2 (R path)
          (fold_left (scan_dep parseFloat randomUUID fetch_query path) kdeps issues)
          (found ++ flat_map (fun kdep =>
                       map (pair (snd kdep))
                           (queryOsv fetch_query (fst kdep) (snd kdep))) kdeps).
Proof.
  revert issues found. induction kdeps as [|[k dep] kdeps IH];
    intros issues found H; simpl.
  - now rewrite app_nil_r.
  - rewrite app_assoc. apply IH. now apply fold_push_vuln_reports.
Qed.

(** C9, as the code has it.  With scanning enabled, the issues are, in
    order, one per queried dependency and vulnerability returned for
    it, over the first 50 parsed dependencies only; each has category
    [dependency], confidence 0.95, lines 1 to 1, the first 200
    characters of the details as evidence, the severity of the first
    score, and the message [**<VULN-ID>**: <summary> (<name>@<version>)],
    the identifier in bold. *)
Theorem scanDependencies_reports :
  forall (lockfileContent lockfilePath : jsstring) (config : WorkerConfig),
    (enableOsvScan config = true ->
     Forall2 (reports parseFloat lockfilePath
                (fun vuln dep =>
                   lit "**" ++ vuln_id vuln ++ lit "**: " ++ summary vuln
                     ++ lit " (" ++ name dep ++ lit "@" ++ version dep ++ lit ")"))
             (scanDependencies parseFloat randomUUID fetch_query
                parsePackageJson parseRequirements parseGoMod
                lockfileContent lockfilePath config)
             (queried fetch_query
                (select_deps parsePackageJson parseRequirements parseGoMod
                   lockfileContent lockfilePath)))
    /\ (enableOsvScan config = false ->
        scanDependencies parseFloat randomUUID fetch_query
          parsePackageJson parseRequirements parseGoMod
          lockfileContent lockfilePath config = []).
Proof.
  intros content path config. unfold scanDependencies. split; intros E; rewrite E.
  - simpl negb. cbv iota. unfold queried.
    rewrite slice_firstn by discriminate.
    change (Z.to_nat 50) with 50%nat.
    apply (fold_scan_dep_reports path _ [] []). constructor.
  - reflexivity.
Qed.
End OsvFacts.

(** C9 as stated fails on the message: the code writes the identifier in
    bold, so the message is not [<VULN-ID>: <summary> (<name>@<version>)]. *)
Lemma scanDependencies_message_is_bold :
  exists issue : Issue,
    Osv.scanDependencies Examples.score_9_1 Examples.uuid_of Examples.one_advisory
      Examples.only_lodash Examples.only_lodash Examples.only_lodash
      (lit "{}") (lit "package.json") Examples.worker_defaults = [issue]
    /\ message issue
       = lit "**GHSA-jf85-cpcp-j695**: Prototype Pollution in lodash (lodash@4.17.11)"
    /\ message issue <> Notions.spec_issue_message Examples.advisory Examples.lodash.
Proof.
  eexists. split; [vm_compute; reflexivity|].
  split; [vm_compute; reflexivity|].
  vm_compute. discriminate.
Qed.

(* ------------------------------------------------------------------ *)
(** ** The model on the repository's tests *)
(* ------------------------------------------------------------------ *)

Example parseDiff_sample :
  Examples.summary_of (DiffParser.parseDiff Examples.SAMPLE_DIFF)
  = Some [ (DiffParser.modify, Some (lit "src/utils.ts"), Some (lit "src/utils.ts"),
            false, 2%Z, 1%Z,
            [ (10%Z, 10%Z, [12%Z; 13%Z], []); (20%Z, 22%Z, [], [21%Z]) ]) ].
Proof. vm_compute. reflexivity. Qed.

Example calculateRiskScore_empty :
  RiskScorer.calculateRiskScore [] RiskScorer.no_config
  = {| RiskScorer.score := 0; RiskScorer.level := RiskScorer.risk_low;
       RiskScorer.breakdown := []; RiskScorer.rawScore := 0;
       RiskScorer.maxPossibleScore := 20 * 15 * 4 |}.
Proof. reflexivity. Qed.

Example calculateRiskScore_breakdown :
  map (fun b => (RiskScorer.b_category b, RiskScorer.count b, RiskScorer.max_severity b))
      (RiskScorer.breakdown
         (RiskScorer.calculateRiskScore
            [ Examples.issue_of security high (9 # 10);
              Examples.issue_of security medium (8 # 10);
              Examples.issue_of correctness low (7 # 10) ]
            RiskScorer.no_config))
  = [ (lit "security", 2%Z, lit "high"); (lit "correctness", 1%Z, lit "low") ].
Proof. vm_compute. reflexivity. Qed.

Example shouldFailCheck_critical_security :
  RiskScorer.shouldFailCheck
    (RiskScorer.calculateRiskScore
       [Examples.issue_of security critical (3 # 10)] RiskScorer.no_config)
    (Some 85%Q) (Some true)
  = true.
Proof. vm_compute. reflexivity. Qed.

Example sortIssuesByPriority_descending :
  map (fun i => (category i, severity i))
      (RiskScorer.sortIssuesByPriority
         [ Examples.issue_of style low (5 # 10);
           Examples.issue_of security critical 1;
           Examples.issue_of correctness medium (8 # 10) ])
  = [ (security, critical); (correctness, medium); (style, low) ].
Proof. vm_compute. reflexivity. Qed.

(* ------------------------------------------------------------------ *)
(** ** The properties at concrete inputs *)
(* ------------------------------------------------------------------ *)

Lemma formatInlineComment_length_bound_witness :
  (3 <= Formatter.maxInlineChars (Formatter.merge_config Formatter.no_overrides))%Z
  /\ (len (Formatter.formatInlineComment
             (Examples.issue_of security high (9 # 10)) Formatter.no_overrides)
      <= 900)%Z.
Proof.
  assert (H : (3 <= Formatter.maxInlineChars
                      (Formatter.merge_config Formatter.no_overrides))%Z)
    by (vm_compute; discriminate).
  split; [exact H|].
  exact (proj2 (formatInlineComment_length_bound
                  (Examples.issue_of security high (9 # 10))
                  Formatter.no_overrides H) eq_refl).
Defined.

Lemma calculateRiskScore_monotone_witness :
  Notions.confidence_in_range (Examples.issue_of style low (1 # 2))
  /\ Notions.confidence_in_range (Examples.issue_of security critical 1)
  /\ (RiskScorer.score
        (RiskScorer.calculateRiskScore
           [Examples.issue_of style low (1 # 2)] RiskScorer.no_config)
      <= RiskScorer.score
           (RiskScorer.calculateRiskScore
              ([Examples.issue_of style low (1 # 2)]
                 ++ [Examples.issue_of security critical 1])
              RiskScorer.no_config))%Q.
Proof.
  assert (Ha : Notions.confidence_in_range (Examples.issue_of style low (1 # 2)))
    by (split; vm_compute; discriminate).
  assert (Hb : Notions.confidence_in_range (Examples.issue_of security critical 1))
    by (split; vm_compute; discriminate).
  split; [exact Ha|]. split; [exact Hb|].
  apply calculateRiskScore_monotone; [|exact Hb].
  intros x [<-|[]]. exact Ha.
Defined.

Lemma aggregateIssues_risk_on_all_witness :
  (0 <= maxInlineComments Examples.worker_defaults)%Z
  /\ Aggregator.inlineComments
       (Aggregator.aggregateIssues
          [Examples.issue_of style low (6 # 10);
           Examples.issue_of security critical 1]
          Examples.worker_defaults)
     = firstn 10
         (RiskScorer.sortIssuesByPriority
            (Aggregator.allIssues
               (Aggregator.aggregateIssues
                  [Examples.issue_of style low (6 # 10);
                   Examples.issue_of security critical 1]
                  Examples.worker_defaults))).
Proof.
  assert (H : (0 <= maxInlineComments Examples.worker_defaults)%Z)
    by (vm_compute; discriminate).
  split; [exact H|].
  pose proof (aggregateIssues_risk_on_all
                [Examples.issue_of style low (6 # 10);
                 Examples.issue_of security critical 1]
                Examples.worker_defaults) as T.
  cbv zeta in T. destruct T as (_ & _ & _ & T & _). exact (T H).
Defined.

Lemma signature_verification_witness :
  Webhook.signatureMiddleware Examples.fixed_digest (lit "secret")
    (Examples.signed_request (lit "sha256=bad"))
  = Webhook.Respond 401 (lit "Invalid signature")
  /\ Webhook.signatureMiddleware Examples.fixed_digest (lit "secret")
       (Examples.signed_request (lit "sha256=ab01f0"))
     = Webhook.Next
  /\ Webhook.signatureMiddleware Examples.fixed_digest (lit "secret")
       Examples.unsigned_request
     = Webhook.Respond 401 (lit "Missing signature header")
  /\ Webhook.verifySignature Examples.fixed_digest (lit "{}") (lit "sha256=ab01f") (lit "secret")
     = false.
Proof.
  destruct (signature_verification Examples.fixed_digest) as (_ & Hlen & Hmid & Hmiss).
  split; [|split; [|split]].
  - apply (proj1 (Hmid (lit "secret") (Examples.signed_request (lit "sha256=bad"))
                       (lit "sha256=bad") (lit "{}") eq_refl eq_refl)).
    vm_compute. discriminate.
  - apply (proj2 (Hmid (lit "secret") (Examples.signed_request (lit "sha256=ab01f0"))
                       (lit "sha256=ab01f0") (lit "{}") eq_refl eq_refl)).
    vm_compute. reflexivity.
  - apply Hmiss. intros signature. discriminate.
  - apply Hlen. vm_compute. discriminate.
Defined.

Lemma parseDiff_lenient_witness :
  Forall (fun line => DiffParser.DIFF_HEADER_REGEX line = None)
         [lit "@@ -1,1 +1,1 @@"; lit "+orphan"]
  /\ DiffParser.parse_lines
       ([lit "@@ -1,1 +1,1 @@"; lit "+orphan"] ++ split_on 10%N Examples.two_headers)
     = Returns Examples.two_small_files.
Proof.
  assert (H : Forall (fun line => DiffParser.DIFF_HEADER_REGEX line = None)
                     [lit "@@ -1,1 +1,1 @@"; lit "+orphan"])
    by (repeat constructor).
  split; [exact H|].
  rewrite (proj2 parseDiff_lenient _ (split_on 10%N Examples.two_headers) H).
  vm_compute. reflexivity.
Defined.

Lemma scanDependencies_reports_witness :
  enableOsvScan Examples.worker_defaults = true
  /\ Forall2
       (Notions.reports Examples.score_9_1 (lit "package.json")
          (fun vuln dep =>
             lit "**" ++ Osv.vuln_id vuln ++ lit "**: " ++ Osv.summary vuln
               ++ lit " (" ++ Osv.name dep ++ lit "@" ++ Osv.version dep ++ lit ")"))
       (Osv.scanDependencies Examples.score_9_1 Examples.uuid_of Examples.one_advisory
          Examples.only_lodash Examples.only_lodash Examples.only_lodash
          (lit "{}") (lit "package.json") Examples.worker_defaults)
       (Notions.queried Examples.one_advisory
          (Osv.select_deps Examples.only_lodash Examples.only_lodash Examples.only_lodash
             (lit "{}") (lit "package.json"))).
Proof.
  split; [reflexivity|].
  apply (proj1 (scanDependencies_reports Examples.score_9_1 Examples.uuid_of
                  Examples.one_advisory Examples.only_lodash Examples.only_lodash
                  Examples.only_lodash (lit "{}") (lit "package.json")
                  Examples.worker_defaults)).
  reflexivity.
Defined.

(* ------------------------------------------------------------------ *)
(** ** Aggregator: what deduplication keeps *)
(* ------------------------------------------------------------------ *)

Section OMapUpdates.
Context {K V : Type}.
Variable eqb : K -> K -> bool.
Hypothesis eqb_eq : forall a b, eqb a b = true <-> a = b.

Lemma set_in_key (k : K) (v : V) (m : OMap.t (K:=K) (V:=V)) :
  In (k, v) (OMap.set eqb k v m).
Proof.
  induction m as [|[k' v'] m IH]; simpl; [now left|].
  destruct (eqb k' k) eqn:E; simpl; [|now right].
  apply eqb_eq in E. subst k'. now left.
Qed.

Lemma set_in_other (k k' : K) (v v' : V) (m : OMap.t (K:=K) (V:=V)) :
  k' <> k -> In (k', v') m -> In (k', v') (OMap.set eqb k v m).
Proof.
  intros Hne. induction m as [|[k0 v0] m IH]; simpl; [tauto|].
  intros [H|H].
  - injection H as -> ->. destruct (eqb k' k) eqn:E; simpl; [|now left].
    apply eqb_eq in E. contradiction.
  - destruct (eqb k0 k); simpl; right; auto.
Qed.

Lemma set_length (k : K) (v : V) (m : OMap.t (K:=K) (V:=V)) :
  (length (OMap.set eqb k v m) <= S (length m))%nat.
Proof.
  induction m as [|[k0 v0] m IH]; simpl; [lia|].
  destruct (eqb k0 k); simpl; lia.
Qed.

Lemma in_keys_existsb (k : K) (ks : list K) :
  existsb (eqb k) ks = true <-> In k ks.
Proof.
  rewrite existsb_exists. split.
  - intros (x & Hx & E). apply eqb_eq in E. now subst x.
  - intros H. exists k. split; [exact H|now apply eqb_eq].
Qed.
End OMapUpdates.

Section DedupFacts.
Import RiskScorer Aggregator Notions.

Lemma dedupe_step_keys seen (issue : Issue) :
  OMap.keys (dedupe_step seen issue) = add_key (OMap.keys seen) (createDedupeKey issue).
Proof.
  unfold dedupe_step, add_key.
  destruct (OMap.get str_eqb (createDedupeKey issue) seen) as [existing|] eqn:G.
  - assert (Hin : In (createDedupeKey issue) (OMap.keys seen)).
    { apply (get_some_in str_eqb str_eqb_eq) in G.
      change (createDedupeKey issue) with (fst (createDedupeKey issue, existing)).
      now apply in_map. }
    rewrite (proj2 (in_keys_existsb str_eqb str_eqb_eq _ _) Hin).
    destruct (shouldReplace existing issue); [|reflexivity].
    apply keys_set_present; [exact str_eqb_eq|exact Hin].
  - apply (get_none str_eqb str_eqb_eq) in G.
    destruct (existsb (str_eqb (createDedupeKey issue)) (OMap.keys seen)) eqn:E.
    + apply (in_keys_existsb str_eqb str_eqb_eq) in E. contradiction.
    + rewrite (set_absent str_eqb str_eqb_eq) by exact G.
      unfold OMap.keys. rewrite map_app. reflexivity.
Qed.

Lemma fold_dedupe_keys (issues : list Issue) seen :
  OMap.keys (fold_left dedupe_step issues seen)
  = fold_left add_key (map createDedupeKey issues) (OMap.keys seen).
Proof.
  revert seen. induction issues as [|x l IH]; intros seen; simpl; [reflexivity|].
  now rewrite IH, dedupe_step_keys.
Qed.

Lemma dedupe_step_values (P : Issue -> Prop) seen (issue : Issue) :
  (forall k v, In (k, v) seen -> P v) -> P issue ->
  forall k v, In (k, v) (dedupe_step seen issue) -> P v.
Proof.
  intros Hseen Hissue k v. unfold dedupe_step.
  assert (S : In (k, v) (OMap.set str_eqb (createDedupeKey issue) issue seen) -> P v).
  { clear - Hseen Hissue. induction seen as [|[k0 v0] m IH]; simpl.
    - intros [H|[]]. now injection H as <- <-.
    - destruct (str_eqb k0 (createDedupeKey issue)); simpl; intros [H|H].
      + now injection H as <- <-.
      + apply (Hseen k v). now right.
      + injection H as <- <-. apply (Hseen k0 v0). now left.
      + apply IH; [|exact H]. intros k' v' H'. apply (Hseen k' v'). now right. }
  destruct (OMap.get str_eqb (createDedupeKey issue) seen) as [existing|];
    [destruct (shouldReplace existing issue)|]; auto.
  apply Hseen.
Qed.

Lemma fold_dedupe_values (P : Issue -> Prop) (issues : list Issue) seen :
  (forall k v, In (k, v) seen -> P v) -> (forall i, In i issues -> P i) ->
  forall k v, In (k, v) (fold_left dedupe_step issues seen) -> P v.
Proof.
  revert seen. induction issues as [|x l IH]; intros seen Hseen Hl; simpl.
  - exact Hseen.
  - apply IH.
    + apply dedupe_step_values; [exact Hseen|]. apply Hl. now left.
    + intros i Hi. apply Hl. now right.
Qed.

Lemma dedupe_step_length seen (issue : Issue) :
  (length (dedupe_step seen issue) <= S (length seen))%nat.
Proof.
  unfold dedupe_step.
  destruct (OMap.get str_eqb (createDedupeKey issue) seen) as [existing|];
    [destruct (shouldReplace existing issue)|];
    try apply set_length; lia.
Qed.

Lemma fold_dedupe_length (issues : list Issue) seen :
  (length (fold_left dedupe_step issues seen) <= length seen + length issues)%nat.
Proof.
  revert seen. induction issues as [|x l IH]; intros seen; simpl; [lia|].
  pose proof (IH (dedupe_step seen x)). pose proof (dedupe_step_length seen x). lia.
Qed.

(** The replacement order is irreflexive and transitive in the form the
    loop needs. *)
Lemma shouldReplace_irrefl (i : Issue) : shouldReplace i i = false.
Proof.
  destruct (shouldReplace i i) eqn:E; [|reflexivity].
  apply shouldReplace_iff in E. destruct E as [E|[_ E]].
  - lia.
  - exfalso. now apply (Qlt_irrefl (confidence i)).
Qed.

Lemma shouldReplace_chain (e n i : Issue) :
  shouldReplace e n = true -> shouldReplace e i = false -> shouldReplace n i = false.
Proof.
  intros Hen Hei. destruct (shouldReplace n i) eqn:Hni; [|reflexivity].
  exfalso. apply shouldReplace_iff in Hen. apply shouldReplace_iff in Hni.
  assert (N : ~ ((severityOrder (severity e) < severityOrder (severity i))%Z
                 \/ (severity i = severity e /\ (confidence e < confidence i)%Q))).
  { intros C. apply shouldReplace_iff in C. congruence. }
  apply N. destruct Hen as [Hen|[Hs Hc]], Hni as [Hni|[Hs' Hc']].
  - left. lia.
  - left. rewrite Hs'. exact Hen.
  - left. rewrite <- Hs. exact Hni.
  - right. split; [congruence|]. now apply Qlt_trans with (confidence n).
Qed.

Lemma dedupe_step_represented seen (issue i : Issue) :
  seen_inv seen ->
  (i = issue \/ represented seen i) ->
  represented (dedupe_step seen issue) i.
Proof.
  intros [ND Hkeys] Hi. unfold dedupe_step.
  destruct (OMap.get str_eqb (createDedupeKey issue) seen) as [existing|] eqn:G.
  - pose proof (get_some_in str_eqb str_eqb_eq _ _ _ G) as Hex.
    destruct (shouldReplace existing issue) eqn:R.
    + destruct Hi as [->|(o & Ho & Hoi)].
      * exists issue. split; [apply set_in_key; exact str_eqb_eq|apply shouldReplace_irrefl].
      * destruct (str_eqb (createDedupeKey i) (createDedupeKey issue)) eqn:E.
        -- apply str_eqb_eq in E. exists issue. split.
           ++ rewrite E. apply set_in_key. exact str_eqb_eq.
           ++ rewrite E in Ho.
              assert (o = existing).
              { apply (in_get_some str_eqb str_eqb_eq _ _ _ ND) in Ho. congruence. }
              subst o. now apply shouldReplace_chain with existing.
        -- exists o. split; [|exact Hoi].
           apply set_in_other; [exact str_eqb_eq| |exact Ho].
           intros C. apply str_eqb_eq in C. congruence.
    + destruct Hi as [->|H]; [|exact H].
      exists existing. split; assumption.
  - apply (get_none str_eqb str_eqb_eq) in G.
    rewrite (set_absent str_eqb str_eqb_eq) by exact G.
    destruct Hi as [->|(o & Ho & Hoi)].
    + exists issue. split; [apply in_or_app; right; now left|apply shouldReplace_irrefl].
    + exists o. split; [apply in_or_app; now left|exact Hoi].
Qed.

Lemma fold_dedupe_represented (issues : list Issue) seen (i : Issue) :
  seen_inv seen ->
  (In i issues \/ represented seen i) ->
  represented (fold_left dedupe_step issues seen) i.
Proof.
  revert seen. induction issues as [|x l IH]; intros seen Hinv Hi; simpl.
  - destruct Hi as [[]|H]. exact H.
  - apply IH; [now apply dedupe_step_inv|].
    destruct Hi as [[->|Hi]|Hi].
    + right. apply dedupe_step_represented; [exact Hinv|now left].
    + now left.
    + right. apply dedupe_step_represented; [exact Hinv|now right].
Qed.

Lemma empty_seen_inv : seen_inv (OMap.empty (K:=jsstring) (V:=Issue)).
Proof. split; [constructor|intros k v []]. Qed.

(** The output of deduplication holds one issue per key of the input, an
    issue of the input, in the order in which the keys first occur. *)
Theorem deduplicateIssues_one_per_key :
  forall X : list Issue,
    NoDup (map createDedupeKey (deduplicateIssues X))
    /\ map createDedupeKey (deduplicateIssues X)
       = first_occurrences (map createDedupeKey X)
    /\ (forall o, In o (deduplicateIssues X) -> In o X)
    /\ (length (deduplicateIssues X) <= length X)%nat.
Proof.
  intros X. unfold deduplicateIssues.
  pose proof (fold_dedupe_inv X _ empty_seen_inv) as I.
  split; [|split; [|split]].
  - rewrite (keys_of_values _ I). apply I.
  - rewrite (keys_of_values _ I), fold_dedupe_keys. reflexivity.
  - intros o Ho. unfold OMap.values in Ho. apply in_map_iff in Ho.
    destruct Ho as ([k v] & <- & Hin). simpl.
    apply (fold_dedupe_values (fun v => In v X) X OMap.empty) with (k := k);
      [intros ? ? []|auto|exact Hin].
  - unfold OMap.values. rewrite length_map.
    pose proof (fold_dedupe_length X OMap.empty) as L. simpl in L. exact L.
Qed.

(** Every issue of the input is represented in the output by an issue of
    the same key that it would not replace: none of the input has a higher
    severity, or the same severity and a higher confidence. *)
Theorem deduplicateIssues_keeps_best :
  forall (X : list Issue) (i : Issue),
    In i X ->
    exists o, In o (deduplicateIssues X)
              /\ createDedupeKey o = createDedupeKey i
              /\ shouldReplace o i = false
              /\ ((severityOrder (severity i) < severityOrder (severity o))%Z
                  \/ (severity i = severity o /\ (confidence i <= confidence o)%Q)).
Proof.
  intros X i Hi.
  pose proof (fold_dedupe_inv X _ empty_seen_inv) as I.
  destruct (fold_dedupe_represented X OMap.empty i empty_seen_inv (or_introl Hi))
    as (o & Ho & Hoi).
  exists o. split; [|split; [|split]].
  - unfold deduplicateIssues, OMap.values.
    change o with (snd (createDedupeKey i, o)). now apply in_map.
  - symmetry. now apply (proj2 I).
  - exact Hoi.
  - assert (N : ~ ((severityOrder (severity o) < severityOrder (severity i))%Z
                   \/ (severity i = severity o /\ (confidence o < confidence i)%Q))).
    { intros C. apply shouldReplace_iff in C. congruence. }
    destruct (Z.lt_trichotomy (severityOrder (severity i)) (severityOrder (severity o)))
      as [L|[E|G]].
    + now left.
    + right. assert (Es : severity i = severity o)
        by (destruct (severity i), (severity o); simpl in E; try reflexivity; lia).
      split; [exact Es|]. apply Qnot_lt_le. intros C. apply N. right. now split.
    + exfalso. apply N. left. lia.
Qed.
End DedupFacts.

(* ------------------------------------------------------------------ *)
(** ** Aggregator: the stages shrink the list *)
(* ------------------------------------------------------------------ *)

Section AggregationStages.
Import RiskScorer Aggregator Notions.

Lemma firstn_incl {A : Type} (n : nat) (l : list A) (x : A) :
  In x (firstn n l) -> In x l.
Proof.
  revert l. induction n as [|n IH]; intros [|y l]; simpl; try tauto.
  intros [H|H]; [now left|right; now apply IH].
Qed.

Lemma skipn_incl {A : Type} (n : nat) (l : list A) (x : A) :
  In x (skipn n l) -> In x l.
Proof.
  revert l. induction n as [|n IH]; intros [|y l]; simpl; try tauto.
  intros H. right. now apply IH.
Qed.

Lemma slice_incl {A : Type} (l : list A) (a b : Z) (x : A) :
  In x (slice l a b) -> In x l.
Proof. unfold slice. intros H. apply firstn_incl in H. now apply skipn_incl in H. Qed.

Lemma slice_length_le {A : Type} (l : list A) (a b : Z) :
  (length (slice l a b) <= length l)%nat.
Proof. unfold slice. rewrite length_firstn, length_skipn. lia. Qed.

Lemma deduplicateIssues_length_le (issues : list Issue) :
  (length (deduplicateIssues issues) <= length issues)%nat.
Proof.
  unfold deduplicateIssues, OMap.values. rewrite length_map.
  pose proof (fold_dedupe_length issues OMap.empty) as L. simpl in L. exact L.
Qed.

(** The counts reported by an aggregation decrease from stage to stage,
    the selection respects [maxInlineComments], the inline comments are
    among the issues kept, and every issue kept comes from the input with
    a confidence that reaches the threshold. *)
Theorem aggregateIssues_stages :
  forall (issues : list Issue) (config : WorkerConfig),
    let r := aggregateIssues issues config in
    (selected (stats r) <= afterFiltering (stats r)
     /\ afterFiltering (stats r) <= afterDedup (stats r)
     /\ afterDedup (stats r) <= totalFound (stats r))%Z
    /\ totalFound (stats r) = len_of issues
    /\ afterFiltering (stats r) = len_of (allIssues r)
    /\ selected (stats r) = len_of (inlineComments r)
    /\ ((0 <= maxInlineComments config)%Z ->
        (selected (stats r) <= maxInlineComments config)%Z)
    /\ (forall i, In i (inlineComments r) -> In i (allIssues r))
    /\ (forall i, In i (allIssues r) ->
          In i issues /\ (confidenceThreshold config <= confidence i)%Q).
Proof.
  intros issues config r. subst r. unfold aggregateIssues.
  cbn [stats selected afterFiltering afterDedup totalFound allIssues inlineComments].
  unfold len_of.
  set (D := deduplicateIssues issues).
  set (F := filter _ D).
  set (S := sortIssuesByPriority F).
  assert (HD : (length D <= length issues)%nat)
    by (subst D; apply deduplicateIssues_length_le).
  assert (HF : (length F <= length D)%nat) by (subst F; apply filter_length_le).
  assert (HS : length S = length F).
  { subst S. apply Permutation_length. apply sort_by_perm. }
  pose proof (slice_length_le S 0 (maxInlineComments config)) as Hsel.
  split; [lia|]. split; [reflexivity|]. split; [reflexivity|]. split; [reflexivity|].
  split; [|split].
  - intros Hn. rewrite slice_firstn by exact Hn. rewrite length_firstn. lia.
  - intros i Hi. apply slice_incl in Hi.
    subst S. unfold sortIssuesByPriority in Hi.
    eapply Permutation_in; [apply sort_by_perm|exact Hi].
  - intros i Hi. subst F. apply filter_In in Hi. destruct Hi as [Hi Hc]. split.
    + subst D. unfold deduplicateIssues, OMap.values in Hi.
      apply in_map_iff in Hi. destruct Hi as ([k v] & <- & Hin). simpl.
      apply (fold_dedupe_values (fun v => In v issues) issues OMap.empty) with (k := k);
        [intros ? ? []|auto|exact Hin].
    + unfold Qgeb in Hc. now apply Qle_bool_iff.
Qed.
End AggregationStages.

(* ------------------------------------------------------------------ *)
(** ** Risk scorer: the range of the score, the level, the breakdown *)
(* ------------------------------------------------------------------ *)

Section ScoreFacts.
Import RiskScorer ReviewOutputSchema Notions.

Lemma Qle_bool_comp (c x y : Q) : (x == y)%Q -> Qle_bool c x = Qle_bool c y.
Proof.
  intros E. destruct (Qle_bool c x) eqn:A, (Qle_bool c y) eqn:B; try reflexivity.
  - apply Qle_bool_iff in A. rewrite E in A. apply Qle_bool_iff in A. congruence.
  - apply Qle_bool_iff in B. rewrite <- E in B. apply Qle_bool_iff in B. congruence.
Qed.

Lemma getRiskLevel_comp (x y : Q) : (x == y)%Q -> getRiskLevel x = getRiskLevel y.
Proof.
  intros E. unfold getRiskLevel, Qgeb.
  now rewrite (Qle_bool_comp 85 x y E), (Qle_bool_comp 60 x y E), (Qle_bool_comp 30 x y E).
Qed.

Lemma Math_round_cap (z : Q) : (Math_round (Math_min 100 z) <= 100)%Q.
Proof.
  unfold Math_round, Math_min.
  pose proof (Q.le_min_l 100 z) as M.
  pose proof (Qfloor_le (Qmin 100 z + (1 # 2))) as F.
  assert (H : (inject_Z (Qfloor (Qmin 100 z + (1 # 2))) <= 201 # 2)%Q) by lra.
  match goal with
  | |- (inject_Z ?a <= _)%Q => change (inject_Z a <= inject_Z 100)%Q
  end.
  rewrite <- Zle_Qle.
  unfold Qle in H. cbn [inject_Z Qnum Qden] in H. lia.
Qed.

Lemma finalScore_of (issues : list Issue) (config : PartialScoreConfig) :
  exists finalScore : Z,
    score (calculateRiskScore issues config) = Math_min 100 (inject_Z finalScore)
    /\ level (calculateRiskScore issues config) = level_of (inject_Z finalScore)
    /\ (finalScore <= 100)%Z
    /\ finalScore
       = Qfloor (Math_min 100
           (Math_min 100 (rawScore (calculateRiskScore issues config)
                          / maxPossibleScore (calculateRiskScore issues config) * 100)
            * (11 # 10)) + (1 # 2))%Q.
Proof.
  unfold calculateRiskScore.
  destruct (fold_left _ (group_by_category issues) ([], 0%Q)) as [b0 total].
  cbn [score level rawScore maxPossibleScore].
  eexists. split; [reflexivity|]. split; [reflexivity|]. split; [|reflexivity].
  match goal with |- (Qfloor (?a + _) <= 100)%Z =>
    pose proof (Math_round_cap
      (Math_min 100 (total / (nullish (maxExpectedIssues config) DEFAULT_maxExpectedIssues
                              * SEVERITY_WEIGHTS critical * CATEGORY_WEIGHTS security)
                     * 100) * (11 # 10))) as C end.
  unfold Math_round in C. rewrite Zle_Qle. exact C.
Qed.

Lemma Math_min_integer (n : Z) : (n <= 100)%Z -> Math_min 100 (inject_Z n) = inject_Z n.
Proof.
  intros H. unfold Math_min, Qmin, GenericMinMax.gmin.
  assert (C : (100 ?= inject_Z n)%Q = (100 ?= n)%Z).
  { unfold Qcompare. cbn [inject_Z Qnum Qden]. now rewrite !Z.mul_1_r. }
  rewrite C. destruct (Z.compare_spec 100 n) as [E|L|G].
  - now subst n.
  - lia.
  - reflexivity.
Qed.

(** The level that [calculateRiskScore] reports is the one [getRiskLevel]
    gives for the score it reports. *)
Theorem calculateRiskScore_level_of_score :
  forall (issues : list Issue) (config : PartialScoreConfig),
    level (calculateRiskScore issues config)
    = getRiskLevel (score (calculateRiskScore issues config)).
Proof.
  intros issues config.
  destruct (finalScore_of issues config) as (n & Hs & Hl & Hn & _).
  rewrite Hs, Hl, (Math_min_integer n Hn). reflexivity.
Qed.

(** [getRiskLevel] cuts the scores at 30, 60 and 85, each bound belonging
    to the level above it. *)
Theorem getRiskLevel_intervals :
  forall s : Q,
    (getRiskLevel s = risk_critical <-> (85 <= s)%Q)
    /\ (getRiskLevel s = risk_high <-> (60 <= s)%Q /\ (s < 85)%Q)
    /\ (getRiskLevel s = risk_medium <-> (30 <= s)%Q /\ (s < 60)%Q)
    /\ (getRiskLevel s = risk_low <-> (s < 30)%Q).
Proof.
  intros s. unfold getRiskLevel, Qgeb.
  destruct (Qle_bool 85 s) eqn:A; [|destruct (Qle_bool 60 s) eqn:B;
    [|destruct (Qle_bool 30 s) eqn:C]].
  - apply Qle_bool_iff in A. repeat split; try discriminate; try tauto; intros; lra.
  - assert (A' : (s < 85)%Q)
      by (apply Qnot_le_lt; intros H; apply Qle_bool_iff in H; congruence).
    apply Qle_bool_iff in B. repeat split; try discriminate; try tauto; intros; lra.
  - assert (A' : (s < 85)%Q)
      by (apply Qnot_le_lt; intros H; apply Qle_bool_iff in H; congruence).
    assert (B' : (s < 60)%Q)
      by (apply Qnot_le_lt; intros H; apply Qle_bool_iff in H; congruence).
    apply Qle_bool_iff in C. repeat split; try discriminate; try tauto; intros; lra.
  - assert (C' : (s < 30)%Q)
      by (apply Qnot_le_lt; intros H; apply Qle_bool_iff in H; congruence).
    repeat split; try discriminate; try tauto; intros; lra.
Qed.

Lemma default_total_nonneg (issues : list Issue) :
  (forall i, In i issues -> (0 <= confidence i)%Q) ->
  (0 <= groups_total (spread SEVERITY_WEIGHTS None) (spread CATEGORY_WEIGHTS None)
          (group_by_category issues))%Q.
Proof.
  induction issues as [|i issues IH] using rev_ind; intros H.
  - discriminate.
  - rewrite group_by_category_snoc, groups_total_push.
    assert (Hi : (0 <= confidence i)%Q)
      by (apply H; apply in_or_app; right; now left).
    assert (W := default_weight_nonneg (category i) i Hi).
    assert (T : (0 <= groups_total (spread SEVERITY_WEIGHTS None)
                       (spread CATEGORY_WEIGHTS None) (group_by_category issues))%Q).
    { apply IH. intros x Hx. apply H. apply in_or_app. now left. }
    lra.
Qed.

(** With the default configuration and confidences that are not negative,
    the score is a whole number from 0 to 100. *)
Theorem calculateRiskScore_range :
  forall issues : list Issue,
    (forall i, In i issues -> (0 <= confidence i)%Q) ->
    exists n : Z,
      score (calculateRiskScore issues no_config) = inject_Z n
      /\ (0 <= n <= 100)%Z.
Proof.
  intros issues Hconf.
  destruct (finalScore_of issues no_config) as (n & Hs & _ & Hn & Hfinal).
  exists n. split; [rewrite Hs; now apply Math_min_integer|]. split; [|exact Hn].
  assert (R : (0 <= rawScore (calculateRiskScore issues no_config))%Q).
  { rewrite rawScore_total. now apply default_total_nonneg. }
  rewrite maxPossibleScore_default in Hfinal.
  set (raw := rawScore (calculateRiskScore issues no_config)) in *.
  assert (N : (0 <= Math_min 100 (Math_min 100 (raw / (20 * 15 * 4) * 100) * (11 # 10)))%Q).
  { unfold Math_min. apply Q.min_glb; [discriminate|].
    apply Qmult_le_0_compat; [|discriminate].
    apply Q.min_glb; [discriminate|].
    apply Qmult_le_0_compat; [|discriminate].
    unfold Qdiv. apply Qmult_le_0_compat; [exact R|discriminate]. }
  rewrite Hfinal. change 0%Z with (Qfloor 0). apply Qfloor_resp_le. lra.
Qed.
End ScoreFacts.

Section BreakdownFacts.
Import RiskScorer Notions.

Lemma group_by_category_nonempty (issues : list Issue) :
  forall c g, In (c, g) (group_by_category issues) -> g <> [].
Proof.
  induction issues as [|i issues IH] using rev_ind; [intros c g []|].
  rewrite group_by_category_snoc. intros c g Hin. unfold group_push in Hin.
  apply (in_set category_eqb category_eqb_eq) in Hin;
    [|apply group_by_category_inv].
  destruct Hin as [[_ ->]|[_ Hin]].
  - intros C. apply app_eq_nil in C. destruct C as [_ C]. discriminate C.
  - now apply (IH c g).
Qed.

Lemma groups_size_push groups (i : Issue) :
  groups_size (group_push groups i) = (groups_size groups + 1)%Z.
Proof.
  unfold group_push. induction groups as [|[c g] groups IH]; simpl; [reflexivity|].
  destruct (category_eqb c (category i)); simpl.
  - rewrite length_app. simpl. lia.
  - rewrite IH. lia.
Qed.

Lemma groups_size_all (issues : list Issue) :
  groups_size (group_by_category issues) = len_of issues.
Proof.
  unfold len_of. induction issues as [|i issues IH] using rev_ind; [reflexivity|].
  rewrite group_by_category_snoc, groups_size_push, IH, length_app. simpl. lia.
Qed.

Lemma total_count_perm (l l' : list CategoryBreakdown) :
  Permutation l l' -> total_count l = total_count l'.
Proof. induction 1; simpl; lia. Qed.

Lemma total_count_entries sw cw groups :
  total_count (map (breakdown_entry sw cw) groups) = groups_size groups.
Proof.
  induction groups as [|[c g] groups IH]; simpl; [reflexivity|].
  destruct (fold_left (issue_step sw cw c) g (0%Q, low)) as [cs ms]. simpl.
  now rewrite IH.
Qed.

Lemma entry_category sw cw (c : IssueCategory) (g : list Issue) :
  b_category (breakdown_entry sw cw (c, g)) = category_name c
  /\ count (breakdown_entry sw cw (c, g)) = Z.of_nat (length g).
Proof.
  unfold breakdown_entry.
  destruct (fold_left (issue_step sw cw c) g (0%Q, low)) as [cs ms]. now split.
Qed.

Lemma NoDup_map_inj {A B : Type} (f : A -> B) (l : list A) :
  (forall a b, f a = f b -> a = b) -> NoDup l -> NoDup (map f l).
Proof.
  intros Hinj. induction 1 as [|x l Hx _ IH]; simpl; constructor; [|exact IH].
  intros Hin. apply in_map_iff in Hin. destruct Hin as (y & E & Hy).
  apply Hinj in E. now subst y.
Qed.

(** A sort by descending key leaves the list ordered by that key. *)
Lemma insert_by_key_sorted {A : Type} (key : A -> Q) (x : A) (l : list A) :
  StronglySorted (fun a b => key b <= key a)%Q l ->
  StronglySorted (fun a b => key b <= key a)%Q
    (insert_by (fun a b => key b - key a)%Q x l).
Proof.
  induction 1 as [|y l Hl IH Hy]; simpl.
  - constructor; constructor.
  - destruct (Qle_bool (key y - key x) 0) eqn:E.
    + apply Qle_bool_iff in E.
      constructor; [constructor; assumption|].
      constructor; [lra|].
      rewrite Forall_forall in Hy |- *. intros z Hz. specialize (Hy z Hz). lra.
    + assert (N : ~ (key y - key x <= 0)%Q)
        by (intros C; apply Qle_bool_iff in C; congruence).
      apply Qnot_le_lt in N.
      constructor; [exact IH|].
      rewrite Forall_forall in Hy |- *. intros z Hz.
      apply (Permutation_in _ (insert_by_perm _ x l)) in Hz.
      destruct Hz as [<-|Hz]; [lra|auto].
Qed.

Lemma sort_by_key_sorted {A : Type} (key : A -> Q) (l : list A) :
  StronglySorted (fun a b => key b <= key a)%Q
    (sort_by (fun a b => key b - key a)%Q l).
Proof.
  unfold sort_by. induction l as [|x l IH]; simpl; [constructor|].
  now apply insert_by_key_sorted.
Qed.

Lemma breakdown_sorted (issues : list Issue) (config : PartialScoreConfig) :
  StronglySorted by_contribution (breakdown (calculateRiskScore issues config)).
Proof.
  unfold calculateRiskScore.
  destruct (fold_left _ (group_by_category issues) ([], 0%Q)) as [b0 total].
  cbn [breakdown]. apply (sort_by_key_sorted score_contribution).
Qed.

(** The breakdown has one entry for each category that occurs among the
    issues, with the number of issues of that category; the counts add up
    to the number of issues, and the entries are in descending order of
    their score contribution. *)
Theorem breakdown_per_category :
  forall (issues : list Issue) (config : PartialScoreConfig),
    let bs := breakdown (calculateRiskScore issues config) in
    (forall b, In b bs ->
       exists c, b_category b = category_name c
                 /\ count b = issues_in c issues /\ (0 < count b)%Z)
    /\ (forall i, In i issues ->
          exists b, In b bs /\ b_category b = category_name (category i))
    /\ NoDup (map b_category bs)
    /\ total_count bs = len_of issues
    /\ StronglySorted by_contribution bs.
Proof.
  intros issues config bs. subst bs.
  pose proof (breakdown_of issues config) as P.
  pose proof (group_by_category_inv issues) as (ND & Hgroups & Hcover).
  set (sw := spread SEVERITY_WEIGHTS (severityWeights config)) in *.
  set (cw := spread CATEGORY_WEIGHTS (categoryWeights config)) in *.
  split; [|split; [|split; [|split]]].
  - intros b Hb. apply (Permutation_in _ P) in Hb. apply in_map_iff in Hb.
    destruct Hb as ([c g] & <- & Hg).
    destruct (entry_category sw cw c g) as [Hc Hn].
    exists c. split; [exact Hc|]. rewrite Hn. unfold issues_in.
    rewrite <- (Hgroups c g Hg). split; [reflexivity|].
    pose proof (group_by_category_nonempty issues c g Hg) as Hne.
    destruct g; [contradiction|simpl; lia].
  - intros i Hi. apply Hcover in Hi. unfold OMap.keys in Hi.
    apply in_map_iff in Hi. destruct Hi as ([c g] & Hk & Hg). simpl in Hk. subst c.
    exists (breakdown_entry sw cw (category i, g)). split.
    + apply (Permutation_in _ (Permutation_sym P)). now apply in_map.
    + apply entry_category.
  - apply (Permutation_NoDup (Permutation_sym (Permutation_map b_category P))).
    rewrite map_map.
    assert (E : map (fun x => b_category (breakdown_entry sw cw x))
                    (group_by_category issues)
                = map category_name (OMap.keys (group_by_category issues))).
    { unfold OMap.keys. rewrite map_map. apply map_ext. intros [c g].
      apply entry_category. }
    rewrite E. apply NoDup_map_inj; [|exact ND].
    intros a b. apply category_name_inj.
  - rewrite (total_count_perm _ _ P), total_count_entries. apply groups_size_all.
  - apply breakdown_sorted.
Qed.
End BreakdownFacts.

(* ------------------------------------------------------------------ *)
(** ** Chunker: the shape of the chunks *)
(* ------------------------------------------------------------------ *)

Section ChunkShape.
Import DiffParser Chunker Notions.

Lemma positions_snoc (n : nat) : positions (S n) = positions n ++ [Z.of_nat n].
Proof. unfold positions. rewrite seq_S, map_app. reflexivity. Qed.

Lemma createChunk_shape (cfg : ChunkConfig) (st : State) :
  chunker_shape cfg st -> chunker_shape cfg (createChunk st).
Proof.
  intros (Hidx & Hchunks & Hcur). unfold createChunk.
  destruct (currentFiles st) as [|f fs] eqn:E.
  - split; [exact Hidx|]. split; [exact Hchunks|]. now rewrite E.
  - split; [|split]; cbn [chunks currentFiles].
    + rewrite map_app, length_app, Hidx. cbn [map index length].
      rewrite Nat.add_1_r, positions_snoc. reflexivity.
    + apply Forall_app. split; [exact Hchunks|]. constructor; [|constructor].
      split; [reflexivity|exact Hcur].
    + unfold file_cap, len_of. simpl. lia.
Qed.

Lemma step_shape (cfg : ChunkConfig) (st : State) (file : DiffFile) :
  chunker_shape cfg st -> chunker_shape cfg (step cfg st file).
Proof.
  intros Hst. unfold step. cbv zeta.
  set (st1 := if (estimateTokens (formatDiffFileForLLM file) >? maxTokens cfg)%Z
                 && (len_of (currentFiles st) >? 0)%Z
              then createChunk st else st).
  assert (H1 : chunker_shape cfg st1).
  { subst st1. destruct (_ && _)%bool; [now apply createChunk_shape|exact Hst]. }
  clearbody st1.
  assert (Hflush : chunker_shape cfg
            {| chunks := chunks (createChunk st1);
               currentFiles := currentFiles (createChunk st1) ++ [file];
               currentContent :=
                 currentContent (createChunk st1) ++ [formatDiffFileForLLM file];
               currentTokens :=
                 (currentTokens (createChunk st1)
                  + estimateTokens (formatDiffFileForLLM file))%Z |}).
  { destruct (createChunk_shape cfg st1 H1) as (Hidx & Hchunks & _).
    split; [exact Hidx|]. split; [exact Hchunks|].
    cbn [currentFiles]. rewrite createChunk_flushed. unfold file_cap, len_of. simpl. lia. }
  destruct (currentTokens st1 + estimateTokens (formatDiffFileForLLM file)
            >? maxTokens cfg)%Z; cbn [orb]; [exact Hflush|].
  destruct (len_of (currentFiles st1) >=? maxFilesPerChunk cfg)%Z eqn:F;
    [exact Hflush|].
  destruct H1 as (Hidx & Hchunks & Hcur).
  split; [exact Hidx|]. split; [exact Hchunks|].
  cbn [currentFiles]. unfold file_cap, len_of in *. rewrite length_app. simpl.
  assert (Z.of_nat (length (currentFiles st1)) < maxFilesPerChunk cfg)%Z by lia.
  lia.
Qed.

Lemma fold_step_shape (cfg : ChunkConfig) (fs : list DiffFile) (st : State) :
  chunker_shape cfg st -> chunker_shape cfg (fold_left (step cfg) fs st).
Proof.
  revert st. induction fs as [|f fs IH]; intros st H; simpl; [exact H|].
  apply IH. now apply step_shape.
Qed.

Lemma initial_shape (cfg : ChunkConfig) : chunker_shape cfg initial.
Proof.
  split; [reflexivity|]. split; [constructor|]. unfold file_cap, len_of. simpl. lia.
Qed.

Lemma final_state (diff : ParsedDiff) (config : PartialChunkConfig) :
  files diff <> [] ->
  let st := createChunk (fold_left (step (merge_config config)) (files diff) initial) in
  chunkDiff diff config = map (with_totalChunks (len_of (chunks st))) (chunks st)
  /\ chunker_shape (merge_config config) st
  /\ chunker_inv (merge_config config) st
  /\ concat (map chunk_files (chunks st)) = files diff.
Proof.
  intros Hne st. split; [|split; [|split]].
  - unfold chunkDiff. destruct (len_of (files diff) =? 0)%Z eqn:E; [|reflexivity].
    apply Z.eqb_eq in E. unfold len_of in E. destruct (files diff); [contradiction|].
    discriminate E.
  - subst st. apply createChunk_shape, fold_step_shape, initial_shape.
  - subst st. apply createChunk_inv, fold_step_inv, initial_inv.
  - assert (P : placed st = files diff).
    { subst st. rewrite createChunk_placed, fold_step_placed. reflexivity. }
    assert (F : currentFiles st = []) by (subst st; apply createChunk_flushed).
    unfold placed in P. rewrite F, app_nil_r in P. exact P.
Qed.

Lemma concat_length_ge {A : Type} (ls : list (list A)) :
  Forall (fun l => l <> []) ls -> (length ls <= length (concat ls))%nat.
Proof.
  induction 1 as [|l ls Hl _ IH]; simpl; [lia|].
  rewrite length_app. destruct l; [contradiction|simpl; lia].
Qed.

(** The chunks are numbered from 0 in order, each records the number of
    chunks, the paths of its files, the text of its files joined by blank
    lines, and the token estimate of that text. *)
Theorem chunkDiff_metadata :
  forall (diff : ParsedDiff) (config : PartialChunkConfig),
    let cs := chunkDiff diff config in
    map index cs = positions (length cs)
    /\ Forall (fun c =>
                 totalChunks c = len_of cs
                 /\ filePaths c = map getFilePath (chunk_files c)
                 /\ chunk_content c
                    = join paragraph_break (map formatDiffFileForLLM (chunk_files c))
                 /\ estimatedTokens c = estimateTokens (chunk_content c))
              cs.
Proof.
  intros diff config cs. subst cs.
  destruct (files diff) as [|f fs] eqn:E.
  - unfold chunkDiff. rewrite E. simpl. split; [reflexivity|constructor].
  - assert (Hne : files diff <> []) by (rewrite E; discriminate).
    destruct (final_state diff config Hne) as (-> & (Hidx & Hshape & _) & (Hok & _) & _).
    set (st := createChunk _) in *. split.
    + rewrite map_map, length_map. cbn [index with_totalChunks]. exact Hidx.
    + apply Forall_map. rewrite Forall_forall in Hshape, Hok |- *.
      intros c Hc. cbn [with_totalChunks totalChunks filePaths chunk_files
                        chunk_content estimatedTokens].
      destruct (Hshape c Hc) as [Hp _]. destruct (Hok c Hc) as (_ & _ & Hcont & Hest).
      unfold len_of. rewrite length_map. repeat split; assumption.
Qed.

(** No chunk is empty, none holds more than [maxFilesPerChunk] files (one
    file when that is below one), there are at most as many chunks as
    files, and none exactly when the diff has no file. *)
Theorem chunkDiff_chunk_sizes :
  forall (diff : ParsedDiff) (config : PartialChunkConfig),
    let cs := chunkDiff diff config in
    Forall (fun c =>
              chunk_files c <> []
              /\ (len_of (chunk_files c) <= file_cap (merge_config config))%Z) cs
    /\ (length cs <= length (files diff))%nat
    /\ (cs = [] <-> files diff = []).
Proof.
  intros diff config cs. subst cs.
  destruct (files diff) as [|f fs] eqn:E.
  - unfold chunkDiff. rewrite E. simpl. split; [constructor|]. split; [lia|tauto].
  - assert (Hne : files diff <> []) by (rewrite E; discriminate).
    destruct (final_state diff config Hne) as (-> & (_ & Hshape & _) & (Hok & _) & Hcat).
    set (st := createChunk _) in *.
    assert (Hnonempty : Forall (fun l => l <> []) (map chunk_files (chunks st))).
    { apply Forall_map. eapply Forall_impl; [|exact Hok]. intros c Hc. apply Hc. }
    pose proof (concat_length_ge _ Hnonempty) as L.
    rewrite Hcat, E, length_map in L.
    split; [|split].
    + apply Forall_map. rewrite Forall_forall in Hshape, Hok |- *.
      intros c Hc. cbn [with_totalChunks chunk_files].
      split; [apply (Hok c Hc)|apply (Hshape c Hc)].
    + rewrite length_map. exact L.
    + split; [|discriminate]. intros C. exfalso.
      apply map_eq_nil in C. rewrite C in Hcat. simpl in Hcat. rewrite E in Hcat.
      discriminate Hcat.
Qed.

Lemma sum_tokens_nonneg (fs : list DiffFile) : (0 <= sum_tokens fs)%Z.
Proof.
  induction fs as [|f fs IH]; simpl; [lia|].
  unfold file_tokens, estimateTokens, len.
  pose proof (Z.div_pos (Z.of_nat (length (formatDiffFileForLLM f)) + 3) 4
                ltac:(lia) ltac:(lia)).
  lia.
Qed.

Lemma sum_tokens_in (f : DiffFile) (fs : list DiffFile) :
  In f fs -> (file_tokens f <= sum_tokens fs)%Z.
Proof.
  induction fs as [|g fs IH]; simpl; [tauto|].
  intros [->|H].
  - pose proof (sum_tokens_nonneg fs). lia.
  - specialize (IH H).
    assert (0 <= file_tokens g)%Z.
    { pose proof (sum_tokens_nonneg [g]) as N. simpl in N. lia. }
    lia.
Qed.

(** A file whose own estimate exceeds [maxTokens] is the only file of its
    chunk; in a chunk of several files the estimates of the files add up
    to at most [maxTokens]. *)
Theorem chunkDiff_oversized_alone :
  forall (diff : ParsedDiff) (config : PartialChunkConfig) (c : DiffChunk),
    In c (chunkDiff diff config) ->
    (forall f, In f (chunk_files c) ->
               (file_tokens f > maxTokens (merge_config config))%Z ->
               chunk_files c = [f])
    /\ ((1 < length (chunk_files c))%nat ->
        (sum_tokens (chunk_files c) <= maxTokens (merge_config config))%Z).
Proof.
  intros diff config c Hc.
  pose proof (chunkDiff_file_budget diff config) as B.
  rewrite Forall_forall in B. destruct (B c Hc) as ([Hone|Hsum] & Hne & _).
  - split; [|lia]. intros f Hf _.
    destruct (chunk_files c) as [|g [|h fs]]; simpl in *; try lia; try contradiction.
    destruct Hf as [->|[]]. reflexivity.
  - split; [|intros _; exact Hsum]. intros f Hf Hbig.
    pose proof (sum_tokens_in f _ Hf). lia.
Qed.
End ChunkShape.

(* ------------------------------------------------------------------ *)
(** ** Diff parser: what the loop maintains *)
(* ------------------------------------------------------------------ *)

Section ParserInvariants.
Import DiffParser Notions.

Lemma hunk_total_snoc sel (hs : list DiffHunk) (h : DiffHunk) :
  hunk_total sel (hs ++ [h]) = (hunk_total sel hs + len_of (sel h))%Z.
Proof. induction hs as [|g hs IH]; simpl; [lia|]. rewrite IH. lia. Qed.

Lemma sorted_snoc (l : list Z) (n : Z) :
  StronglySorted Z.lt l -> Forall (fun m => (m < n)%Z) l ->
  StronglySorted Z.lt (l ++ [n]).
Proof.
  induction 1 as [|x l Hl IH Hx]; intros Hn; simpl.
  - constructor; constructor.
  - inversion Hn as [|? ? Hxn Hln]; subst.
    constructor; [now apply IH|].
    apply Forall_app. split; [exact Hx|]. constructor; [exact Hxn|constructor].
Qed.

Lemma numbered_from_snoc (start n : Z) (ls : list LineRef) (c : jsstring) :
  numbered_from start ls ->
  Forall (fun m => (m < n)%Z) (map lineNumber ls) ->
  (start <= n)%Z ->
  numbered_from start (ls ++ [ {| lineNumber := n; line_content := c |} ]).
Proof.
  intros [Hs Hf] Hlt Hle. unfold numbered_from. rewrite map_app. simpl. split.
  - now apply sorted_snoc.
  - apply Forall_app. split; [exact Hf|]. constructor; [exact Hle|constructor].
Qed.

Lemma Forall_lt_weaken (l : list Z) (n : Z) :
  Forall (fun m => (m < n)%Z) l -> Forall (fun m => (m < n + 1)%Z) l.
Proof. intros H. eapply Forall_impl; [|exact H]. intros m Hm. simpl in Hm. lia. Qed.

Lemma Forall_lt_snoc (l : list Z) (n : Z) :
  Forall (fun m => (m < n)%Z) l -> Forall (fun m => (m < n + 1)%Z) (l ++ [n]).
Proof.
  intros H. apply Forall_app. split; [now apply Forall_lt_weaken|].
  constructor; [lia|constructor].
Qed.

(** Closing the hunk moves it into the file. *)
Lemma finalizeHunk_inv (st : State) : parser_inv st -> parser_inv (finalizeHunk st).
Proof.
  intros [Hfiles Hcur]. split; [exact Hfiles|]. cbn [finalizeHunk currentFile currentHunk].
  destruct (currentHunk st) as [h|], (currentFile st) as [f|];
    try exact Hcur; try contradiction.
  destruct Hcur as (Ha & Hr & Hh & (Hnum & _)).
  unfold file_counted. cbn [with_hunks hunks linesAdded linesRemoved].
  rewrite !hunk_total_snoc. cbn [with_content addedLines removedLines].
  split; [exact Ha|]. split; [exact Hr|].
  apply Forall_app. split; [exact Hh|]. constructor; [exact Hnum|constructor].
Qed.

Lemma finalizeHunk_closed (st : State) : currentHunk (finalizeHunk st) = None.
Proof. reflexivity. Qed.

Lemma finalizeFile_inv (st : State) :
  parser_inv st ->
  Forall file_counted (st_files (finalizeFile st))
  /\ currentFile (finalizeFile st) = None
  /\ currentHunk (finalizeFile st) = None.
Proof.
  intros H. apply finalizeHunk_inv in H. destruct H as [Hfiles Hcur].
  unfold finalizeFile. cbn [st_files currentFile currentHunk].
  rewrite finalizeHunk_closed in *. split; [|split; reflexivity].
  destruct (currentFile (finalizeHunk st)) as [f|]; [|exact Hfiles].
  apply Forall_app. split; [exact Hfiles|]. constructor; [exact Hcur|constructor].
Qed.

(** An assignment to a field of the file that is neither its hunks nor
    its line counts. *)
Lemma set_file_inv (st : State) (f f' : DiffFile) :
  parser_inv st -> currentFile st = Some f ->
  hunks f' = hunks f -> linesAdded f' = linesAdded f ->
  linesRemoved f' = linesRemoved f ->
  parser_inv (set_file st f').
Proof.
  intros [Hfiles Hcur] Hf Hh Ha Hr. split; [exact Hfiles|].
  cbn [set_file currentFile currentHunk]. rewrite Hf in Hcur.
  destruct (currentHunk st) as [h|].
  - unfold open_hunk in *. cbn [set_file newLineNum oldLineNum].
    now rewrite Hh, Ha, Hr.
  - unfold file_counted in *. now rewrite Hh, Ha, Hr.
Qed.

Lemma hunk_line_inv (st : State) (f : DiffFile) (h : DiffHunk) (line : jsstring) :
  parser_inv st -> currentFile st = Some f -> currentHunk st = Some h ->
  parser_inv (hunk_line st f h line).
Proof.
  intros [Hfiles Hcur] Hf Hh. rewrite Hf, Hh in Hcur.
  destruct Hcur as (Ha & Hr & Hhunks & ((Hnew & Hold) & Hlt_new & Hlt_old & Hle_new & Hle_old)).
  unfold hunk_line.
  destruct (startsWith line (lit "+") && negb (startsWith line (lit "+++"))).
  { split; [exact Hfiles|]. cbn [currentFile currentHunk].
    cbn [with_linesAdded with_addedLines linesAdded linesRemoved hunks
         addedLines removedLines].
    unfold len_of in *. rewrite length_app. cbn [length].
    split; [lia|]. split; [exact Hr|]. split; [exact Hhunks|].
    unfold open_hunk, hunk_numbered.
    cbn [with_addedLines addedLines removedLines newStart oldStart
         newLineNum oldLineNum].
    split; [split; [apply numbered_from_snoc; assumption|exact Hold]|].
    split; [rewrite map_app; now apply Forall_lt_snoc|].
    split; [exact Hlt_old|]. split; [lia|exact Hle_old]. }
  destruct (startsWith line (lit "-") && negb (startsWith line (lit "---"))).
  { split; [exact Hfiles|]. cbn [currentFile currentHunk].
    cbn [with_linesRemoved with_removedLines linesAdded linesRemoved hunks
         addedLines removedLines].
    unfold len_of in *. rewrite length_app. cbn [length].
    split; [exact Ha|]. split; [lia|]. split; [exact Hhunks|].
    unfold open_hunk, hunk_numbered.
    cbn [with_removedLines addedLines removedLines newStart oldStart
         newLineNum oldLineNum].
    split; [split; [exact Hnew|apply numbered_from_snoc; assumption]|].
    split; [exact Hlt_new|].
    split; [rewrite map_app; now apply Forall_lt_snoc|]. split; [exact Hle_new|lia]. }
  destruct (startsWith line (lit " ") || str_eqb line []).
  { split; [exact Hfiles|]. cbn [currentFile currentHunk].
    split; [exact Ha|]. split; [exact Hr|]. split; [exact Hhunks|].
    unfold open_hunk. cbn [newLineNum oldLineNum].
    split; [split; assumption|].
    split; [now apply Forall_lt_weaken|]. split; [now apply Forall_lt_weaken|].
    split; lia. }
  split; [exact Hfiles|]. cbn [currentFile currentHunk].
  split; [exact Ha|]. split; [exact Hr|]. split; [exact Hhunks|].
  unfold open_hunk. cbn [newLineNum oldLineNum].
  split; [split; assumption|]. repeat split; assumption.
Qed.
End ParserInvariants.

Section ParserLoop.
Import DiffParser Notions.

Lemma finalizeHunk_file (st : State) (f : DiffFile) :
  currentFile st = Some f ->
  exists f', currentFile (finalizeHunk st) = Some f'.
Proof.
  intros Hf. cbn [finalizeHunk currentFile]. rewrite Hf.
  destruct (currentHunk st); eauto.
Qed.

Lemma open_hunk_inv (st : State) (f : DiffFile) (oldNum newNum oldCnt newCnt : Z)
  (content' : list jsstring) :
  parser_inv st -> currentFile st = Some f ->
  parser_inv
    {| st_files := st_files (finalizeHunk st);
       currentFile := currentFile (finalizeHunk st);
       currentHunk :=
         Some {| oldStart := oldNum; oldCount := oldCnt; newStart := newNum;
                 newCount := newCnt; content := []; addedLines := [];
                 removedLines := [] |};
       oldLineNum := oldNum;
       newLineNum := newNum;
       hunkContent := content' |}.
Proof.
  intros H Hf. destruct (finalizeHunk_file st f Hf) as [f' Hf'].
  apply finalizeHunk_inv in H. destruct H as [Hfiles Hcur].
  rewrite Hf', finalizeHunk_closed in Hcur. destruct Hcur as (Ha & Hr & Hh).
  split; [exact Hfiles|]. cbn [currentFile currentHunk]. rewrite Hf'.
  cbn [addedLines removedLines]. unfold len_of. simpl length.
  split; [lia|]. split; [lia|]. split; [exact Hh|].
  unfold open_hunk, hunk_numbered, numbered_from.
  cbn [addedLines removedLines newStart oldStart newLineNum oldLineNum map].
  repeat split; try constructor; lia.
Qed.

Lemma file_line_inv (st : State) (f : DiffFile) (line : jsstring) :
  parser_inv st -> currentFile st = Some f -> parser_inv (file_line st f line).
Proof.
  intros H Hf. unfold file_line.
  repeat match goal with
         | |- parser_inv (match ?x with _ => _ end) => destruct x eqn:?
         | |- parser_inv (if ?x then _ else _) => destruct x eqn:?
         end;
    try exact H;
    try (eapply set_file_inv; [exact H|exact Hf|reflexivity|reflexivity|reflexivity]).
  - now apply open_hunk_inv with f.
  - now apply hunk_line_inv.
Qed.

Lemma step_inv_parser (st : State) (line : jsstring) :
  parser_inv st -> parser_inv (step st line).
Proof.
  intros H. unfold step. destruct (DIFF_HEADER_REGEX line) as [[g1 g2]|].
  - destruct (finalizeFile_inv st H) as (Hfiles & Hf & Hh).
    split; [exact Hfiles|]. cbn [set_file currentFile currentHunk]. rewrite Hh.
    unfold file_counted. simpl. repeat split; constructor.
  - destruct (currentFile st) as [f|] eqn:Hf; [|exact H].
    now apply file_line_inv.
Qed.

Lemma fold_step_inv_parser (lines : list jsstring) (st : State) :
  parser_inv st -> parser_inv (fold_left step lines st).
Proof.
  revert st. induction lines as [|l lines IH]; intros st H; simpl; [exact H|].
  apply IH. now apply step_inv_parser.
Qed.

Lemma initial_inv_parser : parser_inv initial.
Proof. split; [constructor|exact I]. Qed.

Lemma parse_lines_counted (lines : list jsstring) :
  exists d, parse_lines lines = Returns d /\ Forall file_counted (files d).
Proof.
  unfold parse_lines. eexists. split; [reflexivity|]. cbn [files].
  apply finalizeFile_inv, fold_step_inv_parser, initial_inv_parser.
Qed.

Lemma sum_by_ext (f g : DiffFile -> Z) (fs : list DiffFile) :
  Forall (fun x => f x = g x) fs -> sum_by f fs = sum_by g fs.
Proof.
  unfold sum_by. generalize 0%Z.
  induction fs as [|x fs IH]; intros z H; simpl; [reflexivity|].
  inversion H as [|? ? Hx Hfs]; subst. rewrite Hx. now apply IH.
Qed.

(** For every file of a parsed diff, [linesAdded] and [linesRemoved] are
    the numbers of added and removed lines recorded in its hunks, and the
    totals of the diff are the sums of those numbers over the files. *)
Theorem parseDiff_line_counts :
  forall diffContent : jsstring,
    exists d : ParsedDiff,
      parseDiff diffContent = Returns d
      /\ Forall (fun f =>
                   linesAdded f = hunk_total addedLines (hunks f)
                   /\ linesRemoved f = hunk_total removedLines (hunks f))
                (files d)
      /\ totalLinesAdded d
         = sum_by (fun f => hunk_total addedLines (hunks f)) (files d)
      /\ totalLinesRemoved d
         = sum_by (fun f => hunk_total removedLines (hunks f)) (files d)
      /\ totalFilesChanged d = len_of (files d).
Proof.
  intros diffContent. unfold parseDiff.
  destruct (parse_lines_counted (split_on 10%N diffContent)) as (d & Hd & Hc).
  exists d. split; [exact Hd|].
  assert (Hfs : Forall (fun f =>
                   linesAdded f = hunk_total addedLines (hunks f)
                   /\ linesRemoved f = hunk_total removedLines (hunks f)) (files d)).
  { eapply Forall_impl; [|exact Hc]. intros f (Ha & Hr & _). now split. }
  split; [exact Hfs|].
  unfold parse_lines in Hd. injection Hd as <-.
  cbn [files totalLinesAdded totalLinesRemoved totalFilesChanged] in *.
  split; [|split; [|reflexivity]].
  - apply sum_by_ext. eapply Forall_impl; [|exact Hfs]. intros f [Ha _]. exact Ha.
  - apply sum_by_ext. eapply Forall_impl; [|exact Hfs]. intros f [_ Hr]. exact Hr.
Qed.


(** *** One file per file header *)

Lemma file_line_files (st : State) (f : DiffFile) (line : jsstring) :
  currentFile st = Some f ->
  st_files (file_line st f line) = st_files st
  /\ exists f', currentFile (file_line st f line) = Some f'.
Proof.
  intros Hf. unfold file_line, hunk_line.
  repeat match goal with
         | |- context [match ?x with _ => _ end] => destruct x eqn:?
         end;
    cbn [set_file finalizeHunk st_files currentFile];
    rewrite ?Hf; split; try reflexivity; eauto.
  destruct (currentHunk st); eauto.
Qed.

Lemma step_files_so_far (st : State) (line : jsstring) :
  files_so_far (step st line)
  = (files_so_far st
     + if is_some (DIFF_HEADER_REGEX line) then 1 else 0)%nat.
Proof.
  unfold step, files_so_far. destruct (DIFF_HEADER_REGEX line) as [[g1 g2]|]; simpl.
  - destruct (currentHunk st), (currentFile st); simpl;
      rewrite ?length_app; simpl; lia.
  - destruct (currentFile st) as [f|] eqn:Hf; [|rewrite Hf; lia].
    destruct (file_line_files st f line Hf) as (-> & f' & ->). lia.
Qed.

Lemma fold_step_files_so_far (lines : list jsstring) (st : State) :
  files_so_far (fold_left step lines st)
  = (files_so_far st + length (header_lines lines))%nat.
Proof.
  revert st. induction lines as [|l lines IH]; intros st; simpl; [lia|].
  rewrite IH, step_files_so_far. unfold header_lines. simpl.
  destruct (is_some (DIFF_HEADER_REGEX l)); simpl; lia.
Qed.

Lemma finalizeFile_files_so_far (st : State) :
  length (st_files (finalizeFile st)) = files_so_far st.
Proof.
  unfold finalizeFile, finalizeHunk, files_so_far. simpl.
  destruct (currentHunk st), (currentFile st); simpl; rewrite ?length_app; simpl; lia.
Qed.

(** A parsed diff has exactly one file for each line of the form
    [diff --git a/X b/Y]. *)
Theorem parseDiff_one_file_per_header :
  forall diffContent : jsstring,
    exists d : ParsedDiff,
      parseDiff diffContent = Returns d
      /\ length (files d) = length (header_lines (split_on 10%N diffContent)).
Proof.
  intros diffContent. unfold parseDiff, parse_lines. eexists. split; [reflexivity|].
  cbn [files]. rewrite finalizeFile_files_so_far, fold_step_files_so_far. reflexivity.
Qed.
End ParserLoop.

(* ------------------------------------------------------------------ *)
(** ** Diff parser: a diff of several files *)
(* ------------------------------------------------------------------ *)

Section ParserComposition.
Import DiffParser Notions.

Ltac destruct_matches :=
  repeat match goal with
         | |- context [match ?x with _ => _ end] => destruct x eqn:?
         end.

(** The files already finished do not influence the loop. *)
Lemma step_with_files (F : list DiffFile) (st : State) (line : jsstring) :
  step (with_files F st) line = with_files F (step st line).
Proof.
  unfold step, file_line, hunk_line, finalizeFile, finalizeHunk, set_file, with_files.
  cbn [st_files currentFile currentHunk oldLineNum newLineNum hunkContent].
  destruct_matches;
    cbn [st_files currentFile currentHunk oldLineNum newLineNum hunkContent];
    rewrite ?app_assoc; try reflexivity; try congruence.
Qed.

Lemma fold_step_with_files (F : list DiffFile) (lines : list jsstring) (st : State) :
  fold_left step lines (with_files F st) = with_files F (fold_left step lines st).
Proof.
  revert st. induction lines as [|l lines IH]; intros st; simpl; [reflexivity|].
  now rewrite step_with_files, IH.
Qed.

Lemma finalizeFile_with_files (F : list DiffFile) (st : State) :
  st_files (finalizeFile (with_files F st)) = F ++ st_files (finalizeFile st).
Proof.
  unfold finalizeFile, finalizeHunk, with_files.
  cbn [st_files currentFile currentHunk].
  destruct (currentHunk st), (currentFile st); rewrite ?app_assoc; reflexivity.
Qed.

(** While no hunk is open, the running line numbers do not influence the
    loop: the next hunk header sets them. *)
Lemma step_with_numbers (o n : Z) (st : State) (line : jsstring) :
  currentHunk st = None ->
  step (with_numbers o n st) line = step st line
  \/ (step (with_numbers o n st) line = with_numbers o n (step st line)
      /\ currentHunk (step st line) = None).
Proof.
  intros Hh.
  unfold step, file_line, finalizeFile, finalizeHunk, set_file, with_numbers.
  cbn [st_files currentFile currentHunk oldLineNum newLineNum hunkContent].
  rewrite Hh.
  destruct_matches;
    cbn [st_files currentFile currentHunk oldLineNum newLineNum hunkContent];
    try (right; split; [reflexivity|assumption || reflexivity]);
    try (left; reflexivity);
    try discriminate.
  all: right; split; [destruct st; cbn in *; congruence|exact Hh].
Qed.

Lemma finalizeFile_with_numbers (o n : Z) (st : State) :
  st_files (finalizeFile (with_numbers o n st)) = st_files (finalizeFile st).
Proof. reflexivity. Qed.

Lemma fold_step_with_numbers (o n : Z) (lines : list jsstring) (st : State) :
  currentHunk st = None ->
  st_files (finalizeFile (fold_left step lines (with_numbers o n st)))
  = st_files (finalizeFile (fold_left step lines st)).
Proof.
  revert st. induction lines as [|l lines IH]; intros st Hh; simpl.
  - reflexivity.
  - destruct (step_with_numbers o n st l Hh) as [E|[E Hh']].
    + now rewrite E.
    + rewrite E. now apply IH.
Qed.

(** The files of a diff are those of the lines before a file header
    followed by those of the lines from that header on: each file is parsed
    on its own. *)
Theorem parse_lines_at_header :
  forall (before after : list jsstring) (header : jsstring),
    DIFF_HEADER_REGEX header <> None ->
    parsed_files (before ++ header :: after)
    = parsed_files before ++ parsed_files (header :: after).
Proof.
  intros before after header Hheader.
  unfold parsed_files, parse_lines. cbn [files].
  rewrite fold_left_app. cbn [fold_left].
  set (S1 := fold_left step before initial).
  assert (E : step S1 header
              = with_files (st_files (finalizeFile S1))
                  (with_numbers (oldLineNum S1) (newLineNum S1) (step initial header))).
  { unfold step. destruct (DIFF_HEADER_REGEX header) as [[g1 g2]|]; [|contradiction].
    unfold with_files, with_numbers, set_file.
    cbn [st_files currentFile currentHunk oldLineNum newLineNum hunkContent
         finalizeFile finalizeHunk initial].
    now rewrite app_nil_r. }
  rewrite E, fold_step_with_files, finalizeFile_with_files.
  f_equal. apply fold_step_with_numbers.
  unfold step. destruct (DIFF_HEADER_REGEX header) as [[g1 g2]|]; [|contradiction].
  reflexivity.
Qed.
End ParserComposition.

(* ------------------------------------------------------------------ *)
(** ** File filters *)
(* ------------------------------------------------------------------ *)

Section FileFilterFacts.
Import DiffParser FileFilters Notions.

Variable matchPattern : jsstring -> jsstring -> bool.

Let excluded_by := shouldExcludeFile matchPattern.

Lemma categorize_step_perm (config : PartialFilterConfig) (r : CategorizedFiles)
  (f : DiffFile) :
  Permutation (all_categorized (categorize_step matchPattern config r f))
              (f :: all_categorized r).
Proof.
  unfold categorize_step, all_categorized.
  destruct (isLockfile (getFilePath f));
    [destruct (allowLockfilesForDeps (merge_config config))
    |destruct (shouldExcludeFile matchPattern f config)];
    cbn [sourceFiles lockfiles excluded].
  - rewrite <- (app_assoc (lockfiles r)). cbn [app].
    rewrite (app_assoc (sourceFiles r)).
    symmetry. apply Permutation_cons_app. now rewrite <- app_assoc.
  - rewrite !app_assoc. symmetry. apply Permutation_cons_append.
  - rewrite !app_assoc. symmetry. apply Permutation_cons_append.
  - rewrite <- app_assoc. cbn [app]. symmetry. now apply Permutation_cons_app.
Qed.

Lemma fold_categorize_perm (config : PartialFilterConfig) (fs : list DiffFile)
  (r : CategorizedFiles) :
  Permutation (all_categorized (fold_left (categorize_step matchPattern config) fs r))
              (all_categorized r ++ fs).
Proof.
  revert r. induction fs as [|f fs IH]; intros r; simpl.
  - now rewrite app_nil_r.
  - rewrite IH, categorize_step_perm. cbn [app]. apply Permutation_middle.
Qed.

Lemma fold_categorize_lists (config : PartialFilterConfig) (fs : list DiffFile)
  (r : CategorizedFiles) :
  let r' := fold_left (categorize_step matchPattern config) fs r in
  sourceFiles r'
  = sourceFiles r
    ++ filter (fun f => negb (is_lockfile f) && negb (excluded_by f config)) fs
  /\ lockfiles r'
     = lockfiles r
       ++ filter (fun f => is_lockfile f
                           && allowLockfilesForDeps (merge_config config)) fs
  /\ excluded r'
     = excluded r
       ++ filter (fun f => if is_lockfile f
                           then negb (allowLockfilesForDeps (merge_config config))
                           else excluded_by f config) fs.
Proof.
  revert r. induction fs as [|f fs IH]; intros r; cbn [fold_left filter].
  - cbv zeta. now rewrite !app_nil_r.
  - cbv zeta. destruct (IH (categorize_step matchPattern config r f)) as (Hs & Hl & He).
    rewrite Hs, Hl, He. unfold categorize_step, is_lockfile, excluded_by.
    destruct (isLockfile (getFilePath f));
      [destruct (allowLockfilesForDeps (merge_config config))
      |destruct (shouldExcludeFile matchPattern f config)];
      cbn [sourceFiles lockfiles excluded andb negb];
      rewrite <- ?app_assoc; repeat split; reflexivity.
Qed.

Lemma categorizeFiles_partition_lists (files : list DiffFile)
  (config : PartialFilterConfig) :
  let r := categorizeFiles matchPattern files config in
  sourceFiles r
  = filter (fun f => negb (isLockfile (getFilePath f))
                     && negb (shouldExcludeFile matchPattern f config)) files
  /\ lockfiles r
     = filter (fun f => isLockfile (getFilePath f)
                        && allowLockfilesForDeps (merge_config config)) files
  /\ excluded r
     = filter (fun f => if isLockfile (getFilePath f)
                        then negb (allowLockfilesForDeps (merge_config config))
                        else shouldExcludeFile matchPattern f config) files.
Proof.
  intros r. subst r. unfold categorizeFiles.
  apply (fold_categorize_lists config files
           {| sourceFiles := []; lockfiles := []; excluded := [] |}).
Qed.

(** [categorizeFiles] puts every file in exactly one of its three lists,
    keeping the order of the input in each. *)
Theorem categorizeFiles_partition :
  forall (files : list DiffFile) (config : PartialFilterConfig),
    let r := categorizeFiles matchPattern files config in
    Permutation (sourceFiles r ++ lockfiles r ++ excluded r) files
    /\ sourceFiles r
       = filter (fun f => negb (isLockfile (getFilePath f))
                          && negb (shouldExcludeFile matchPattern f config)) files
    /\ lockfiles r
       = filter (fun f => isLockfile (getFilePath f)
                          && allowLockfilesForDeps (merge_config config)) files
    /\ excluded r
       = filter (fun f => if isLockfile (getFilePath f)
                          then negb (allowLockfilesForDeps (merge_config config))
                          else shouldExcludeFile matchPattern f config) files
    /\ (length (sourceFiles r) + length (lockfiles r) + length (excluded r)
        = length files)%nat.
Proof.
  intros files config r. subst r. unfold categorizeFiles.
  set (r0 := {| sourceFiles := []; lockfiles := []; excluded := [] |}).
  pose proof (fold_categorize_perm config files r0) as P.
  destruct (fold_categorize_lists config files r0) as (Hs & Hl & He).
  unfold all_categorized in P. cbn [r0 sourceFiles lockfiles excluded app] in *.
  split; [exact P|]. split; [exact Hs|]. split; [exact Hl|]. split; [exact He|].
  apply Permutation_length in P. rewrite !length_app in P. lia.
Qed.

Lemma filter_andb_filter {A : Type} (p q : A -> bool) (l : list A) :
  filter (fun x => p x && q x) l = filter p (filter q l).
Proof.
  induction l as [|x l IH]; [reflexivity|]. cbn [filter].
  destruct (q x) eqn:Eq; cbn [filter]; destruct (p x); cbn [andb];
    rewrite IH; reflexivity.
Qed.

(** The source files are the files that are no lockfiles and pass
    [filterDiffFiles]; with lockfiles allowed for dependency analysis,
    which is the default, the lockfile list is [getLockfiles] of the input
    whatever the exclusion rules say, and no file is both a source file
    and a lockfile. *)
Theorem categorizeFiles_lockfiles :
  forall (files : list DiffFile) (config : PartialFilterConfig),
    let r := categorizeFiles matchPattern files config in
    sourceFiles r
    = filter (fun f => negb (isLockfile (getFilePath f)))
             (filterDiffFiles matchPattern files config)
    /\ (allowLockfilesForDeps (merge_config config) = true ->
        lockfiles r = getLockfiles files)
    /\ (allowLockfilesForDeps (merge_config config) = false -> lockfiles r = [])
    /\ (forall f, In f (sourceFiles r) -> In f (lockfiles r) -> False).
Proof.
  intros files config r. subst r.
  destruct (categorizeFiles_partition_lists files config) as (Hs & Hl & _).
  split; [|split; [|split]].
  - rewrite Hs. unfold filterDiffFiles. apply filter_andb_filter.
  - intros Ha. rewrite Hl, Ha. unfold getLockfiles. apply filter_ext.
    intros f. now rewrite andb_true_r.
  - intros Ha. rewrite Hl, Ha. apply filter_none. intros f _. now rewrite andb_false_r.
  - intros f Hsrc Hlock. rewrite Hs in Hsrc. rewrite Hl in Hlock.
    apply filter_In in Hsrc. apply filter_In in Hlock.
    destruct Hsrc as [_ Hsrc], Hlock as [_ Hlock].
    destruct (isLockfile (getFilePath f)); discriminate.
Qed.

(** A file is reviewed as a source file exactly when it is in the input,
    has a path that is not that of a lockfile, is not a binary file while
    binaries are skipped, changes at most [maxLines] lines, and matches an
    include pattern or else no exclude pattern. *)
Theorem sourceFiles_reviewable :
  forall (files : list DiffFile) (config : PartialFilterConfig) (f : DiffFile),
    In f (sourceFiles (categorizeFiles matchPattern files config))
    <-> In f files
        /\ getFilePath f <> []
        /\ isLockfile (getFilePath f) = false
        /\ (skipBinary (merge_config config) = true -> isBinary f = false)
        /\ (linesAdded f + linesRemoved f <= maxLines (merge_config config))%Z
        /\ (existsb (matchPattern (getFilePath f))
                    (includePatterns (merge_config config)) = true
            \/ existsb (matchPattern (getFilePath f))
                       (excludePatterns (merge_config config)) = false).
Proof.
  intros files config f.
  destruct (categorizeFiles_partition_lists files config) as (Hs & _).
  rewrite Hs, filter_In, andb_true_iff, !negb_true_iff.
  unfold shouldExcludeFile.
  destruct (str_eqb (getFilePath f) []) eqn:Epath.
  { apply str_eqb_eq in Epath. split; [intros (_ & _ & H); discriminate|].
    intros (_ & H & _). contradiction. }
  assert (Hpath : getFilePath f <> [])
    by (intros C; apply str_eqb_eq in C; congruence).
  destruct (skipBinary (merge_config config)) eqn:Eskip,
           (isBinary f) eqn:Ebin; cbn [andb];
    try (split; [intros (_ & _ & H); discriminate
                |intros (_ & _ & _ & H & _); specialize (H eq_refl); discriminate]).
  all: destruct (linesAdded f + linesRemoved f >? maxLines (merge_config config))%Z
         eqn:Elines;
       [apply Z.gtb_lt in Elines;
        split; [intros (_ & _ & H); discriminate|intros (_ & _ & _ & _ & H & _); lia]|].
  all: assert (Hle : (linesAdded f + linesRemoved f <= maxLines (merge_config config))%Z)
         by (destruct (Z.gtb_spec (linesAdded f + linesRemoved f)
                                 (maxLines (merge_config config))); [discriminate|lia]).
  all: destruct (existsb (matchPattern (getFilePath f))
                         (includePatterns (merge_config config))) eqn:Einc;
       [|destruct (existsb (matchPattern (getFilePath f))
                           (excludePatterns (merge_config config))) eqn:Eexc].
  all: split;
       [intros (Hin & Hlock & Hex); try discriminate;
        repeat split; auto; intros; congruence
       |intros (Hin & _ & Hlock & _ & _ & Hor); repeat split; auto;
        destruct Hor; congruence].
Qed.
End FileFilterFacts.


(* ------------------------------------------------------------------ *)
(** ** Lockfiles and the dependency scan *)
(* ------------------------------------------------------------------ *)

Section LockfileScan.
Import DiffParser FileFilters Osv Notions.

Variable matchPattern : jsstring -> jsstring -> bool.
Variable parseFloat : jsstring -> Number.
Variable randomUUID : nat -> jsstring.
Variable fetch_query : nat -> PackageDependency -> FetchResult.
Variable parsePackageJson : jsstring -> list PackageDependency.
Variable parseRequirements : jsstring -> list PackageDependency.
Variable parseGoMod : jsstring -> list PackageDependency.

Lemma normalize_no_backslash (path : jsstring) :
  ~ In 92%N path -> normalize_separators path = path.
Proof.
  unfold normalize_separators. induction path as [|u path IH]; [reflexivity|].
  intros Hno. cbn [map]. rewrite IH by (intros C; apply Hno; now right).
  destruct (N.eqb_spec u 92) as [E|_]; [|reflexivity].
  exfalso. apply Hno. left. now symmetry.
Qed.

Lemma isLockfile_name (path : jsstring) :
  isLockfile path = true ->
  In (last (split_on 47%N (normalize_separators path)) []) LOCKFILE_PATTERNS.
Proof.
  unfold isLockfile. cbv zeta. intros H. apply existsb_exists in H.
  destruct H as (p & Hin & Heq). apply str_eqb_eq in Heq. now rewrite Heq.
Qed.

Lemma select_deps_lockfile
  (requirements goMod : jsstring -> list PackageDependency)
  (content path name : jsstring) :
  In name LOCKFILE_PATTERNS ->
  last (split_on 47%N path) [] = name ->
  select_deps parsePackageJson requirements goMod content path
  = if str_eqb name (lit "package-lock.json") || str_eqb name (lit "pnpm-lock.yaml")
    then parsePackageJson content else [].
Proof.
  intros Hin Hlast. unfold select_deps. cbv zeta. rewrite Hlast. clear Hlast.
  unfold LOCKFILE_PATTERNS in Hin. cbn [map In] in Hin.
  repeat (destruct Hin as [Hin|Hin]; [subst name; vm_compute; reflexivity|]).
  contradiction.
Qed.

Lemma lockfiles_are_lockfiles (files : list DiffFile) (fconfig : PartialFilterConfig)
  (f : DiffFile) :
  In f (lockfiles (categorizeFiles matchPattern files fconfig)) ->
  In f files /\ isLockfile (getFilePath f) = true.
Proof.
  destruct (categorizeFiles_partition_lists matchPattern files fconfig) as (_ & Hl & _).
  rewrite Hl, filter_In, andb_true_iff. tauto.
Qed.

(** Of the files that [categorizeFiles] lists as lockfiles, the dependency
    scan reads only [package-lock.json] and [pnpm-lock.yaml], and reads
    them with the parser of [package.json]: for a lockfile of any other
    kind it reports nothing, whatever the file holds and whatever the
    advisory service answers. *)
Theorem scanDependencies_on_lockfiles :
  forall (files : list DiffFile) (fconfig : PartialFilterConfig) (f : DiffFile)
         (content : jsstring) (config : WorkerConfig),
    In f (lockfiles (categorizeFiles matchPattern files fconfig)) ->
    ~ In 92%N (getFilePath f) ->
    let name := last (split_on 47%N (getFilePath f)) [] in
    In name LOCKFILE_PATTERNS
    /\ (name <> lit "package-lock.json" -> name <> lit "pnpm-lock.yaml" ->
        scanDependencies parseFloat randomUUID fetch_query parsePackageJson
          parseRequirements parseGoMod content (getFilePath f) config = [])
    /\ (forall parseRequirements' parseGoMod',
          scanDependencies parseFloat randomUUID fetch_query parsePackageJson
            parseRequirements parseGoMod content (getFilePath f) config
          = scanDependencies parseFloat randomUUID fetch_query parsePackageJson
              parseRequirements' parseGoMod' content (getFilePath f) config).
Proof.
  intros files fconfig f content config Hin Hno name.
  apply lockfiles_are_lockfiles in Hin. destruct Hin as [_ Hlock].
  apply isLockfile_name in Hlock. rewrite normalize_no_backslash in Hlock by exact Hno.
  fold name in Hlock. split; [exact Hlock|]. split.
  - intros Hn1 Hn2. unfold scanDependencies.
    destruct (enableOsvScan config); cbn [negb]; [|reflexivity].
    cbv zeta. rewrite (select_deps_lockfile _ _ content (getFilePath f) name Hlock eq_refl).
    destruct (str_eqb name (lit "package-lock.json")) eqn:E1;
      [apply str_eqb_eq in E1; contradiction|].
    destruct (str_eqb name (lit "pnpm-lock.yaml")) eqn:E2;
      [apply str_eqb_eq in E2; contradiction|].
    reflexivity.
  - intros pr' pg'. unfold scanDependencies.
    destruct (enableOsvScan config); cbn [negb]; [|reflexivity].
    cbv zeta.
    now rewrite !(select_deps_lockfile _ _ content (getFilePath f) name Hlock eq_refl).
Qed.
End LockfileScan.


(* ------------------------------------------------------------------ *)
(** ** The executive summary *)
(* ------------------------------------------------------------------ *)

Section ExecutiveSummaryFacts.
Import RiskScorer Formatter ExecutiveSummary Notions.

Lemma add_keys_in (l acc : list jsstring) (k : jsstring) :
  In k (fold_left add_key l acc) <-> In k acc \/ In k l.
Proof.
  revert acc. induction l as [|x l IH]; intros acc; cbn [fold_left In]; [tauto|].
  rewrite IH. unfold add_key.
  destruct (existsb (str_eqb x) acc) eqn:E.
  - apply (in_keys_existsb str_eqb str_eqb_eq) in E.
    split; [tauto|]. intros [H|[H|H]]; auto. subst x. auto.
  - rewrite in_app_iff. cbn [In]. tauto.
Qed.

Lemma add_keys_nodup (l acc : list jsstring) :
  NoDup acc -> NoDup (fold_left add_key l acc).
Proof.
  revert acc. induction l as [|x l IH]; intros acc ND; cbn [fold_left]; [exact ND|].
  apply IH. unfold add_key.
  destruct (existsb (str_eqb x) acc) eqn:E; [exact ND|].
  assert (Hx : ~ In x acc).
  { intros C. apply (in_keys_existsb str_eqb str_eqb_eq) in C. congruence. }
  apply NoDup_app; [exact ND|repeat constructor; intros []|].
  intros y Hy [<-|[]]. contradiction.
Qed.

Lemma first_occurrences_snoc (l : list jsstring) (k : jsstring) :
  first_occurrences (l ++ [k]) = add_key (first_occurrences l) k.
Proof. unfold first_occurrences. now rewrite fold_left_app. Qed.

Lemma get_graph (g : jsstring -> Z) (ks : list jsstring) (k : jsstring) :
  OMap.get str_eqb k (map (fun x => (x, g x)) ks)
  = if existsb (str_eqb k) ks then Some (g k) else None.
Proof.
  induction ks as [|x ks IH]; cbn [map OMap.get existsb]; [reflexivity|].
  destruct (str_eqb x k) eqn:E.
  - apply str_eqb_eq in E. subst x.
    replace (str_eqb k k) with true by (symmetry; now apply str_eqb_eq).
    reflexivity.
  - destruct (str_eqb k x) eqn:E'; [|exact IH].
    apply str_eqb_eq in E'. subst x.
    assert (R : str_eqb k k = true) by now apply str_eqb_eq. congruence.
Qed.

Lemma set_graph (g : jsstring -> Z) (ks : list jsstring) (k : jsstring) (v : Z) :
  NoDup ks -> In k ks ->
  OMap.set str_eqb k v (map (fun x => (x, g x)) ks)
  = map (fun x => (x, if str_eqb x k then v else g x)) ks.
Proof.
  induction ks as [|x ks IH]; intros ND Hin; [destruct Hin|].
  cbn [map OMap.set]. inversion ND as [|? ? Hx ND']; subst.
  destruct (str_eqb x k) eqn:E.
  - apply str_eqb_eq in E. subst x. f_equal.
    apply map_ext_in. intros y Hy.
    destruct (str_eqb y k) eqn:E'; [|reflexivity].
    apply str_eqb_eq in E'. subst y. contradiction.
  - f_equal. apply IH; [exact ND'|].
    destruct Hin as [->|Hin]; [|exact Hin].
    assert (R : str_eqb k k = true) by now apply str_eqb_eq. congruence.
Qed.

Lemma with_severity_snoc (name : jsstring) (issues : list Issue) (i : Issue) :
  with_severity name (issues ++ [i])
  = (with_severity name issues
     + if str_eqb (severity_name (severity i)) name then 1 else 0)%Z.
Proof.
  unfold with_severity, len_of. rewrite filter_app, length_app. cbn [filter].
  destruct (str_eqb (severity_name (severity i)) name); cbn [length]; lia.
Qed.

Lemma with_severity_absent (name : jsstring) (issues : list Issue) :
  ~ In name (map (fun i => severity_name (severity i)) issues) ->
  with_severity name issues = 0%Z.
Proof.
  intros H. unfold with_severity. rewrite filter_none; [reflexivity|].
  intros i Hi. destruct (str_eqb (severity_name (severity i)) name) eqn:E;
    [|reflexivity].
  apply str_eqb_eq in E. exfalso. apply H. rewrite <- E.
  now apply (in_map (fun i => severity_name (severity i))).
Qed.

Lemma severityCounts_of (issues : list Issue) :
  fold_left count_step issues OMap.empty
  = map (fun name => (name, with_severity name issues)) (severities_of issues).
Proof.
  induction issues as [|i issues IH] using rev_ind; [reflexivity|].
  rewrite fold_left_app. cbn [fold_left]. rewrite IH. clear IH.
  unfold severities_of. rewrite map_app. cbn [map].
  rewrite first_occurrences_snoc.
  set (k := severity_name (severity i)).
  set (ks := first_occurrences (map (fun i => severity_name (severity i)) issues)).
  assert (ND : NoDup ks) by (apply add_keys_nodup; constructor).
  unfold count_step. cbv zeta. fold k. rewrite get_graph. unfold add_key.
  destruct (existsb (str_eqb k) ks) eqn:E.
  - apply (in_keys_existsb str_eqb str_eqb_eq) in E. cbn [nullish].
    rewrite set_graph by assumption.
    apply map_ext. intros name. rewrite with_severity_snoc. fold k.
    destruct (str_eqb name k) eqn:E'.
    + apply str_eqb_eq in E'. subst name.
      replace (str_eqb k k) with true by (symmetry; now apply str_eqb_eq).
      reflexivity.
    + destruct (str_eqb k name) eqn:E''; [|now rewrite Z.add_0_r].
      apply str_eqb_eq in E''. subst name.
      assert (R : str_eqb k k = true) by now apply str_eqb_eq. congruence.
  - assert (Hk : ~ In k ks).
    { intros C. apply (in_keys_existsb str_eqb str_eqb_eq) in C. congruence. }
    cbn [nullish]. rewrite (set_absent str_eqb str_eqb_eq).
    2:{ unfold OMap.keys. rewrite map_map. cbn [fst]. now rewrite map_id. }
    rewrite map_app. cbn [map]. f_equal.
    + apply map_ext_in. intros name Hname. rewrite with_severity_snoc. fold k.
      destruct (str_eqb k name) eqn:E'; [|now rewrite Z.add_0_r].
      apply str_eqb_eq in E'. subst name. contradiction.
    + rewrite with_severity_snoc. fold k.
      replace (str_eqb k k) with true by (symmetry; now apply str_eqb_eq).
      rewrite with_severity_absent; [reflexivity|].
      intros C. apply Hk. unfold ks, first_occurrences.
      apply add_keys_in. now right.
Qed.

Lemma with_severity_present (name : jsstring) (issues : list Issue) :
  In name (severities_of issues) -> (0 < with_severity name issues)%Z.
Proof.
  unfold severities_of, first_occurrences. rewrite add_keys_in.
  intros [[]|H]. apply in_map_iff in H. destruct H as (i & Hi & Hin).
  unfold with_severity, len_of.
  assert (Hf : In i (filter (fun i => str_eqb (severity_name (severity i)) name) issues)).
  { apply filter_In. split; [exact Hin|]. now apply str_eqb_eq. }
  destruct (filter _ issues); [destruct Hf|]. cbn [length]. lia.
Qed.

(** The first bullet of the summary names each severity that occurs among
    the issues once, in the order of first occurrence, each with the
    number of issues of that severity; these numbers add up to the total
    it announces. *)
Theorem found_bullet_counts :
  forall issues : list Issue,
    found_bullet issues
    = bullet ++ lit " Found " ++ of_Z (len_of issues) ++ lit " issue(s): "
        ++ join (lit ", ")
             (map (fun name => of_Z (with_severity name issues) ++ lit " " ++ name)
                  (severities_of issues))
    /\ NoDup (severities_of issues)
    /\ (forall i, In i issues -> In (severity_name (severity i)) (severities_of issues))
    /\ fold_right Z.add 0%Z
         (map (fun name => with_severity name issues) (severities_of issues))
       = len_of issues.
Proof.
  intros issues. split; [|split; [|split]].
  - unfold found_bullet. cbv zeta. rewrite severityCounts_of.
    do 4 f_equal.
    assert (P : forall names,
               (forall name, In name names -> In name (severities_of issues)) ->
               flat_map severity_part
                 (map (fun name => (name, with_severity name issues)) names)
               = map (fun name => of_Z (with_severity name issues) ++ lit " " ++ name)
                     names).
    { induction names as [|name names IH]; intros Hsub; [reflexivity|].
      cbn [map flat_map]. rewrite IH by (intros n Hn; apply Hsub; now right).
      unfold severity_part at 1.
      assert (Hpos := with_severity_present name issues (Hsub name (or_introl eq_refl))).
      replace (with_severity name issues >? 0)%Z with true
        by (symmetry; apply Z.gtb_lt; lia).
      reflexivity. }
    f_equal. apply P. auto.
  - apply add_keys_nodup. constructor.
  - intros i Hi. unfold severities_of, first_occurrences. apply add_keys_in. right.
    now apply (in_map (fun i => severity_name (severity i))).
  - induction issues as [|i issues IH] using rev_ind; [reflexivity|].
    unfold severities_of. rewrite map_app. cbn [map]. rewrite first_occurrences_snoc.
    fold (severities_of issues).
    set (k := severity_name (severity i)).
    assert (S : forall names,
               fold_right Z.add 0%Z
                 (map (fun name => with_severity name (issues ++ [i])) names)
               = (fold_right Z.add 0%Z
                    (map (fun name => with_severity name issues) names)
                  + len_of (filter (str_eqb k) names))%Z).
    { induction names as [|name names IHn]; [reflexivity|].
      cbn [map fold_right filter]. rewrite IHn, with_severity_snoc. fold k.
      destruct (str_eqb k name); unfold len_of; cbn [length]; lia. }
    unfold add_key. destruct (existsb (str_eqb k) (severities_of issues)) eqn:E.
    + rewrite S, IH.
      apply (in_keys_existsb str_eqb str_eqb_eq) in E.
      assert (C : len_of (filter (str_eqb k) (severities_of issues)) = 1%Z).
      { assert (ND : NoDup (severities_of issues))
          by (apply add_keys_nodup; constructor).
        revert ND E. generalize (severities_of issues) as names.
        induction names as [|name names IHn]; intros ND Hin; [destruct Hin|].
        inversion ND as [|? ? Hx ND']; subst. cbn [filter].
        destruct (str_eqb k name) eqn:E'.
        - apply str_eqb_eq in E'. subst name.
          rewrite filter_none; [reflexivity|].
          intros y Hy. destruct (str_eqb k y) eqn:E''; [|reflexivity].
          apply str_eqb_eq in E''. subst y. contradiction.
        - apply IHn; [exact ND'|]. destruct Hin as [->|Hin]; [|exact Hin].
          assert (R : str_eqb k k = true) by now apply str_eqb_eq. congruence. }
      rewrite C. unfold len_of. rewrite length_app. cbn [length]. lia.
    + assert (Hk : ~ In k (severities_of issues)).
      { intros C. apply (in_keys_existsb str_eqb str_eqb_eq) in C. congruence. }
      rewrite map_app, fold_right_app. cbn [map fold_right].
      rewrite with_severity_snoc. fold k.
      replace (str_eqb k k) with true by (symmetry; now apply str_eqb_eq).
      rewrite with_severity_absent.
      2:{ intros C. apply Hk. unfold severities_of, first_occurrences.
          apply add_keys_in. now right. }
      assert (F : forall (a : Z) l, fold_right Z.add a l = (fold_right Z.add 0 l + a)%Z).
      { intros a l. induction l as [|x l IHl]; cbn [fold_right]; lia. }
      rewrite F, S, IH.
      rewrite filter_none.
      2:{ intros y Hy. destruct (str_eqb k y) eqn:E''; [|reflexivity].
          apply str_eqb_eq in E''. subst y. contradiction. }
      unfold len_of. rewrite length_app. cbn [length]. lia.
Qed.

Lemma firstn_snoc_exact {A : Type} (l : list A) (x : A) :
  firstn (length l) (l ++ [x]) = l.
Proof. rewrite firstn_app, Nat.sub_diag, firstn_all. cbn [firstn]. apply app_nil_r. Qed.

(** For a limit of at least one bullet (the default is 6) and at least one
    issue, the summary is the bullet of the counts followed by one bullet
    for each of the first [maxBullets - 1] issues: the closing bullet that
    counts the remaining issues is never part of the result.  The summary
    has at most [maxBullets] bullets. *)
Theorem createExecutiveSummary_bullets :
  forall (issues : list Issue) (maxBullets : option Z),
    issues <> [] ->
    (1 <= nullish maxBullets 6%Z)%Z ->
    let shown := slice issues 0 (nullish maxBullets 6%Z - 1)%Z in
    createExecutiveSummary issues maxBullets
    = join line_feed (found_bullet issues :: map issue_bullet shown)
    /\ (len_of (found_bullet issues :: map issue_bullet shown)
        <= nullish maxBullets 6%Z)%Z
    /\ shown = firstn (Z.to_nat (nullish maxBullets 6%Z - 1)%Z) issues.
Proof.
  intros issues maxBullets Hne Hmax shown.
  set (k := nullish maxBullets 6%Z) in *.
  assert (Hshown : shown = firstn (Z.to_nat (k - 1)) issues)
    by (apply slice_firstn; lia).
  assert (Hlen : (len_of (found_bullet issues :: map issue_bullet shown) <= k)%Z).
  { unfold len_of. cbn [length]. rewrite length_map, Hshown, length_firstn. lia. }
  split; [|split; [exact Hlen|exact Hshown]].
  unfold createExecutiveSummary. cbv zeta. fold k.
  destruct (len_of issues =? 0)%Z eqn:E0.
  { apply Z.eqb_eq in E0. unfold len_of in E0. destruct issues; [congruence|].
    cbn [length] in E0. lia. }
  fold shown. f_equal. cbn [app].
  destruct (len_of issues >? k)%Z eqn:E.
  - apply Z.gtb_lt in E. rewrite slice_firstn by lia.
    assert (L : Z.to_nat k = length (found_bullet issues :: map issue_bullet shown)).
    { cbn [length]. rewrite length_map, Hshown, length_firstn.
      unfold len_of in E. lia. }
    rewrite L. apply (firstn_snoc_exact (found_bullet issues :: map issue_bullet shown)).
  - rewrite slice_firstn by lia. apply firstn_all2.
    unfold len_of in Hlen. lia.
Qed.
End ExecutiveSummaryFacts.


(* ------------------------------------------------------------------ *)
(** ** The review that is posted *)
(* ------------------------------------------------------------------ *)

Section PosterFacts.
Import RiskScorer Formatter Aggregator Poster Notions.

Lemma level_critical_iff (issues : list Issue) (config : PartialScoreConfig) :
  level (calculateRiskScore issues config) = risk_critical
  <-> (85 <= score (calculateRiskScore issues config))%Q.
Proof.
  destruct (finalScore_of issues config) as (n & Hs & Hl & Hn & _).
  rewrite Hs, Hl, (Math_min_integer n Hn). unfold level_of, Qgeb.
  change (RISK_THRESHOLDS risk_critical) with 85%Q.
  destruct (Qle_bool 85 (inject_Z n)) eqn:A.
  - apply Qle_bool_iff in A. tauto.
  - split.
    + destruct (Qle_bool (RISK_THRESHOLDS risk_high) (inject_Z n));
        [intros H; discriminate H|].
      destruct (Qle_bool (RISK_THRESHOLDS risk_medium) (inject_Z n));
        intros H; discriminate H.
    + intros H. apply Qle_bool_iff in H. congruence.
Qed.

Lemma is_critical_iff (l : RiskLevel) : is_critical l = true <-> l = risk_critical.
Proof. destruct l; cbn [is_critical]; split; congruence. Qed.

Lemma inlineComments_nil_iff (issues : list Issue) (config : WorkerConfig) :
  (1 <= maxInlineComments config)%Z ->
  inlineComments (aggregateIssues issues config) = []
  <-> allIssues (aggregateIssues issues config) = [].
Proof.
  intros Hmax. unfold aggregateIssues. cbn [inlineComments allIssues].
  set (F := filter _ (deduplicateIssues issues)).
  rewrite slice_firstn by lia.
  assert (P : Permutation F (sortIssuesByPriority F))
    by (symmetry; apply sort_by_perm).
  split.
  - intros H. destruct (sortIssuesByPriority F) as [|x S] eqn:E.
    + symmetry in P. now apply Permutation_nil in P.
    + destruct (Z.to_nat (maxInlineComments config)) eqn:En; [lia|].
      cbn [firstn] in H. discriminate.
  - intros H. rewrite H in P |- *. apply Permutation_nil in P. rewrite P.
    apply firstn_nil.
Qed.

(** The review posted for an aggregation requests changes exactly when the
    risk score is 85 or more.  When at least one inline comment is allowed,
    it approves the pull request exactly when no issue is left after
    deduplication and the confidence filter; in every other case it is a
    plain comment. *)
Theorem postReview_event :
  forall (parsedDiff : DiffParser.ParsedDiff) (issues : list Issue)
         (config : WorkerConfig),
    let aggregated := aggregateIssues issues config in
    let request := postReview (build_output parsedDiff aggregated) in
    (event request = REQUEST_CHANGES <-> (85 <= score (riskScore aggregated))%Q)
    /\ ((1 <= maxInlineComments config)%Z ->
        (event request = APPROVE <-> allIssues aggregated = []))
    /\ (event request = APPROVE ->
        inlineComments aggregated = [] /\ (score (riskScore aggregated) < 10)%Q).
Proof.
  intros parsedDiff issues config aggregated request.
  subst request. unfold postReview, build_output.
  cbn [event risk_level risk_score inline_comments].
  assert (Hcrit : is_critical (level (riskScore aggregated)) = true
                  <-> (85 <= score (riskScore aggregated))%Q).
  { rewrite is_critical_iff. subst aggregated. unfold aggregateIssues.
    cbn [riskScore]. apply level_critical_iff. }
  assert (Hlen : (len_of (inlineComments aggregated) =? 0)%Z = true
                 <-> inlineComments aggregated = []).
  { rewrite Z.eqb_eq. unfold len_of.
    destruct (inlineComments aggregated); cbn [length]; split;
      try reflexivity; try discriminate; lia. }
  assert (Hlt : Qltb (score (riskScore aggregated)) 10 = true
                <-> (score (riskScore aggregated) < 10)%Q).
  { unfold Qltb. rewrite negb_true_iff. split.
    - intros H. apply Qnot_le_lt. intros C. apply Qle_bool_iff in C. congruence.
    - intros H. destruct (Qle_bool 10 (score (riskScore aggregated))) eqn:E;
        [|reflexivity].
      apply Qle_bool_iff in E. lra. }
  split; [|split].
  - destruct (is_critical (level (riskScore aggregated))) eqn:C.
    + split; [intros _; now apply Hcrit|reflexivity].
    + split.
      * destruct (_ && _); discriminate.
      * intros H. apply Hcrit in H. discriminate.
  - intros Hmax.
    pose proof (inlineComments_nil_iff issues config Hmax) as Hiff.
    change (aggregateIssues issues config) with aggregated in Hiff.
    assert (Hempty : allIssues aggregated = [] ->
                     is_critical (level (riskScore aggregated)) = false
                     /\ Qltb (score (riskScore aggregated)) 10 = true).
    { subst aggregated. unfold aggregateIssues. cbn [allIssues riskScore].
      intros ->. split; reflexivity. }
    rewrite <- Hiff. split.
    + destruct (is_critical (level (riskScore aggregated))); [discriminate|].
      destruct (Qltb (score (riskScore aggregated)) 10); cbn [andb]; [|discriminate].
      destruct (len_of (inlineComments aggregated) =? 0)%Z eqn:Z0; [|discriminate].
      intros _. now apply Hlen.
    + intros Hnil. destruct (Hempty (proj1 Hiff Hnil)) as [Hc Hs].
      rewrite Hc, Hs, (proj2 Hlen Hnil). reflexivity.
  - destruct (is_critical (level (riskScore aggregated))); [discriminate|].
    destruct (Qltb (score (riskScore aggregated)) 10) eqn:L; cbn [andb];
      [|discriminate].
    destruct (len_of (inlineComments aggregated) =? 0)%Z eqn:Z0; [|discriminate].
    intros _. split; [now apply Hlen|now apply Hlt].
Qed.

Lemma formatInlineComment_default_length (issue : Issue) :
  (len (formatInlineComment issue no_overrides) <= 900)%Z.
Proof.
  unfold formatInlineComment. cbv zeta.
  change (maxInlineChars (merge_config no_overrides)) with 900%Z.
  apply truncateText_length. lia.
Qed.

(** The review carries one comment for each selected issue, in the same
    order, on the last line of the issue and of at most 900 code units;
    the list of comments is left out exactly when no issue was selected,
    and holds at most [maxInlineComments] comments. *)
Theorem postReview_comments :
  forall (parsedDiff : DiffParser.ParsedDiff) (issues : list Issue)
         (config : WorkerConfig),
    let aggregated := aggregateIssues issues config in
    let request := postReview (build_output parsedDiff aggregated) in
    (comments request = None <-> inlineComments aggregated = [])
    /\ (forall cs, comments request = Some cs ->
          map path cs = map file_path (inlineComments aggregated)
          /\ map line cs = map line_end (inlineComments aggregated)
          /\ Forall (fun c => (len (body c) <= 900)%Z) cs
          /\ ((0 <= maxInlineComments config)%Z ->
              (len_of cs <= maxInlineComments config)%Z)).
Proof.
  intros parsedDiff issues config aggregated request.
  subst request. unfold postReview, build_output.
  cbn [comments inline_comments].
  set (sel := inlineComments aggregated).
  assert (Hmap : map path (createReviewComments sel) = map file_path sel
                 /\ map line (createReviewComments sel) = map line_end sel
                 /\ Forall (fun c => (len (body c) <= 900)%Z) (createReviewComments sel)).
  { unfold createReviewComments. rewrite !map_map. cbn [path line].
    split; [reflexivity|]. split; [reflexivity|].
    apply Forall_map. apply Forall_forall. intros i _. cbn [body].
    apply formatInlineComment_default_length. }
  assert (Hlen : len_of (createReviewComments sel) = len_of sel)
    by (unfold len_of, createReviewComments; now rewrite length_map).
  rewrite Hlen. split.
  - destruct sel as [|i sel']; unfold len_of; cbn [length].
    + split; reflexivity.
    + replace (Z.of_nat (S (length sel')) >? 0)%Z with true
        by (symmetry; apply Z.gtb_lt; lia).
      split; discriminate.
  - intros cs Hcs.
    destruct (len_of sel >? 0)%Z; [|discriminate].
    injection Hcs as <-. destruct Hmap as (Hp & Hl & Hb).
    split; [exact Hp|]. split; [exact Hl|]. split; [exact Hb|].
    intros Hmax. rewrite Hlen. subst sel aggregated. unfold aggregateIssues.
    cbn [inlineComments]. rewrite slice_firstn by exact Hmax.
    unfold len_of. rewrite length_firstn. lia.
Qed.
End PosterFacts.


(* ------------------------------------------------------------------ *)
(** ** The webhook route *)
(* ------------------------------------------------------------------ *)

Section RouteFacts.
Import Webhook Routes Notions.

Variable uuidv4 : jsstring.
Variable now : jsstring.

Lemma is_undefined_iff (v : Value) : is_undefined v = true <-> v = VUndefined.
Proof. destruct v; cbn [is_undefined]; split; congruence. Qed.

Lemma event_is_pull_request (h : HeaderValue) :
  match h with
  | Single event => str_eqb event (lit "pull_request")
  | _ => false
  end = true
  <-> h = Single (lit "pull_request").
Proof.
  destruct h as [|event|vs]; try (split; discriminate).
  rewrite str_eqb_eq. split; congruence.
Qed.

(** What the handler does once the checks are passed. *)
Lemma handler_after_checks (req : RouteRequest) :
  passes_checks req ->
  handler uuidv4 now req
  = match member (owner_of req) "login" with
    | TypeError => TypeError
    | Normal login =>
        match member (head_of req) "sha" with
        | TypeError => TypeError
        | Normal head_sha =>
            Normal ({| status := 202;
                       json := [(lit "status", lit "accepted");
                                (lit "jobId", uuidv4);
                                (lit "message", lit "Review job queued")] |},
                    Some {| job_id := uuidv4;
                            owner := login;
                            repo := prop (prop (body req) "repository") "name";
                            prNumber := prop (body req) "number";
                            sha := head_sha;
                            installationId := prop (prop (body req) "installation") "id";
                            action := action_of (body req);
                            createdAt := now;
                            job_requestId := getRequestId req |})
        end
    end.
Proof.
  intros (Hev & Hvalid & Hact & Hdraft & Hinst).
  unfold handler. cbv zeta.
  rewrite (proj2 (event_is_pull_request _) Hev). cbn [negb].
  rewrite Hvalid. cbn [negb].
  rewrite (proj2 (in_keys_existsb str_eqb str_eqb_eq _ _) Hact). cbn [negb].
  rewrite Hdraft.
  destruct (is_undefined (optional_member (prop (body req) "installation") "id")) eqn:E.
  { apply is_undefined_iff in E. contradiction. }
  reflexivity.
Qed.

(** What the handler does when a check fails: a reply without a job. *)
Lemma handler_without_checks (req : RouteRequest) :
  ~ passes_checks req ->
  exists reply, handler uuidv4 now req = Normal (reply, None)
                /\ (status reply = 200%Z \/ status reply = 400%Z).
Proof.
  intros Hno. unfold handler. cbv zeta.
  destruct (match x_github_event req with
            | Single event => str_eqb event (lit "pull_request")
            | _ => false
            end) eqn:Hev; cbn [negb].
  2:{ eexists. split; [reflexivity|]. now left. }
  apply event_is_pull_request in Hev.
  destruct (isValidPRPayload (body req)) eqn:Hvalid; cbn [negb].
  2:{ eexists. split; [reflexivity|]. now right. }
  destruct (existsb (str_eqb (action_of (body req))) SUPPORTED_ACTIONS) eqn:Hact;
    cbn [negb].
  2:{ eexists. split; [reflexivity|]. now left. }
  apply (in_keys_existsb str_eqb str_eqb_eq) in Hact.
  destruct (truthy (prop (prop (body req) "pull_request") "draft")) eqn:Hdraft.
  { eexists. split; [reflexivity|]. now left. }
  destruct (is_undefined (optional_member (prop (body req) "installation") "id")) eqn:E.
  { eexists. split; [reflexivity|]. now right. }
  exfalso. apply Hno. repeat split; try assumption.
  intros C. apply is_undefined_iff in C. congruence.
Qed.

Lemma passes_checks_dec (req : RouteRequest) : passes_checks req \/ ~ passes_checks req.
Proof.
  unfold passes_checks.
  destruct (event_is_pull_request (x_github_event req)) as [E1 E2].
  destruct (match x_github_event req with
            | Single event => str_eqb event (lit "pull_request")
            | _ => false
            end) eqn:Hev.
  2:{ right. intros (H & _). apply E2 in H. discriminate. }
  destruct (isValidPRPayload (body req)); [|right; intros (_ & H & _); discriminate].
  destruct (existsb (str_eqb (action_of (body req))) SUPPORTED_ACTIONS) eqn:Hact.
  2:{ right. intros (_ & _ & H & _).
      apply (in_keys_existsb str_eqb str_eqb_eq) in H. congruence. }
  apply (in_keys_existsb str_eqb str_eqb_eq) in Hact.
  destruct (truthy (prop (prop (body req) "pull_request") "draft"));
    [right; intros (_ & _ & _ & H & _); discriminate|].
  destruct (is_undefined (optional_member (prop (body req) "installation") "id")) eqn:E.
  - right. intros (_ & _ & _ & _ & H). apply is_undefined_iff in E. contradiction.
  - left. repeat split; auto. intros C. apply is_undefined_iff in C. congruence.
Qed.

Lemma member_throws_iff (v : Value) (key : string) :
  member v key = TypeError <-> is_nullish v = true.
Proof. unfold member. destruct (is_nullish v); split; congruence. Qed.

(** The handler hands a job to the queue exactly when the event is
    [pull_request], the payload is valid, the action is supported, the
    pull request is no draft, the installation has an id, and neither
    [repository.owner] nor [pull_request.head] is [null] or missing.  The
    reply is then 202 and carries the id of the job; the job takes its
    fields from the payload. *)
Theorem handler_enqueues_iff :
  forall req : RouteRequest,
    ((exists reply job, handler uuidv4 now req = Normal (reply, Some job))
     <-> passes_checks req
         /\ is_nullish (owner_of req) = false
         /\ is_nullish (head_of req) = false)
    /\ (forall reply job,
          handler uuidv4 now req = Normal (reply, Some job) ->
          status reply = 202%Z
          /\ json reply = [(lit "status", lit "accepted"); (lit "jobId", job_id job);
                           (lit "message", lit "Review job queued")]
          /\ job_id job = uuidv4
          /\ In (action job) SUPPORTED_ACTIONS
          /\ VString (action job) = prop (body req) "action"
          /\ prNumber job = prop (body req) "number"
          /\ is_number (prNumber job) = true
          /\ installationId job <> VUndefined
          /\ owner job = prop (owner_of req) "login"
          /\ sha job = prop (head_of req) "sha"
          /\ repo job = prop (prop (body req) "repository") "name").
Proof.
  intros req. split.
  - split.
    + intros (reply & job & H).
      destruct (passes_checks_dec req) as [P|P].
      * split; [exact P|].
        rewrite (handler_after_checks req P) in H. unfold member in H.
        destruct (is_nullish (owner_of req)); [discriminate|].
        destruct (is_nullish (head_of req)); [discriminate|]. now split.
      * destruct (handler_without_checks req P) as (r & E & _). congruence.
    + intros (P & Ho & Hh). rewrite (handler_after_checks req P).
      unfold member. rewrite Ho, Hh. eauto.
  - intros reply job H.
    destruct (passes_checks_dec req) as [P|P].
    2:{ destruct (handler_without_checks req P) as (r & E & _). congruence. }
    rewrite (handler_after_checks req P) in H. unfold member in H.
    destruct (is_nullish (owner_of req)) eqn:Ho; [discriminate|].
    destruct (is_nullish (head_of req)) eqn:Hh; [discriminate|].
    injection H as <- <-. cbn [status json job_id action prNumber installationId
                                owner sha repo].
    destruct P as (Hev & Hvalid & Hact & Hdraft & Hinst).
    unfold isValidPRPayload in Hvalid.
    destruct (is_object (body req)); cbn [negb] in Hvalid; [|discriminate].
    apply andb_true_iff in Hvalid. destruct Hvalid as [Hvalid _].
    apply andb_true_iff in Hvalid. destruct Hvalid as [Hvalid _].
    apply andb_true_iff in Hvalid. destruct Hvalid as [Hstr Hnum].
    repeat split; try assumption; try reflexivity.
    + unfold action_of. destruct (prop (body req) "action"); try discriminate.
      reflexivity.
    + unfold optional_member in Hinst.
      destruct (is_nullish (prop (body req) "installation")); [congruence|exact Hinst].
Qed.

(** A request that passes every check of the handler but whose payload has
    no [repository.owner], or no [pull_request.head], makes the handler
    throw a [TypeError]: no reply is sent by the handler and no job is
    queued.  The handler throws in no other case. *)
Theorem handler_throws_iff :
  forall req : RouteRequest,
    handler uuidv4 now req = TypeError
    <-> passes_checks req
        /\ (is_nullish (owner_of req) = true \/ is_nullish (head_of req) = true).
Proof.
  intros req. split.
  - intros H. destruct (passes_checks_dec req) as [P|P].
    + split; [exact P|]. rewrite (handler_after_checks req P) in H.
      unfold member in H.
      destruct (is_nullish (owner_of req)); [now left|].
      destruct (is_nullish (head_of req)); [now right|discriminate].
    + destruct (handler_without_checks req P) as (r & E & _). congruence.
  - intros (P & Hor). rewrite (handler_after_checks req P). unfold member.
    destruct (is_nullish (owner_of req)); [reflexivity|].
    destruct Hor as [Hor|Hor]; [discriminate|]. now rewrite Hor.
Qed.

(** Whatever the request, a reply of the handler has status 200, 202 or
    400, and the status is 202 exactly when a job is queued; an event other
    than [pull_request] is answered with 200 and no job, whatever the
    payload. *)
Theorem handler_reply_status :
  forall req : RouteRequest,
    (forall reply queued,
       handler uuidv4 now req = Normal (reply, queued) ->
       (status reply = 200%Z \/ status reply = 202%Z \/ status reply = 400%Z)
       /\ (status reply = 202%Z <-> queued <> None))
    /\ (x_github_event req <> Single (lit "pull_request") ->
        handler uuidv4 now req
        = Normal (ignored (lit "not a pull_request event"), None)).
Proof.
  intros req. split.
  - intros reply queued H.
    destruct (passes_checks_dec req) as [P|P].
    + rewrite (handler_after_checks req P) in H. unfold member in H.
      destruct (is_nullish (owner_of req)); [discriminate|].
      destruct (is_nullish (head_of req)); [discriminate|].
      injection H as <- <-. cbn [status]. split; [auto|].
      split; [discriminate|reflexivity].
    + destruct (handler_without_checks req P) as (r & E & Hs).
      rewrite E in H. injection H as <- <-. split; [tauto|].
      split; [intros C; destruct Hs as [Hs|Hs]; rewrite Hs in C; discriminate|].
      intros C. now contradiction C.
  - intros Hev. unfold handler. cbv zeta.
    destruct (match x_github_event req with
              | Single event => str_eqb event (lit "pull_request")
              | _ => false
              end) eqn:E; [|reflexivity].
    apply event_is_pull_request in E. contradiction.
Qed.

Variable hmac_sha256 : jsstring -> jsstring -> list byte.
Variable JSON_parse : jsstring -> option Value.

(** Through the router, a job is queued only for a request whose signature
    header is the string ["sha256="] followed by the hexadecimal HMAC of
    the received body under the webhook secret, and whose event is
    [pull_request]; any other signature header is answered with 401,
    whatever the body holds. *)
Theorem post_requires_signature :
  forall (secret : jsstring) (incoming : Incoming),
    (forall reply job,
       post uuidv4 now hmac_sha256 JSON_parse secret incoming
       = Normal (reply, Some job) ->
       signature_header incoming
       = Single (expectedSignature hmac_sha256 (data incoming) secret)
       /\ event_header incoming = Single (lit "pull_request")
       /\ status reply = 202%Z)
    /\ (signature_header incoming
        <> Single (expectedSignature hmac_sha256 (data incoming) secret) ->
        exists error,
          post uuidv4 now hmac_sha256 JSON_parse secret incoming
          = Normal (failed 401 error, None)).
Proof.
  intros secret incoming. unfold post. cbv zeta. unfold signatureMiddleware.
  cbn [x_hub_signature_256 Webhook.rawBody].
  split.
  - intros reply job H.
    destruct (signature_header incoming) as [|signature|vs]; try discriminate.
    destruct (verifySignature hmac_sha256 (data incoming) signature secret) eqn:V;
      cbn [negb] in H; [|discriminate].
    apply verifySignature_iff in V. subst signature. split; [reflexivity|].
    set (req := {| x_github_event := event_header incoming;
                   requestId := request_id incoming;
                   body := match JSON_parse (data incoming) with
                           | Some v => v
                           | None => VObject []
                           end |}) in *.
    destruct (passes_checks_dec req) as [P|P].
    + split; [exact (proj1 P)|].
      rewrite (handler_after_checks req P) in H. unfold member in H.
      destruct (is_nullish (owner_of req)); [discriminate|].
      destruct (is_nullish (head_of req)); [discriminate|].
      injection H as <- _. reflexivity.
    + destruct (handler_without_checks req P) as (r & E & _). congruence.
  - intros Hsig.
    destruct (signature_header incoming) as [|signature|vs];
      try (eexists; reflexivity).
    destruct (verifySignature hmac_sha256 (data incoming) signature secret) eqn:V;
      cbn [negb]; [|eexists; reflexivity].
    apply verifySignature_iff in V. subst signature. now contradiction Hsig.
Qed.
End RouteFacts.


(* ------------------------------------------------------------------ *)
(** ** Truncation *)
(* ------------------------------------------------------------------ *)

Section TruncationFacts.
Import Formatter.

Lemma truncateText_long (text : jsstring) (maxLength : Z) :
  (3 <= maxLength < len text)%Z ->
  truncateText text maxLength
  = firstn (Z.to_nat (maxLength - 3)) text ++ lit "...".
Proof.
  intros H. unfold truncateText, truncateText_with.
  replace (len text <=? maxLength)%Z with false by (symmetry; apply Z.leb_gt; lia).
  change (len default_indicator) with 3%Z.
  rewrite slice_firstn by lia. reflexivity.
Qed.

(** A text within the limit is returned as it is.  For a limit of at least
    3, a longer text is cut to its first [maxLength - 3] code units
    followed by three dots, which makes exactly [maxLength] code units,
    and truncating the result again changes nothing.  For a limit below 3
    a longer text gives a result that exceeds the limit. *)
Theorem truncateText_shape :
  forall (text : jsstring) (maxLength : Z),
    ((len text <= maxLength)%Z -> truncateText text maxLength = text)
    /\ ((3 <= maxLength < len text)%Z ->
        truncateText text maxLength
        = firstn (Z.to_nat (maxLength - 3)) text ++ lit "..."
        /\ len (truncateText text maxLength) = maxLength
        /\ truncateText (truncateText text maxLength) maxLength
           = truncateText text maxLength)
    /\ ((maxLength < 3)%Z -> (maxLength < len text)%Z ->
        (maxLength < len (truncateText text maxLength))%Z).
Proof.
  intros text maxLength. split; [|split].
  - intros H. unfold truncateText, truncateText_with.
    now replace (len text <=? maxLength)%Z with true by (symmetry; apply Z.leb_le; lia).
  - intros H. rewrite (truncateText_long text maxLength H).
    assert (L : len (firstn (Z.to_nat (maxLength - 3)) text ++ lit "...") = maxLength).
    { unfold len in *. rewrite length_app, length_firstn.
      change (length (lit "...")) with 3%nat. lia. }
    split; [reflexivity|]. split; [exact L|].
    unfold truncateText at 1. unfold truncateText_with.
    now replace (len (firstn (Z.to_nat (maxLength - 3)) text ++ lit "...")
                 <=? maxLength)%Z
      with true by (symmetry; apply Z.leb_le; lia).
  - intros Hsmall Hlong. unfold truncateText, truncateText_with.
    replace (len text <=? maxLength)%Z with false by (symmetry; apply Z.leb_gt; lia).
    unfold len. rewrite length_app.
    change (length default_indicator) with 3%nat. lia.
Qed.
End TruncationFacts.


(* ------------------------------------------------------------------ *)
(** ** The executive summary of the review output *)
(* ------------------------------------------------------------------ *)

Section CoreIndexFacts.
Import RiskScorer CoreIndex Notions.

Lemma sorted_app_cross {A : Type} (R : A -> A -> Prop) (l1 l2 : list A) :
  StronglySorted R (l1 ++ l2) ->
  forall x y, In x l1 -> In y l2 -> R x y.
Proof.
  induction l1 as [|a l1 IH]; intros HS x y Hx Hy; [destruct Hx|].
  cbn [app] in HS. inversion HS as [|? ? HS' Hall]; subst.
  destruct Hx as [<-|Hx].
  - rewrite Forall_forall in Hall. apply Hall. apply in_or_app. now right.
  - now apply IH.
Qed.

(** The summary of a review with issues is one line of counts, which
    names each severity present once with the number of its issues,
    followed by one line for each of the five issues of highest priority,
    or for all of them when there are fewer: no issue left out has a
    higher priority score than an issue shown. *)
Theorem exec_summary_top_issues :
  forall issues : list Issue,
    issues <> [] ->
    let sorted := sortIssuesByPriority issues in
    createExecutiveSummary issues
    = join line_feed (summary_line issues :: map issue_line (firstn 5 sorted))
    /\ Permutation (firstn 5 sorted ++ skipn 5 sorted) issues
    /\ length (firstn 5 sorted) = Nat.min 5 (length issues)
    /\ (forall shown left_out,
          In shown (firstn 5 sorted) -> In left_out (skipn 5 sorted) ->
          (getIssueScore left_out <= getIssueScore shown)%Q)
    /\ summary_line issues
       = bullet ++ lit " Found " ++ of_Z (len_of issues) ++ lit " issue(s): "
           ++ join (lit ", ")
                (map (fun name => of_Z (with_severity name issues) ++ lit " " ++ name)
                     (severities_of issues)).
Proof.
  intros issues Hne sorted.
  assert (P : Permutation sorted issues) by apply sort_by_perm.
  split; [|split; [|split; [|split]]].
  - unfold createExecutiveSummary.
    destruct (len_of issues =? 0)%Z eqn:E0.
    { apply Z.eqb_eq in E0. unfold len_of in E0. destruct issues; [congruence|].
      cbn [length] in E0. lia. }
    cbv zeta. fold sorted. rewrite slice_firstn by lia. reflexivity.
  - now rewrite firstn_skipn.
  - rewrite length_firstn. now rewrite (Permutation_length P).
  - intros shown left_out Hs Hl.
    assert (S : StronglySorted by_priority (firstn 5 sorted ++ skipn 5 sorted)).
    { rewrite firstn_skipn. apply sortIssuesByPriority_sorted. }
    exact (sorted_app_cross by_priority _ _ S shown left_out Hs Hl).
  - unfold summary_line. cbv zeta.
    change (fold_left tally_step issues OMap.empty)
      with (fold_left ExecutiveSummary.count_step issues OMap.empty).
    rewrite severityCounts_of, map_map. reflexivity.
Qed.
End CoreIndexFacts.


(* ------------------------------------------------------------------ *)
(** ** The repository context and the prompt *)
(* ------------------------------------------------------------------ *)

Section ContextFacts.
Import Chunker Rag Prompts Notions.

Ltac literal_lengths :=
  repeat match goal with
         | |- context [len (lit ?s)] =>
             let v := eval vm_compute in (len (lit s)) in
             change (len (lit s)) with v
         end.

Lemma truncateContext_length (content : jsstring) (maxLength : Z) :
  (0 <= maxLength)%Z ->
  (len (truncateContext content maxLength) <= maxLength + 16)%Z.
Proof.
  intros Hmax. unfold truncateContext.
  destruct (len content <=? maxLength)%Z eqn:E.
  - apply Z.leb_le in E. lia.
  - apply Z.leb_gt in E. unfold len in *.
    rewrite length_app, slice_prefix_length by lia.
    change (length truncation_mark) with 16%nat. lia.
Qed.

Lemma first_found_length (fetchFileContent : jsstring -> Awaited (option jsstring))
  (files : list jsstring) (maxLength : Z) (text : jsstring) :
  (0 <= maxLength)%Z ->
  first_found fetchFileContent files maxLength = Resolved (Some text) ->
  (len text <= maxLength + 16)%Z.
Proof.
  intros Hmax. induction files as [|file rest IH]; cbn [first_found]; [discriminate|].
  destruct (fetchFileContent file) as [[content|]|]; try discriminate.
  - intros H. injection H as <-. now apply truncateContext_length.
  - exact IH.
Qed.

Lemma buildContextString_length (context : RepoContext) :
  (forall text, readme context = Some text -> (len text <= 2016)%Z) ->
  (forall text, contributing context = Some text -> (len text <= 1016)%Z) ->
  (forall text, lintConfig context = Some text -> (len text <= 516)%Z) ->
  (len (buildContextString context) <= 3644)%Z.
Proof.
  intros Hr Hc Hl. unfold buildContextString, readme_parts, contributing_parts, lint_parts.
  destruct (readme context) as [r|]; [specialize (Hr r eq_refl)|clear Hr];
    (destruct (contributing context) as [c|]; [specialize (Hc c eq_refl)|clear Hc]);
    (destruct (lintConfig context) as [l|]; [specialize (Hl l eq_refl)|clear Hl]);
    cbn [app]; try (rewrite join_length; cbn [total_len]; unfold len_of; cbn [length]);
    change (len Rag.line_feed) with 1%Z; change (len []) with 0%Z;
    literal_lengths; try lia.
  cbn [join]. change (len []) with 0%Z. lia.
Qed.

(** The context built from a repository is never longer than 3644 code
    units, whatever the files hold: the README contributes at most 2016,
    the contributing guidelines at most 1016 and the lint configuration
    at most 516.  No further document is retrieved. *)
Theorem repo_context_bounded :
  forall (fetchFileContent : jsstring -> Awaited (option jsstring))
         (context : RepoContext),
    retrieveRepoContext fetchFileContent = Resolved context ->
    (len (buildContextString context) <= 3644)%Z
    /\ (forall text, readme context = Some text -> (len text <= 2016)%Z)
    /\ (forall text, contributing context = Some text -> (len text <= 1016)%Z)
    /\ (forall text, lintConfig context = Some text -> (len text <= 516)%Z)
    /\ relevantDocs context = [].
Proof.
  intros fetchFileContent context. unfold retrieveRepoContext.
  destruct (first_found fetchFileContent _ 2000) as [r|] eqn:Er; [|discriminate].
  destruct (first_found fetchFileContent _ 1000) as [c|] eqn:Ec; [|discriminate].
  destruct (first_found fetchFileContent LINT_CONFIG_FILES 500) as [l|] eqn:El;
    [|discriminate].
  intros H. injection H as <-. cbn [readme contributing lintConfig relevantDocs].
  assert (Hr : forall text, r = Some text -> (len text <= 2016)%Z).
  { intros text ->. apply (first_found_length fetchFileContent _ 2000 text ltac:(lia) Er). }
  assert (Hc : forall text, c = Some text -> (len text <= 1016)%Z).
  { intros text ->. apply (first_found_length fetchFileContent _ 1000 text ltac:(lia) Ec). }
  assert (Hl : forall text, l = Some text -> (len text <= 516)%Z).
  { intros text ->. apply (first_found_length fetchFileContent _ 500 text ltac:(lia) El). }
  split; [|repeat split; assumption].
  now apply buildContextString_length.
Qed.

Lemma join_cons2 (sep a b : jsstring) (rest : list jsstring) :
  join sep (a :: b :: rest) = a ++ sep ++ join sep (b :: rest).
Proof. reflexivity. Qed.

Lemma buildContextString_readme (context : RepoContext) (text : jsstring) :
  readme context = Some text ->
  exists tail,
    buildContextString context
    = (lit "## Project Overview (from README)" ++ Rag.line_feed ++ text) ++ tail.
Proof.
  intros H. unfold buildContextString, readme_parts. rewrite H. cbn [app].
  rewrite !join_cons2.
  exists (Rag.line_feed
            ++ join Rag.line_feed
                 ([] :: contributing_parts context ++ lint_parts context)).
  now rewrite <- !app_assoc.
Qed.

Section WithSanitizer.
Variable sanitizeForPrompt : jsstring -> jsstring.

(** When the README kept in the context has 1966 code units or more, the
    prompt is the same whatever the contributing guidelines and the lint
    configuration are: the prompt takes the first 2000 code units of the
    context string, and the README section fills them. *)
Theorem buildUserPrompt_readme_fills_context :
  forall (chunk : DiffChunk) (prTitle : jsstring) (prBody : option jsstring)
         (context context' : RepoContext) (text : jsstring),
    readme context = Some text ->
    readme context' = Some text ->
    (1966 <= len text)%Z ->
    buildUserPrompt sanitizeForPrompt chunk prTitle prBody (buildContextString context)
    = buildUserPrompt sanitizeForPrompt chunk prTitle prBody
        (buildContextString context').
Proof.
  intros chunk prTitle prBody context context' text Hr Hr' Hlen.
  destruct (buildContextString_readme context text Hr) as (tail & E).
  destruct (buildContextString_readme context' text Hr') as (tail' & E').
  set (section := lit "## Project Overview (from README)" ++ Rag.line_feed ++ text) in *.
  assert (Hsec : (2000 <= length section)%nat).
  { subst section. rewrite !length_app.
    change (length (lit "## Project Overview (from README)")) with 33%nat.
    change (length Rag.line_feed) with 1%nat. unfold len in Hlen. lia. }
  assert (Hcut : forall tl, slice (section ++ tl) 0 2000 = firstn 2000 section).
  { intros tl. rewrite slice_firstn by lia.
    change (Z.to_nat 2000) with 2000%nat.
    rewrite firstn_app.
    replace (2000 - length section)%nat with 0%nat by lia.
    cbn [firstn]. apply app_nil_r. }
  assert (Hpos : forall tl, (len (section ++ tl) >? 0)%Z = true).
  { intros tl. apply Z.gtb_lt. unfold len. rewrite length_app. lia. }
  unfold buildUserPrompt, context_parts. rewrite E, E', !Hcut, !Hpos. reflexivity.
Qed.
End WithSanitizer.
End ContextFacts.


(* ------------------------------------------------------------------ *)
(** ** Further properties at concrete inputs *)
(* ------------------------------------------------------------------ *)

Lemma deduplicateIssues_keeps_best_witness :
  In (Examples.issue_of security high (9 # 10)) Examples.same_place
  /\ exists o,
       In o (Aggregator.deduplicateIssues Examples.same_place)
       /\ Aggregator.createDedupeKey o
          = Aggregator.createDedupeKey (Examples.issue_of security high (9 # 10))
       /\ Aggregator.shouldReplace o (Examples.issue_of security high (9 # 10)) = false
       /\ ((Aggregator.severityOrder (severity (Examples.issue_of security high (9 # 10)))
            < Aggregator.severityOrder (severity o))%Z
           \/ (severity (Examples.issue_of security high (9 # 10)) = severity o
               /\ (confidence (Examples.issue_of security high (9 # 10))
                   <= confidence o)%Q)).
Proof.
  assert (H : In (Examples.issue_of security high (9 # 10)) Examples.same_place)
    by (left; reflexivity).
  split; [exact H|].
  exact (deduplicateIssues_keeps_best Examples.same_place
           (Examples.issue_of security high (9 # 10)) H).
Defined.

Lemma calculateRiskScore_range_witness :
  (forall i, In i Examples.same_place -> (0 <= confidence i)%Q)
  /\ exists n : Z,
       RiskScorer.score
         (RiskScorer.calculateRiskScore Examples.same_place RiskScorer.no_config)
       = inject_Z n
       /\ (0 <= n <= 100)%Z.
Proof.
  assert (H : forall i, In i Examples.same_place -> (0 <= confidence i)%Q).
  { intros i [<-|[<-|[]]]; vm_compute; discriminate. }
  split; [exact H|].
  exact (calculateRiskScore_range Examples.same_place H).
Defined.

Lemma chunkDiff_oversized_alone_witness :
  exists c,
    In c (Chunker.chunkDiff Examples.two_small_files Examples.budget_22)
    /\ (forall f, In f (Chunker.chunk_files c) ->
                  (Notions.file_tokens f
                   > Chunker.maxTokens (Chunker.merge_config Examples.budget_22))%Z ->
                  Chunker.chunk_files c = [f])
    /\ ((1 < length (Chunker.chunk_files c))%nat ->
        (Notions.sum_tokens (Chunker.chunk_files c)
         <= Chunker.maxTokens (Chunker.merge_config Examples.budget_22))%Z).
Proof.
  destruct (Chunker.chunkDiff Examples.two_small_files Examples.budget_22)
    as [|c rest] eqn:E; [vm_compute in E; discriminate|].
  assert (H : In c (Chunker.chunkDiff Examples.two_small_files Examples.budget_22))
    by (rewrite E; left; reflexivity).
  exists c. split; [left; reflexivity|].
  exact (chunkDiff_oversized_alone Examples.two_small_files Examples.budget_22 c H).
Defined.

Lemma parse_lines_at_header_witness :
  DiffParser.DIFF_HEADER_REGEX (lit "diff --git a/cd b/cd") <> None
  /\ Notions.parsed_files
       ([lit "diff --git a/ab b/ab"; lit "+x"] ++ lit "diff --git a/cd b/cd" :: [lit "-y"])
     = Notions.parsed_files [lit "diff --git a/ab b/ab"; lit "+x"]
       ++ Notions.parsed_files (lit "diff --git a/cd b/cd" :: [lit "-y"]).
Proof.
  assert (H : DiffParser.DIFF_HEADER_REGEX (lit "diff --git a/cd b/cd") <> None)
    by (vm_compute; discriminate).
  split; [exact H|].
  exact (parse_lines_at_header [lit "diff --git a/ab b/ab"; lit "+x"] [lit "-y"]
           (lit "diff --git a/cd b/cd") H).
Defined.

Lemma scanDependencies_on_lockfiles_witness :
  In (Examples.bare_file "yarn.lock")
     (FileFilters.lockfiles
        (FileFilters.categorizeFiles Examples.never_matches
           [Examples.bare_file "src/a.ts"; Examples.bare_file "yarn.lock"]
           FileFilters.no_overrides))
  /\ ~ In 92%N (DiffParser.getFilePath (Examples.bare_file "yarn.lock"))
  /\ Osv.scanDependencies Examples.score_9_1 Examples.uuid_of Examples.one_advisory
       Examples.only_lodash Examples.only_lodash Examples.only_lodash
       (lit "{}") (DiffParser.getFilePath (Examples.bare_file "yarn.lock"))
       Examples.worker_defaults
     = [].
Proof.
  assert (H : In (Examples.bare_file "yarn.lock")
                (FileFilters.lockfiles
                   (FileFilters.categorizeFiles Examples.never_matches
                      [Examples.bare_file "src/a.ts"; Examples.bare_file "yarn.lock"]
                      FileFilters.no_overrides)))
    by (vm_compute; left; reflexivity).
  assert (N : ~ In 92%N (DiffParser.getFilePath (Examples.bare_file "yarn.lock"))).
  { vm_compute. intros C. repeat (destruct C as [C|C]; [discriminate C|]). exact C. }
  split; [exact H|]. split; [exact N|].
  apply (proj1 (proj2 (scanDependencies_on_lockfiles Examples.never_matches
                         Examples.score_9_1 Examples.uuid_of Examples.one_advisory
                         Examples.only_lodash Examples.only_lodash Examples.only_lodash
                         [Examples.bare_file "src/a.ts"; Examples.bare_file "yarn.lock"]
                         FileFilters.no_overrides (Examples.bare_file "yarn.lock")
                         (lit "{}") Examples.worker_defaults H N)));
    vm_compute; discriminate.
Defined.

Lemma createExecutiveSummary_bullets_witness :
  Examples.seven_issues <> []
  /\ (1 <= RiskScorer.nullish None 6%Z)%Z
  /\ ExecutiveSummary.createExecutiveSummary Examples.seven_issues None
     = join ExecutiveSummary.line_feed
         (ExecutiveSummary.found_bullet Examples.seven_issues
            :: map ExecutiveSummary.issue_bullet
                 (slice Examples.seven_issues 0 (RiskScorer.nullish None 6%Z - 1)%Z)).
Proof.
  assert (H : Examples.seven_issues <> []) by discriminate.
  assert (K : (1 <= RiskScorer.nullish None 6%Z)%Z) by (vm_compute; discriminate).
  split; [exact H|]. split; [exact K|].
  exact (proj1 (createExecutiveSummary_bullets Examples.seven_issues None H K)).
Defined.

Lemma exec_summary_top_issues_witness :
  Examples.seven_issues <> []
  /\ CoreIndex.createExecutiveSummary Examples.seven_issues
     = join CoreIndex.line_feed
         (CoreIndex.summary_line Examples.seven_issues
            :: map CoreIndex.issue_line
                 (firstn 5 (RiskScorer.sortIssuesByPriority Examples.seven_issues))).
Proof.
  assert (H : Examples.seven_issues <> []) by discriminate.
  split; [exact H|].
  exact (proj1 (exec_summary_top_issues Examples.seven_issues H)).
Defined.

Lemma repo_context_bounded_witness :
  Rag.retrieveRepoContext Examples.readme_only = Rag.Resolved Examples.short_context
  /\ (len (Rag.buildContextString Examples.short_context) <= 3644)%Z.
Proof.
  assert (H : Rag.retrieveRepoContext Examples.readme_only
              = Rag.Resolved Examples.short_context) by reflexivity.
  split; [exact H|].
  exact (proj1 (repo_context_bounded Examples.readme_only Examples.short_context H)).
Defined.

Lemma buildUserPrompt_readme_fills_context_witness :
  Rag.readme (Examples.context_of (Some (lit "Use tabs.")) (Some (lit "{}")))
  = Some Examples.long_readme
  /\ Rag.readme (Examples.context_of None None) = Some Examples.long_readme
  /\ (1966 <= len Examples.long_readme)%Z
  /\ Prompts.buildUserPrompt Examples.unchanged Examples.one_chunk (lit "Fix") None
       (Rag.buildContextString
          (Examples.context_of (Some (lit "Use tabs.")) (Some (lit "{}"))))
     = Prompts.buildUserPrompt Examples.unchanged Examples.one_chunk (lit "Fix") None
         (Rag.buildContextString (Examples.context_of None None)).
Proof.
  assert (L : (1966 <= len Examples.long_readme)%Z) by (vm_compute; discriminate).
  split; [reflexivity|]. split; [reflexivity|]. split; [exact L|].
  exact (buildUserPrompt_readme_fills_context Examples.unchanged Examples.one_chunk
           (lit "Fix") None
           (Examples.context_of (Some (lit "Use tabs.")) (Some (lit "{}")))
           (Examples.context_of None None) Examples.long_readme eq_refl eq_refl L).
Defined.


Lemma handler_enqueues_iff_witness :
  exists reply job,
    Routes.handler Examples.job_uuid Examples.request_time
      (Examples.pr_request (Examples.pr_payload "opened" Examples.with_owner))
    = Routes.Normal (reply, Some job).
Proof.
  apply (proj2 (proj1 (handler_enqueues_iff Examples.job_uuid Examples.request_time
                         (Examples.pr_request
                            (Examples.pr_payload "opened" Examples.with_owner))))).
  split; [|split; reflexivity].
  unfold Notions.passes_checks.
  split; [reflexivity|]. split; [reflexivity|].
  split; [vm_compute; left; reflexivity|].
  split; [reflexivity|]. vm_compute. discriminate.
Defined.

Lemma handler_throws_iff_witness :
  Routes.handler Examples.job_uuid Examples.request_time
    (Examples.pr_request (Examples.pr_payload "opened" []))
  = Routes.TypeError.
Proof.
  apply (proj2 (handler_throws_iff Examples.job_uuid Examples.request_time
                  (Examples.pr_request (Examples.pr_payload "opened" [])))).
  split; [|left; reflexivity].
  unfold Notions.passes_checks.
  split; [reflexivity|]. split; [reflexivity|].
  split; [vm_compute; left; reflexivity|].
  split; [reflexivity|]. vm_compute. discriminate.
Defined.

Lemma handler_reply_status_witness :
  Routes.handler Examples.job_uuid Examples.request_time
    (Examples.pr_request (Examples.pr_payload "closed" Examples.with_owner))
  = Routes.Normal (Routes.ignored (lit "unsupported action: closed"), None)
  /\ (Routes.status (Routes.ignored (lit "unsupported action: closed")) = 202%Z
      <-> @None Routes.ReviewJob <> None).
Proof.
  assert (H : Routes.handler Examples.job_uuid Examples.request_time
                (Examples.pr_request (Examples.pr_payload "closed" Examples.with_owner))
              = Routes.Normal (Routes.ignored (lit "unsupported action: closed"), None))
    by reflexivity.
  split; [exact H|].
  exact (proj2 (proj1 (handler_reply_status Examples.job_uuid Examples.request_time
                         (Examples.pr_request
                            (Examples.pr_payload "closed" Examples.with_owner)))
                  _ _ H)).
Defined.

Lemma post_requires_signature_witness :
  (exists reply job,
     Routes.post Examples.job_uuid Examples.request_time Examples.fixed_digest
       Examples.parse_opened (lit "s3cret") Examples.signed_incoming
     = Routes.Normal (reply, Some job))
  /\ Routes.signature_header Examples.signed_incoming
     = Webhook.Single
         (Webhook.expectedSignature Examples.fixed_digest
            (Routes.data Examples.signed_incoming) (lit "s3cret"))
  /\ Routes.event_header Examples.signed_incoming = Webhook.Single (lit "pull_request").
Proof.
  destruct (Routes.post Examples.job_uuid Examples.request_time Examples.fixed_digest
              Examples.parse_opened (lit "s3cret") Examples.signed_incoming)
    as [[reply [job|]]|] eqn:E;
    [|vm_compute in E; discriminate E|vm_compute in E; discriminate E].
  split; [exists reply, job; reflexivity|].
  destruct (proj1 (post_requires_signature Examples.job_uuid Examples.request_time
                     Examples.fixed_digest Examples.parse_opened (lit "s3cret")
                     Examples.signed_incoming) reply job E) as (A & B & _).
  split; [exact A|exact B].
Defined.

Lemma postReview_event_witness :
  (1 <= maxInlineComments Examples.worker_defaults)%Z
  /\ Poster.event
       (Poster.postReview
          (Poster.build_output Examples.two_small_files
             (Aggregator.aggregateIssues [] Examples.worker_defaults)))
     = Poster.APPROVE.
Proof.
  assert (H : (1 <= maxInlineComments Examples.worker_defaults)%Z)
    by (vm_compute; discriminate).
  split; [exact H|].
  apply (proj2 (proj1 (proj2 (postReview_event Examples.two_small_files []
                                Examples.worker_defaults)) H)).
  reflexivity.
Defined.

Lemma postReview_comments_witness :
  exists cs,
    Poster.comments
      (Poster.postReview
         (Poster.build_output Examples.two_small_files
            (Aggregator.aggregateIssues Examples.same_place Examples.worker_defaults)))
    = Some cs
    /\ Forall (fun c => (len (Poster.body c) <= 900)%Z) cs.
Proof.
  destruct (Poster.comments
              (Poster.postReview
                 (Poster.build_output Examples.two_small_files
                    (Aggregator.aggregateIssues Examples.same_place
                       Examples.worker_defaults))))
    as [cs|] eqn:E; [|vm_compute in E; discriminate E].
  exists cs. split; [reflexivity|].
  exact (proj1 (proj2 (proj2 (proj2 (postReview_comments Examples.two_small_files
                                       Examples.same_place Examples.worker_defaults)
                                cs E)))).
Defined.

Lemma truncateText_shape_witness :
  (3 <= 8 < len (lit "abcdefghij"))%Z
  /\ Formatter.truncateText (lit "abcdefghij") 8 = lit "abcde...".
Proof.
  assert (H : (3 <= 8 < len (lit "abcdefghij"))%Z)
    by (split; [discriminate|vm_compute; reflexivity]).
  split; [exact H|].
  exact (proj1 (proj1 (proj2 (truncateText_shape (lit "abcdefghij") 8)) H)).
Defined.

Lemma categorizeFiles_lockfiles_witness :
  FileFilters.allowLockfilesForDeps (FileFilters.merge_config FileFilters.no_overrides)
  = true
  /\ FileFilters.lockfiles
       (FileFilters.categorizeFiles Examples.never_matches
          [Examples.bare_file "src/a.ts"; Examples.bare_file "yarn.lock"]
          FileFilters.no_overrides)
     = FileFilters.getLockfiles
         [Examples.bare_file "src/a.ts"; Examples.bare_file "yarn.lock"].
Proof.
  assert (H : FileFilters.allowLockfilesForDeps
                (FileFilters.merge_config FileFilters.no_overrides) = true)
    by reflexivity.
  split; [exact H|].
  exact (proj1 (proj2 (categorizeFiles_lockfiles Examples.never_matches
                         [Examples.bare_file "src/a.ts"; Examples.bare_file "yarn.lock"]
                         FileFilters.no_overrides)) H).
Defined.
